(** * DRIFTsync client: ring history, reply ingestor, estimator, query surface

    A shallow embedding of [src/client/c/driftsync.c], and of the reply
    loop of [src/server/server.c].  Integers of the C
    program are [Z] with their wrap-around written out ([size_t] and
    [uint64_t] are 64 bits wide, [int] is 32 bits wide, as on LP64);
    [double] is IEEE-754 binary64 as specified by [SpecFloat]; a ring's
    byte storage is a list of typed slots (the [elementSize] field only
    scales byte offsets and is not represented); the two threads are
    modelled through the bodies of their loops, with clock readings and
    system-call results supplied as arguments. *)

From Stdlib Require Import ZArith Lia Bool.
From Stdlib Require Import Floats.SpecFloat.
From stdpp Require Import base list.

Local Open Scope Z_scope.

(** ** Machine integers *)

Module Int.

(** Value of an unsigned 64-bit result ([size_t], [uint64_t]). *)
Definition u64 (z : Z) : Z := z mod 2 ^ 64.

(** Value of a signed 64-bit result ([int64_t]), two's complement. *)
Definition s64 (z : Z) : Z := (z + 2 ^ 63) mod 2 ^ 64 - 2 ^ 63.

(** Value of a signed 32-bit result ([int]), two's complement. *)
Definition s32 (z : Z) : Z := (z + 2 ^ 31) mod 2 ^ 32 - 2 ^ 31.

Definition min_s64 : Z := - 2 ^ 63.
Definition max_s64 : Z := 2 ^ 63 - 1.

(** [x < 0 ? -x : x] on [int64_t]. *)
Definition abs64 (x : Z) : Z := if x <? 0 then s64 (- x) else x.

End Int.

(** ** Ring history *)

(** The element a [calloc]'d or [memset]-to-zero slot holds. *)
Class Zeroed (A : Type) := zeroed : A.

#[global] Instance Zeroed_inhabited {A} `{Zeroed A} : Inhabited A :=
  populate zeroed.

#[global] Instance Z_zeroed : Zeroed Z := 0.

Record ring_buffer (A : Type) := RingBuffer {
  buffer : list A;
  size : Z;
  count : Z;
  position : Z
}.

Arguments RingBuffer {A} _ _ _ _.
Arguments buffer {A} _.
Arguments size {A} _.
Arguments count {A} _.
Arguments position {A} _.

Section Ring.
Context {A : Type} `{Zeroed A}.

Definition ring_buffer_init (sz : Z) : ring_buffer A :=
  RingBuffer (replicate (Z.to_nat sz) zeroed) sz 0 (Int.u64 (sz - 1)).

Definition ring_buffer_push (b : ring_buffer A) (data : A) : ring_buffer A :=
  let position' := Int.u64 (position b + 1) mod size b in
  let count' := if count b <? size b then Int.u64 (count b + 1) else count b in
  RingBuffer (<[Z.to_nat position' := data]> (buffer b)) (size b) count' position'.

(** Slot that [ring_buffer_get] points at: the [size_t] arithmetic of the
    source, each intermediate result reduced modulo [2 ^ 64]. *)
Definition ring_buffer_slot (b : ring_buffer A) (pos : Z) : Z :=
  let pos' := Int.u64 (pos + Int.u64 (Int.u64 (position b - count b) + 1)) in
  pos' mod size b.

Definition ring_buffer_get (b : ring_buffer A) (pos : Z) : A :=
  buffer b !!! Z.to_nat (ring_buffer_slot b pos).

(** [from] and [to] have the same capacity (asserted by the source). *)
Definition ring_buffer_copy (from to : ring_buffer A) : ring_buffer A :=
  RingBuffer (buffer from) (size to) (count from) (position from).

Definition ring_buffer_clear (b : ring_buffer A) : ring_buffer A :=
  RingBuffer (replicate (Z.to_nat (size b)) zeroed) (size b) 0
    (Int.u64 (size b - 1)).

Definition ring_buffer_apply {St : Type} (b : ring_buffer A)
    (op : A -> St -> St) (state : St) : St :=
  fold_left (fun st i => op (ring_buffer_get b (Z.of_nat i)) st)
    (seq 0 (Z.to_nat (count b))) state.

(** [qsort] belongs to the C library.  It is modelled as an insertion
    sort of the first [n] slots driven by the comparator; on data that
    the comparator orders totally, every sorting routine yields this
    same array.  Where the comparator is not a consistent order (for
    [compare_int64_t]: values [2 ^ 31] or more apart) the library's
    result is unspecified and need not be the one computed here. *)
Fixpoint qsort_insert (compar : A -> A -> Z) (x : A) (l : list A) : list A :=
  match l with
  | [] => [x]
  | y :: l' =>
      if compar x y <=? 0 then x :: l else y :: qsort_insert compar x l'
  end.

Definition qsort (base : list A) (n : Z) (compar : A -> A -> Z) : list A :=
  foldr (qsort_insert compar) [] (take (Z.to_nat n) base)
    ++ drop (Z.to_nat n) base.

(** Sorts the ring's storage in place, then reads through
    [ring_buffer_get]: the sorted ring and the element pointed at. *)
Definition ring_buffer_median (b : ring_buffer A) (compar : A -> A -> Z)
    : ring_buffer A * A :=
  let b' := RingBuffer (qsort (buffer b) (count b) compar)
              (size b) (count b) (position b) in
  (b', ring_buffer_get b' (count b / 2)).

(** The elements a ring holds, oldest first: the slots from
    [position - count + 1] to [position], indices taken modulo [size]
    in exact arithmetic. *)
Definition ring_contents (b : ring_buffer A) : list A :=
  map (fun k => buffer b !!!
                  Z.to_nat ((position b - count b + 1 + Z.of_nat k) mod size b))
    (seq 0 (Z.to_nat (count b))).

(** Shape of every ring built by [ring_buffer_init] and
    [ring_buffer_push]. *)
Definition ring_wf (b : ring_buffer A) : Prop :=
  0 < size b < 2 ^ 63 /\
  length (buffer b) = Z.to_nat (size b) /\
  0 <= count b <= size b /\
  0 <= position b < size b /\
  (count b < size b ->
   position b = if count b =? 0 then size b - 1 else count b - 1).

End Ring.

(** ** Doubles *)

Module Double.

Definition double : Type := spec_float.

Definition prec : Z := 53.
Definition emax : Z := 1024.

Definition add : double -> double -> double := SFadd prec emax.
Definition sub : double -> double -> double := SFsub prec emax.
Definition mul : double -> double -> double := SFmul prec emax.
Definition div : double -> double -> double := SFdiv prec emax.
Definition neg : double -> double := SFopp.
Definition ltb : double -> double -> bool := SFltb.
Definition leb : double -> double -> bool := SFleb.
Definition gtb (x y : double) : bool :=
  match SFcompare x y with Some Gt => true | _ => false end.

(** Conversion of an integer to [double], rounding to nearest even. *)
Definition of_int (z : Z) : double := binary_normalize prec emax z 0 false.

(** The integer part of a finite double, rounding toward zero. *)
Definition trunc (x : double) : Z :=
  match x with
  | S754_finite s m e =>
      let v := if 0 <=? e then Z.pos m * 2 ^ e else Z.pos m / 2 ^ (- e) in
      if s then - v else v
  | _ => 0
  end.

(** [(int64_t)x].  C leaves the conversion undefined when the integer
    part does not fit (and for infinities and NaN); the result is then
    taken to be [INT64_MIN], as the x86-64 conversion instruction
    gives. *)
Definition to_int64 (x : double) : Z :=
  match x with
  | S754_zero _ => 0
  | S754_finite _ _ _ =>
      let v := trunc x in
      if (Int.min_s64 <=? v) && (v <=? Int.max_s64) then v else Int.min_s64
  | _ => Int.min_s64
  end.

Definition is_nan (x : double) : bool :=
  match x with S754_nan => true | _ => false end.

Definition is_finite (x : double) : bool :=
  match x with S754_zero _ | S754_finite _ _ _ => true | _ => false end.

Definition is_zero (x : double) : bool :=
  match x with S754_zero _ => true | _ => false end.

Definition zero : double := S754_zero false.
Definition one : double := of_int 1.
Definition two : double := of_int 2.
(** The literal [0.5]. *)
Definition half : double := S754_finite false 4503599627370496 (-53).
(** [DBL_MAX]. *)
Definition DBL_MAX : double := SFmax_float prec emax.

End Double.

Import Double.

(** ** Structures *)

Record sample := Sample { local : Z; remote : Z }.

#[global] Instance sample_zeroed : Zeroed sample := Sample 0 0.

Record statistics := Statistics {
  sentRequests : Z;
  receivedSamples : Z;
  rejectedSamples : Z
}.

(** [struct accuracy]; its fields [min], [average] and [max] carry a
    prefix here. *)
Record accuracy := Accuracy {
  acc_min : double;
  acc_average : double;
  acc_max : double
}.

(** [struct driftsync_packet] of [driftsync.h]: the fields are unsigned;
    [pk_local] and [pk_remote] are its [local] and [remote]. *)
Record driftsync_packet := Packet {
  magic : Z;
  flags : Z;
  pk_local : Z;
  pk_remote : Z;
  reserved : Z
}.

Definition DRIFTSYNC_MAGIC : Z := 0x74667264.
Definition DRIFTSYNC_FLAG_REPLY : Z := Z.shiftl 1 0.
Definition sizeof_packet : Z := 32.

(** [struct DRIFTsync] without the lock, the condition variable, the socket
    and the server address; [stats] is its [statistics] field. *)
Record DRIFTsync := Sync {
  maxSamples : Z;
  roundTripTimes : ring_buffer Z;
  sortedRoundTripTimes : ring_buffer Z;
  samples : ring_buffer sample;
  clockRate : double;
  offsets : ring_buffer Z;
  averageOffset : Z;
  accuracySamples : ring_buffer Z;
  stats : statistics;
  interval : Z;
  scale : double;
  measureAccuracy : Z
}.

Definition set_roundTripTimes (s : DRIFTsync) (r : ring_buffer Z) : DRIFTsync :=
  Sync (maxSamples s) r (sortedRoundTripTimes s) (samples s) (clockRate s)
    (offsets s) (averageOffset s) (accuracySamples s) (stats s) (interval s)
    (scale s) (measureAccuracy s).

Definition set_sortedRoundTripTimes (s : DRIFTsync) (r : ring_buffer Z)
    : DRIFTsync :=
  Sync (maxSamples s) (roundTripTimes s) r (samples s) (clockRate s)
    (offsets s) (averageOffset s) (accuracySamples s) (stats s) (interval s)
    (scale s) (measureAccuracy s).

Definition set_samples (s : DRIFTsync) (r : ring_buffer sample) : DRIFTsync :=
  Sync (maxSamples s) (roundTripTimes s) (sortedRoundTripTimes s) r
    (clockRate s) (offsets s) (averageOffset s) (accuracySamples s) (stats s)
    (interval s) (scale s) (measureAccuracy s).

Definition set_clockRate (s : DRIFTsync) (c : double) : DRIFTsync :=
  Sync (maxSamples s) (roundTripTimes s) (sortedRoundTripTimes s) (samples s)
    c (offsets s) (averageOffset s) (accuracySamples s) (stats s)
    (interval s) (scale s) (measureAccuracy s).

Definition set_offsets (s : DRIFTsync) (r : ring_buffer Z) : DRIFTsync :=
  Sync (maxSamples s) (roundTripTimes s) (sortedRoundTripTimes s) (samples s)
    (clockRate s) r (averageOffset s) (accuracySamples s) (stats s)
    (interval s) (scale s) (measureAccuracy s).

Definition set_averageOffset (s : DRIFTsync) (a : Z) : DRIFTsync :=
  Sync (maxSamples s) (roundTripTimes s) (sortedRoundTripTimes s) (samples s)
    (clockRate s) (offsets s) a (accuracySamples s) (stats s)
    (interval s) (scale s) (measureAccuracy s).

Definition set_accuracySamples (s : DRIFTsync) (r : ring_buffer Z)
    : DRIFTsync :=
  Sync (maxSamples s) (roundTripTimes s) (sortedRoundTripTimes s) (samples s)
    (clockRate s) (offsets s) (averageOffset s) r (stats s)
    (interval s) (scale s) (measureAccuracy s).

Definition set_stats (s : DRIFTsync) (st : statistics) : DRIFTsync :=
  Sync (maxSamples s) (roundTripTimes s) (sortedRoundTripTimes s) (samples s)
    (clockRate s) (offsets s) (averageOffset s) (accuracySamples s) st
    (interval s) (scale s) (measureAccuracy s).

(** ** Estimator *)

(** [globalTime]; [now] is the reading [localTime()] returns inside it. *)
Definition globalTime (sync : DRIFTsync) (now : Z) : Z :=
  if 0 <? count (samples sync) then
    let reference :=
      local (ring_buffer_get (samples sync)
               (Int.u64 (count (samples sync) - 1))) in
    Int.s64 (Int.s64 (reference + averageOffset sync)
             + to_int64 (mul (of_int (Int.s64 (now - reference)))
                           (clockRate sync)))
  else 0.

(** The 64-bit difference, converted to [int]. *)
Definition compare_int64_t (one two : Z) : Z := Int.s32 (Int.s64 (one - two)).

(** [medianRoundTripTime]: the state (whose scratch ring has been
    overwritten) and the value read.  The [locked] argument only selects
    whether the lock is taken. *)
Definition medianRoundTripTime (sync : DRIFTsync) : DRIFTsync * Z :=
  let scratch := ring_buffer_copy (roundTripTimes sync)
                   (sortedRoundTripTimes sync) in
  let '(scratch', result) := ring_buffer_median scratch compare_int64_t in
  (set_sortedRoundTripTimes sync scratch', result).

Definition sum_int64_t (data : Z) (state : Z) : Z := Int.s64 (state + data).

(** ** Probe emitter *)

Inductive event :=
  | EvSend (stamp : Z)
  | EvLogSendFailed
  | EvLogIncomplete (sent : Z)
  | EvSleep (us : Z).

Definition count_sent (sync : DRIFTsync) : DRIFTsync :=
  set_stats sync
    (Statistics (Int.s32 (sentRequests (stats sync) + 1))
       (receivedSamples (stats sync)) (rejectedSamples (stats sync))).

(** One pass through the body of [request_loop]'s [while (1)]: [now] is the
    reading of [localTime()] stamped into the packet, [result] what
    [sendto] returns. *)
Definition request_iteration (sync : DRIFTsync) (now result : Z)
    : DRIFTsync * list event :=
  let sync := count_sent sync in
  if result <? 0 then (sync, [EvSend now; EvLogSendFailed])
  else if negb (result =? sizeof_packet) then
    (sync, [EvSend now; EvLogIncomplete result])
  else (sync, [EvSend now; EvSleep (interval sync)]).

(** The loop never ends; it is run for as many passes as there are
    environment entries (clock reading, [sendto] result). *)
Fixpoint request_loop (sync : DRIFTsync) (env : list (Z * Z))
    : DRIFTsync * list event :=
  match env with
  | [] => (sync, [])
  | (now, result) :: env' =>
      let '(sync1, evs) := request_iteration sync now result in
      let '(sync2, tr) := request_loop sync1 env' in
      (sync2, evs ++ tr)
  end.

(** ** Reply ingestor *)

Definition count_received (sync : DRIFTsync) : DRIFTsync :=
  set_stats sync
    (Statistics (sentRequests (stats sync))
       (Int.s32 (receivedSamples (stats sync) + 1))
       (rejectedSamples (stats sync))).

Definition count_rejected (sync : DRIFTsync) : DRIFTsync :=
  set_stats sync
    (Statistics (sentRequests (stats sync)) (receivedSamples (stats sync))
       (Int.s32 (rejectedSamples (stats sync) + 1))).

(** [(double)(last->remote - first->remote) / (last->local - first->local)]. *)
Definition clock_rate_of (first last : sample) : double :=
  div (of_int (Int.s64 (remote last - remote first)))
      (of_int (Int.s64 (local last - local first))).

Definition update_clockRate (sync : DRIFTsync) : DRIFTsync :=
  if 2 <=? count (samples sync) then
    let first := ring_buffer_get (samples sync) 0 in
    let last := ring_buffer_get (samples sync)
                  (Int.u64 (count (samples sync) - 1)) in
    set_clockRate sync (clock_rate_of first last)
  else sync.

(** [total / sync->offsets.count]: [total] is an [int64_t] and the count a
    [size_t], so the division is carried out on unsigned 64-bit values
    and its result converted back to [int64_t]. *)
Definition update_averageOffset (sync : DRIFTsync) : DRIFTsync :=
  let total := ring_buffer_apply (offsets sync) sum_int64_t 0 in
  set_averageOffset sync (Int.s64 (Int.u64 total / count (offsets sync))).

(** The critical section of [receive_loop] for a reply that passed the
    length, magic and flag checks; [now] was read right after [recvfrom].
    The boolean tells whether the sample was accepted ([false]: the
    [continue] of the rejection branch was taken). *)
Definition ingest (sync : DRIFTsync) (now : Z) (packet : driftsync_packet)
    : DRIFTsync * bool :=
  let sync := count_received sync in
  let roundTripTime := Int.s64 (Int.u64 (now - pk_local packet)) in
  let sync := set_roundTripTimes sync
                (ring_buffer_push (roundTripTimes sync) roundTripTime) in
  let '(sync, median) := medianRoundTripTime sync in
  let difference := Int.s64 (roundTripTime - median) in
  if 10000 <? Int.abs64 difference then (count_rejected sync, false)
  else
    let smp := Sample (Int.s64 (pk_local packet)) (Int.s64 (pk_remote packet)) in
    let sync := set_samples sync (ring_buffer_push (samples sync) smp) in
    let sync := update_clockRate sync in
    let offset := Int.s64 (Int.u64 (pk_remote packet - pk_local packet)) in
    let sync := set_offsets sync (ring_buffer_push (offsets sync) offset) in
    (update_averageOffset sync, true).

(** Clock readings taken during one pass of [receive_loop], in program
    order. *)
Record receive_clock := ReceiveClock {
  rc_now : Z;
  rc_measure_before : Z;
  rc_global_before : Z;
  rc_global_after : Z;
  rc_measure_after : Z
}.

Definition valid_reply (result : Z) (packet : driftsync_packet) : bool :=
  negb (result <? 0) && negb (result <? sizeof_packet)
  && (magic packet =? DRIFTSYNC_MAGIC)
  && negb (Z.land (flags packet) DRIFTSYNC_FLAG_REPLY =? 0).

(** One pass through the body of [receive_loop]'s [while (1)]. *)
Definition receive_iteration (sync : DRIFTsync) (result : Z)
    (packet : driftsync_packet) (clk : receive_clock) : DRIFTsync :=
  if negb (valid_reply result packet) then sync
  else
    let measuring := negb (measureAccuracy sync =? 0) in
    let measureLocalTime := if measuring then rc_measure_before clk else 0 in
    let measureGlobalTime :=
      if measuring then globalTime sync (rc_global_before clk) else 0 in
    let '(sync, accepted) := ingest sync (rc_now clk) packet in
    if negb accepted then sync
    else if measuring && (1 <? count (samples sync)) then
      let measureGlobalTime :=
        Int.s64 (measureGlobalTime - globalTime sync (rc_global_after clk)) in
      let measureLocalTime :=
        Int.s64 (measureLocalTime - rc_measure_after clk) in
      let accuracySample :=
        Int.abs64 (Int.s64 (measureGlobalTime - measureLocalTime)) in
      set_accuracySamples sync
        (ring_buffer_push (accuracySamples sync) accuracySample)
    else sync.

(** ** Construction and query surface *)

(** State [DRIFTsync_create] hands to the two threads. *)
Definition DRIFTsync_create (scale : double) (interval measureAccuracy : Z)
    : DRIFTsync :=
  let maxSamples := 10 in
  Sync maxSamples (ring_buffer_init maxSamples) (ring_buffer_init maxSamples)
    (ring_buffer_init maxSamples) one (ring_buffer_init maxSamples) 0
    (ring_buffer_init maxSamples) (Statistics 0 0 0)
    interval scale measureAccuracy.

Definition DRIFTsync_localTime (sync : DRIFTsync) (now : Z) : double :=
  mul (of_int now) (scale sync).

Definition DRIFTsync_globalTime (sync : DRIFTsync) (now : Z) : double :=
  mul (of_int (globalTime sync now)) (scale sync).

Definition DRIFTsync_offset (sync : DRIFTsync) : double :=
  mul (of_int (averageOffset sync)) (scale sync).

Definition DRIFTsync_clockRate (sync : DRIFTsync) : double := clockRate sync.

(** [difference] of [DRIFTsync_suggestPlaybackRate]. *)
Definition playback_difference (sync : DRIFTsync) (now : Z)
    (globalStartTime playbackPosition : double) : double :=
  let globalPosition :=
    sub (of_int (globalTime sync now)) (div globalStartTime (scale sync)) in
  sub globalPosition (div playbackPosition (scale sync)).

(** [x < 0 ? -x : x] on [double]. *)
Definition fabs_cond (x : double) : double :=
  if ltb x (of_int 0) then neg x else x.

(** [1 + difference / 1000 / 1000]. *)
Definition playback_rate (difference : double) : double :=
  add (of_int 1) (div (div difference (of_int 1000)) (of_int 1000)).

Definition DRIFTsync_suggestPlaybackRate (sync : DRIFTsync) (now : Z)
    (globalStartTime playbackPosition : double) : double :=
  let difference :=
    playback_difference sync now globalStartTime playbackPosition in
  if ltb (fabs_cond difference) (of_int 5000) then of_int 1
  else
    let rate := playback_rate difference in
    if gtb rate (of_int 2) then of_int 2
    else if ltb rate half then half
    else rate.

Definition DRIFTsync_medianRoundTripTime (sync : DRIFTsync)
    : DRIFTsync * double :=
  let '(sync', median) := medianRoundTripTime sync in
  (sync', mul (of_int median) (scale sync)).

Definition DRIFTsync_statistics (sync : DRIFTsync) : statistics := stats sync.

Definition accumulate_accuracy (data : Z) (state : accuracy) : accuracy :=
  let d := of_int data in
  let state :=
    if ltb d (acc_min state)
    then Accuracy d (acc_average state) (acc_max state) else state in
  let state :=
    if gtb d (acc_max state)
    then Accuracy (acc_min state) (acc_average state) d else state in
  Accuracy (acc_min state) (add (acc_average state) d) (acc_max state).

Record timespec := Timespec { tv_sec : Z; tv_nsec : Z }.

(** Nanoseconds a [timespec] denotes. *)
Definition timespec_ns (t : timespec) : Z := tv_sec t * 1000000000 + tv_nsec t.

(** Deadline handed to [pthread_cond_timedwait]: [spec] is the reading of
    the realtime clock, [timeout] an [int]. *)
Definition accuracy_deadline (spec : timespec) (timeout : Z) : timespec :=
  Timespec
    (tv_sec spec + Z.quot (Z.quot timeout 1000) 1000)
    (tv_nsec spec + Z.quot (Z.rem timeout 1000) 1000 * 1000).

Definition accuracy_zero : accuracy := Accuracy zero zero zero.

(** [DRIFTsync_accuracy]; [realtime] is what [clock_gettime(CLOCK_REALTIME)]
    reads.  Waiting on the condition variable gives up the lock:
    [cond_wait deadline sync] is [None] when the wait returns nonzero
    (deadline expiry) and otherwise the state found once the lock is held
    again. *)
Definition DRIFTsync_accuracy (sync : DRIFTsync) (wait reset timeout : Z)
    (realtime : timespec)
    (cond_wait : option timespec -> DRIFTsync -> option DRIFTsync)
    : DRIFTsync * accuracy :=
  if measureAccuracy sync =? 0 then (sync, accuracy_zero)
  else
    let sync :=
      if negb (reset =? 0)
      then set_accuracySamples sync (ring_buffer_clear (accuracySamples sync))
      else sync in
    let woken :=
      if negb (wait =? 0) then
        if 0 <? timeout
        then cond_wait (Some (accuracy_deadline realtime timeout)) sync
        else cond_wait None sync
      else Some sync in
    match woken with
    | None => (sync, accuracy_zero)
    | Some sync =>
        if count (accuracySamples sync) =? 0 then (sync, accuracy_zero)
        else
          let acc := ring_buffer_apply (accuracySamples sync)
                       accumulate_accuracy (Accuracy DBL_MAX zero zero) in
          let average :=
            div (acc_average acc) (of_int (count (accuracySamples sync))) in
          (sync, Accuracy (mul (acc_min acc) (scale sync))
                   (mul average (scale sync))
                   (mul (acc_max acc) (scale sync)))
    end.

(** [SCALE_MS], the scale [main] passes. *)
Definition SCALE_MS : double := div (of_int 1) (of_int 1000).

(** ** Reachable client states *)

(** States the two threads and the callers of the query surface can bring
    a client into.  A call of [DRIFTsync_accuracy] changes the state only
    by its [reset]; what it finds after waiting was produced by the other
    rules. *)
Inductive reachable : DRIFTsync -> Prop :=
  | reach_create scale interval measure :
      reachable (DRIFTsync_create scale interval measure)
  | reach_request sync now result :
      reachable sync -> reachable (fst (request_iteration sync now result))
  | reach_receive sync result packet clk :
      reachable sync -> reachable (receive_iteration sync result packet clk)
  | reach_median sync :
      reachable sync -> reachable (fst (DRIFTsync_medianRoundTripTime sync))
  | reach_reset sync :
      reachable sync ->
      reachable (set_accuracySamples sync
                   (ring_buffer_clear (accuracySamples sync))).

(** [receive_loop] never ends either; it is run for as many passes as
    there are environment entries: what [recvfrom] returns, the datagram
    it delivers and the clock readings taken while it is handled. *)
Definition receive_loop (sync : DRIFTsync)
    (env : list (Z * driftsync_packet * receive_clock)) : DRIFTsync :=
  fold_left
    (fun s e => receive_iteration s (fst (fst e)) (snd (fst e)) (snd e))
    env sync.

(** A reply as the server builds it. *)
Definition reply (local remote : Z) : driftsync_packet :=
  Packet DRIFTSYNC_MAGIC DRIFTSYNC_FLAG_REPLY local remote 0.

(** A reply received whole, with the clock readings around it. *)
Definition received (local remote now : Z)
    : Z * driftsync_packet * receive_clock :=
  (sizeof_packet, reply local remote,
   ReceiveClock now (now + 1) (now + 2) (now + 3) (now + 4)).

(** Both stamps of a sample are [int64_t] values. *)
Definition sample_in_range (s : sample) : Prop :=
  (Int.min_s64 <= local s <= Int.max_s64) /\
  (Int.min_s64 <= remote s <= Int.max_s64).

(** What every reachable state satisfies: the five rings keep their shape
    and their capacity of 10, a round-trip ring that was never pushed to
    still holds the zeros [calloc] put there, and the samples stored are
    within [int64_t]. *)
Definition sync_inv (s : DRIFTsync) : Prop :=
  (ring_wf (roundTripTimes s) /\ size (roundTripTimes s) = 10) /\
  size (sortedRoundTripTimes s) = 10 /\
  (ring_wf (samples s) /\ size (samples s) = 10) /\
  (ring_wf (offsets s) /\ size (offsets s) = 10) /\
  (ring_wf (accuracySamples s) /\ size (accuracySamples s) = 10) /\
  (count (roundTripTimes s) = 0 -> buffer (roundTripTimes s) = replicate 10 0) /\
  Forall sample_in_range (buffer (samples s)).

(** ** Preconditions on the retained samples *)

(** Strictly increasing, oldest first. *)
Fixpoint increasing (l : list Z) : bool :=
  match l with
  | x :: (y :: _) as l' => (x <? y) && increasing l'
  | _ => true
  end.

(** Newest minus oldest. *)
Definition span (l : list Z) : Z :=
  match head l, last l with
  | Some x, Some y => y - x
  | _, _ => 0
  end.

(** ** Clock readings *)

(** [localTime] of the client: [clock] is what
    [clock_gettime(CLOCK_MONOTONIC)] stores, [None] when it fails.  The
    seconds are widened to [int64_t] before they are scaled; the
    nanoseconds are divided as a [long], rounding toward zero. *)
Definition localTime (clock : option timespec) : Z :=
  match clock with
  | Some time =>
      Int.s64 (Int.s64 (Int.s64 (tv_sec time * 1000) * 1000)
               + Z.quot (tv_nsec time) 1000)
  | None => 0
  end.

(** The datagram [request_loop] hands to [sendto]: zeroed but for the
    magic and the stamp [localTime()] returned, stored into the unsigned
    [local] field. *)
Definition request_packet (now : Z) : driftsync_packet :=
  Packet DRIFTSYNC_MAGIC 0 (Int.u64 now) 0 0.

(** ** Server *)

(** [src/server/server.c]. *)
Module Server.

(** [localTime] of the server: the whole reading is brought to
    nanoseconds in [uint64_t] arithmetic and then divided. *)
Definition localTime (clock : option timespec) : Z :=
  match clock with
  | Some time =>
      Int.u64 (Int.u64 (Int.u64 (Int.u64 (Int.u64 (tv_sec time) * 1000) * 1000)
                        * 1000)
               + Int.u64 (tv_nsec time)) / 1000
  | None => 0
  end.

(** One pass through the body of [main]'s [while (1)]: [result] is what
    [recvfrom] returns, [packet] the datagram it stored and [now] the
    reading [localTime()] returns.  The value is the datagram handed to
    [sendto], if the pass gets that far; what is printed, and what
    [sendto] returns (it is only printed), are not represented.  The
    packet buffer outlives the pass, but a pass that gets past the length
    check has had all of it overwritten. *)
Definition main_iteration (result : Z) (packet : driftsync_packet) (now : Z)
    : option driftsync_packet :=
  if result <? 0 then None
  else if result <? sizeof_packet then None
  else if negb (magic packet =? DRIFTSYNC_MAGIC) then None
  else if negb (Z.land (flags packet) DRIFTSYNC_FLAG_REPLY =? 0) then None
  else
    Some (Packet (magic packet)
            (Z.lor (flags packet) DRIFTSYNC_FLAG_REPLY)
            (pk_local packet) now (reserved packet)).

End Server.

(** ** Reachable states with their history *)

(** [tallied n r sync]: the state [sync] is reached by a history in which
    [n] datagrams passed the checks of [receive_loop] and went through
    [ingest], and [r] of them were rejected there.  The rules are those
    of [reachable], the pass of [receive_loop] split by its outcome. *)
Inductive tallied : Z -> Z -> DRIFTsync -> Prop :=
  | tallied_create scale interval measure :
      tallied 0 0 (DRIFTsync_create scale interval measure)
  | tallied_request n r sync now result :
      tallied n r sync ->
      tallied n r (fst (request_iteration sync now result))
  | tallied_dropped n r sync result packet clk :
      tallied n r sync ->
      valid_reply result packet = false ->
      tallied n r (receive_iteration sync result packet clk)
  | tallied_accepted n r sync result packet clk :
      tallied n r sync ->
      valid_reply result packet = true ->
      snd (ingest sync (rc_now clk) packet) = true ->
      tallied (n + 1) r (receive_iteration sync result packet clk)
  | tallied_rejected n r sync result packet clk :
      tallied n r sync ->
      valid_reply result packet = true ->
      snd (ingest sync (rc_now clk) packet) = false ->
      tallied (n + 1) (r + 1) (receive_iteration sync result packet clk)
  | tallied_median n r sync :
      tallied n r sync ->
      tallied n r (fst (DRIFTsync_medianRoundTripTime sync))
  | tallied_reset n r sync :
      tallied n r sync ->
      tallied n r (set_accuracySamples sync
                     (ring_buffer_clear (accuracySamples sync))).

(** ** Order on doubles *)

(** The place of a double that is not NaN in the order [SFcompare]
    decides, as a lexicographic triple: sign class, then exponent and
    mantissa, both negated for negative numbers. *)
Definition rank (x : double) : Z * Z * Z :=
  match x with
  | S754_zero _ => (0, 0, 0)
  | S754_infinity s => if s then (-2, 0, 0) else (2, 0, 0)
  | S754_nan => (0, 0, 0)
  | S754_finite s m e => if s then (-1, - e, - Z.pos m) else (1, e, Z.pos m)
  end.

Definition lex_le (a b : Z * Z * Z) : Prop :=
  let '(a1, a2, a3) := a in
  let '(b1, b2, b3) := b in
  a1 < b1 \/ (a1 = b1 /\ (a2 < b2 \/ (a2 = b2 /\ a3 <= b3))).

(** ** The specification's readings *)

Module Spec.

(** Natural order on [i64]. *)
Definition natural_order (x y : Z) : Z := x - y.

(** "The sorted copy of the ring's current contents". *)
Definition sorted_copy (b : ring_buffer Z) : list Z :=
  foldr (qsort_insert natural_order) [] (ring_contents b).

(** "The value at index [count/2] of the sorted RTT ring copy". *)
Definition median (b : ring_buffer Z) : Z :=
  nth (Z.to_nat (count b / 2)) (sorted_copy b) 0.

(** "The sum of the offsets ring's current contents divided by its count
    using truncating integer division". *)
Definition mean (b : ring_buffer Z) : Z :=
  Z.quot (foldr Z.add 0 (ring_contents b)) (count b).

(** "clamp(x, lo, hi)". *)
Definition clamp (x lo hi : double) : double :=
  if ltb x lo then lo else if gtb x hi then hi else x.

(** "Every send attempt is followed by the interval sleep before the next
    probe is emitted": [pending] tells whether a send is still waiting
    for its sleep. *)
Fixpoint sleep_after_every_send (pending : bool) (tr : list event) : bool :=
  match tr with
  | [] => negb pending
  | EvSend _ :: tr' => negb pending && sleep_after_every_send true tr'
  | EvSleep _ :: tr' => sleep_after_every_send false tr'
  | _ :: tr' => sleep_after_every_send pending tr'
  end.

End Spec.

(** ** Concrete runs *)

Module Run.

(** The client [main] creates. *)
Definition fresh : DRIFTsync := DRIFTsync_create SCALE_MS 5000000 1.

(** The [k]-th reply of a steady exchange: sent at [k] seconds, answered
    by a server whose clock is [1000 * k] microseconds ahead, received
    [100 * k] microseconds after it was sent. *)
Definition steady (k : Z) : Z * driftsync_packet * receive_clock :=
  received (1000000 * k) (1000000 * k + 1000 * k) (1000000 * k + 100 * k).

Definition first_reply : DRIFTsync := receive_loop fresh [steady 1].

Definition eleven_replies : DRIFTsync :=
  receive_loop fresh (map steady [1; 2; 3; 4; 5; 6; 7; 8; 9; 10; 11]).

(** A server whose clock is 5 microseconds behind the client's. *)
Definition behind (k : Z) : Z * driftsync_packet * receive_clock :=
  received (1000000 * k) (1000000 * k - 5) (1000000 * k + 100).

Definition two_replies_behind : DRIFTsync :=
  receive_loop fresh [behind 1; behind 2].

(** A server whose clock passes from the lowest [int64_t] to the highest
    between two replies. *)
Definition extreme_remote : DRIFTsync :=
  receive_loop fresh [received 0 (2 ^ 63) 100; received 1 (2 ^ 63 - 1) 101].

(** A client created with an infinite scale. *)
Definition unbounded_scale : DRIFTsync :=
  DRIFTsync_create (S754_infinity false) 5000000 1.

(** Two replies with round trips of 100 microseconds, and a third one
    with a round trip of [last_rtt]. *)
Definition two_replies : DRIFTsync :=
  receive_loop fresh [received 1000 5000 1100; received 2000 6000 2100].

Definition third_round_trip (last_rtt : Z) : DRIFTsync * bool :=
  ingest two_replies (3000 + last_rtt) (reply 3000 7000).

(** A ring of capacity 10 after ten pushes. *)
Definition full_ring : ring_buffer Z :=
  fold_left ring_buffer_push [1; 2; 3; 4; 5; 6; 7; 8; 9; 10]
    (ring_buffer_init 10).

(** The [k]-th reply of an exchange whose round trips change: sent at
    [k] seconds and received [rtt] microseconds later. *)
Definition delayed (k rtt : Z) : Z * driftsync_packet * receive_clock :=
  received (1000000 * k) (1000000 * k + 1000) (1000000 * k + rtt).

(** Ten replies: four with a round trip of 100 microseconds, then six
    with a round trip of 20000. *)
Definition ten_round_trips : DRIFTsync :=
  receive_loop fresh
    [delayed 1 100; delayed 2 100; delayed 3 100; delayed 4 100;
     delayed 5 20000; delayed 6 20000; delayed 7 20000; delayed 8 20000;
     delayed 9 20000; delayed 10 20000].

End Run.

(** * Properties *)

(** ** Machine integers within range *)

Lemma s64_small z : Int.min_s64 <= z <= Int.max_s64 -> Int.s64 z = z.
Proof.
  unfold Int.min_s64, Int.max_s64, Int.s64. intros Hz.
  rewrite Z.mod_small by lia. lia.
Qed.

Lemma s64_range z : Int.min_s64 <= Int.s64 z <= Int.max_s64.
Proof.
  unfold Int.min_s64, Int.max_s64, Int.s64.
  pose proof (Z.mod_pos_bound (z + 2 ^ 63) (2 ^ 64) ltac:(lia)). lia.
Qed.

(** A difference of two distinct [int64_t] values does not wrap to 0. *)
Lemma s64_difference_nonzero x y :
  Int.min_s64 <= x <= Int.max_s64 -> Int.min_s64 <= y <= Int.max_s64 ->
  x < y -> Int.s64 (y - x) <> 0.
Proof.
  unfold Int.min_s64, Int.max_s64, Int.s64. intros Hx Hy Hxy.
  destruct (Z_lt_le_dec (y - x) (2 ^ 63)) as [Hsmall|Hbig].
  - rewrite Z.mod_small by lia. lia.
  - replace (y - x + 2 ^ 63) with ((y - x - 2 ^ 63) + 1 * 2 ^ 64) by lia.
    rewrite Z_mod_plus_full, Z.mod_small by lia. lia.
Qed.

Lemma abs64_exact d :
  Int.min_s64 < d <= Int.max_s64 -> Int.abs64 (Int.s64 d) = Z.abs d.
Proof.
  unfold Int.min_s64, Int.max_s64, Int.abs64, Int.s64. intros Hd.
  rewrite (Z.mod_small (d + 2 ^ 63)) by lia.
  replace (d + 2 ^ 63 - 2 ^ 63) with d by lia.
  destruct (Z.ltb_spec d 0).
  - rewrite Z.mod_small by lia. lia.
  - lia.
Qed.

(** ** Ring history *)

Section RingFacts.
Context {A : Type} `{Zeroed A}.
Implicit Types (b : ring_buffer A) (x : A).

Lemma u64_small z : 0 <= z < 2 ^ 64 -> Int.u64 z = z.
Proof. intros Hz. unfold Int.u64. apply Z.mod_small. exact Hz. Qed.

Lemma mod_add_once a n : 0 < n -> - n <= a < 0 -> a mod n = a + n.
Proof.
  intros Hn Ha. symmetry. apply (Z.mod_unique a n (-1) (a + n)); lia.
Qed.

Lemma ring_wf_init n : 0 < n < 2 ^ 63 -> ring_wf (ring_buffer_init (A:=A) n).
Proof.
  intros Hn. unfold ring_wf, ring_buffer_init; simpl.
  rewrite length_replicate, u64_small by lia.
  repeat split; lia.
Qed.

Lemma ring_wf_clear b : ring_wf b -> ring_wf (ring_buffer_clear b).
Proof.
  intros (Hs & _). unfold ring_wf, ring_buffer_clear; simpl.
  rewrite length_replicate, u64_small by lia.
  repeat split; lia.
Qed.

Lemma push_position b x :
  ring_wf b -> position (ring_buffer_push b x) = (position b + 1) mod size b.
Proof.
  intros (Hs & _ & _ & Hp & _). unfold ring_buffer_push; simpl.
  rewrite u64_small by lia. reflexivity.
Qed.

(** The count after a push is the smaller of the capacity and the count
    before plus one. *)
Lemma push_count b x :
  ring_wf b -> count (ring_buffer_push b x) = Z.min (size b) (count b + 1).
Proof.
  intros (Hs & _ & Hc & _ & _). unfold ring_buffer_push; simpl.
  destruct (Z.ltb_spec (count b) (size b)).
  - rewrite u64_small by lia. lia.
  - lia.
Qed.

Lemma push_size b x : size (ring_buffer_push b x) = size b.
Proof. reflexivity. Qed.

Lemma ring_wf_push b x : ring_wf b -> ring_wf (ring_buffer_push b x).
Proof.
  intros Hwf. pose proof (push_count b x Hwf) as Hcnt.
  pose proof (push_position b x Hwf) as Hpos.
  destruct Hwf as (Hs & Hl & Hc & Hp & Hpc).
  unfold ring_wf. rewrite Hcnt, Hpos.
  unfold ring_buffer_push at 1 2 3; simpl. rewrite length_insert.
  pose proof (Z.mod_pos_bound (position b + 1) (size b) ltac:(lia)).
  repeat split; try lia.
  intros Hlt. assert (Hlt' : count b < size b) by lia.
  rewrite (Hpc Hlt'). rewrite Z.min_r by lia.
  destruct (Z.eqb_spec (count b) 0) as [Hz|Hz].
  - replace (size b - 1 + 1) with (size b) by lia.
    rewrite Z.mod_same by lia.
    destruct (Z.eqb_spec (count b + 1) 0); lia.
  - rewrite Z.mod_small by lia.
    destruct (Z.eqb_spec (count b + 1) 0); lia.
Qed.

(** Index [count - 1] always resolves to the slot written last. *)
Lemma slot_newest b :
  ring_wf b -> 0 < count b ->
  ring_buffer_slot b (Int.u64 (count b - 1)) = position b.
Proof.
  intros (Hs & _ & Hc & Hp & _) Hpos. unfold ring_buffer_slot, Int.u64.
  rewrite Zplus_mod_idemp_l, Zplus_mod_idemp_l, Zplus_mod_idemp_r.
  replace (count b - 1 + (position b - count b + 1)) with (position b) by lia.
  rewrite (Z.mod_small (position b) (2 ^ 64)) by lia.
  apply Z.mod_small. lia.
Qed.

(** The element just pushed is read back at index [count - 1]. *)
Lemma get_push_newest b x :
  ring_wf b ->
  ring_buffer_get (ring_buffer_push b x)
    (Int.u64 (count (ring_buffer_push b x) - 1)) = x.
Proof.
  intros Hwf. pose proof (ring_wf_push b x Hwf) as Hwf'.
  unfold ring_buffer_get. rewrite slot_newest; [|exact Hwf'|].
  - destruct Hwf as (Hs & Hl & Hc & Hp & _).
    unfold ring_buffer_push; simpl. rewrite u64_small by lia.
    apply list_lookup_total_insert_eq.
    pose proof (Z.mod_pos_bound (position b + 1) (size b) ltac:(lia)). lia.
  - rewrite push_count by exact Hwf. destruct Hwf as (? & _ & ? & _). lia.
Qed.

(** [ring_buffer_push] appends in insertion order and, on a full ring,
    drops the oldest element. *)
Lemma ring_contents_push b x :
  ring_wf b ->
  ring_contents (ring_buffer_push b x) =
    (if count b <? size b then ring_contents b else tail (ring_contents b))
    ++ [x].
Proof.
  intros (Hs & Hl & Hc & Hp & Hpc).
  unfold ring_contents, ring_buffer_push; simpl.
  rewrite u64_small by lia.
  destruct (Z.ltb_spec (count b) (size b)) as [Hlt|Hge].
  - (* room left: the new element lands in slot [count b] *)
    specialize (Hpc Hlt).
    assert (Hp' : (position b + 1) mod size b = count b).
    { destruct (Z.eqb_spec (count b) 0); subst.
      - rewrite Hpc. replace (size b - 1 + 1) with (size b) by lia.
        rewrite Z.mod_same; lia.
      - rewrite Z.mod_small; lia. }
    rewrite Hp', u64_small by lia.
    replace (Z.to_nat (count b + 1)) with (S (Z.to_nat (count b))) by lia.
    rewrite seq_S, map_app. simpl. f_equal.
    + apply map_ext_in. intros k Hk%in_seq.
      replace ((count b - (count b + 1) + 1 + Z.of_nat k)) with (Z.of_nat k)
        by lia.
      replace (position b - count b + 1 + Z.of_nat k) with (Z.of_nat k)
        by (destruct (Z.eqb_spec (count b) 0); lia).
      apply list_lookup_total_insert_ne.
      rewrite Z.mod_small by lia. lia.
    + f_equal.
      replace (count b - (count b + 1) + 1 + Z.of_nat (Z.to_nat (count b)))
        with (count b) by lia.
      rewrite Z.mod_small by lia.
      apply list_lookup_total_insert_eq. lia.
  - (* full: the oldest slot is overwritten *)
    assert (Hcn : count b = size b) by lia. rewrite Hcn.
    destruct (Z.to_nat (size b)) as [|m] eqn:Hm; [lia|].
    rewrite seq_S at 1. rewrite map_app. simpl.
    rewrite <- seq_shift, map_map. f_equal.
    + apply map_ext_in. intros k Hk%in_seq.
      set (p' := (position b + 1) mod size b).
      assert (Hp' : 0 <= p' < size b) by (apply Z.mod_pos_bound; lia).
      replace ((p' - size b + 1 + Z.of_nat k) mod size b)
        with ((position b - size b + 1 + Z.of_nat (S k)) mod size b).
      * apply list_lookup_total_insert_ne.
        intros Heq. apply Z2Nat.inj in Heq; [|lia|apply Z.mod_pos_bound; lia].
        subst p'.
        destruct (Z.eq_dec (position b + 1) (size b)) as [He|He].
        -- rewrite He, Z.mod_same in Heq by lia.
           rewrite Z.mod_small in Heq by lia. lia.
        -- rewrite Z.mod_small in Heq by lia.
           destruct (Z_lt_le_dec (position b - size b + 1 + Z.of_nat (S k)) 0).
           ++ rewrite mod_add_once in Heq by lia. lia.
           ++ rewrite Z.mod_small in Heq by lia. lia.
      * subst p'.
        replace (position b - size b + 1 + Z.of_nat (S k))
          with ((position b + 1) + (Z.of_nat (S k) - size b)) by lia.
        rewrite <- Zplus_mod_idemp_l. f_equal. lia.
    + f_equal. set (p' := (position b + 1) mod size b).
      assert (Hp' : 0 <= p' < size b) by (apply Z.mod_pos_bound; lia).
      replace (p' - size b + 1 + Z.of_nat m) with p' by lia.
      rewrite Z.mod_small by lia.
      apply list_lookup_total_insert_eq. lia.
Qed.

(** After any number of pushes the count is the smaller of the capacity
    and the number of pushes. *)
Lemma count_after_pushes (l : list A) : forall b,
  ring_wf b ->
  count (fold_left ring_buffer_push l b)
  = Z.min (size b) (count b + Z.of_nat (length l)).
Proof.
  induction l as [|x l IH]; intros b Hwf; cbn [fold_left length].
  - destruct Hwf as (_ & _ & Hc & _). lia.
  - rewrite IH by (apply ring_wf_push; exact Hwf).
    rewrite push_size, push_count by exact Hwf.
    destruct Hwf as (_ & _ & Hc & _). lia.
Qed.

Lemma ring_contents_length b :
  length (ring_contents b) = Z.to_nat (count b).
Proof. unfold ring_contents. rewrite length_map, length_seq. reflexivity. Qed.

End RingFacts.

(** ** Retained samples in insertion order *)

Lemma increasing_head l x y j :
  increasing (x :: l) = true -> l !! j = Some y -> x < y.
Proof.
  revert x j. induction l as [|z l IH]; intros x j Hinc Hj; [discriminate|].
  cbn [increasing] in Hinc. apply andb_prop in Hinc as [Hxz Hinc].
  apply Z.ltb_lt in Hxz. destruct j as [|j].
  - injection Hj as <-. exact Hxz.
  - specialize (IH z j Hinc Hj). lia.
Qed.

Lemma increasing_tail x l : increasing (x :: l) = true -> increasing l = true.
Proof.
  destruct l as [|y l]; [reflexivity|]. cbn [increasing].
  intros H. apply andb_prop in H as [_ H]. exact H.
Qed.

Lemma increasing_lookup l : forall i j x y,
  increasing l = true -> (i < j)%nat ->
  l !! i = Some x -> l !! j = Some y -> x < y.
Proof.
  induction l as [|z l IH]; intros i j x y Hinc Hij Hi Hj; [discriminate|].
  destruct j as [|j]; [lia|]. destruct i as [|i].
  - injection Hi as <-. exact (increasing_head l z y j Hinc Hj).
  - apply (IH i j x y); [exact (increasing_tail z l Hinc) | lia | exact Hi | exact Hj].
Qed.

Lemma increasing_within_span l i j x y :
  increasing l = true -> (i < j)%nat ->
  l !! i = Some x -> l !! j = Some y -> 0 < y - x <= span l.
Proof.
  intros Hinc Hij Hi Hj.
  pose proof (increasing_lookup l i j x y Hinc Hij Hi Hj) as Hxy.
  split; [lia|]. unfold span.
  assert (Hlen : (j < length l)%nat) by (apply lookup_lt_Some in Hj; exact Hj).
  destruct l as [|h l'] eqn:Hl; [discriminate|]. rewrite <- Hl in *.
  assert (Hhead : head l = Some h) by (rewrite Hl; reflexivity).
  rewrite Hhead, last_lookup.
  destruct (l !! Nat.pred (length l)) as [t|] eqn:Ht.
  - assert (h <= x).
    { destruct i as [|i]; [rewrite Hl in Hi; injection Hi as <-; lia|].
      assert (l !! 0%nat = Some h) by (rewrite Hl; reflexivity).
      pose proof (increasing_lookup l 0 (S i) h x Hinc ltac:(lia) H Hi). lia. }
    assert (y <= t).
    { destruct (Nat.eq_dec j (Nat.pred (length l))) as [->|Hne].
      - rewrite Hj in Ht. injection Ht as <-. lia.
      - pose proof (increasing_lookup l j (Nat.pred (length l)) y t Hinc
                      ltac:(lia) Hj Ht). lia. }
    lia.
  - apply lookup_ge_None in Ht. lia.
Qed.

Section RingIndex.
Context {A : Type} `{Zeroed A}.

Lemma ring_contents_lookup (b : ring_buffer A) (i : nat) :
  (i < Z.to_nat (count b))%nat ->
  ring_contents b !! i
  = Some (buffer b !!!
            Z.to_nat ((position b - count b + 1 + Z.of_nat i) mod size b)).
Proof.
  intros Hi. unfold ring_contents.
  rewrite list_lookup_fmap, lookup_seq_lt by exact Hi. reflexivity.
Qed.

(** The newest element sits at index [count - 1] of the contents. *)
Lemma get_newest_in_contents (b : ring_buffer A) :
  ring_wf b -> 0 < count b ->
  ring_contents b !! Z.to_nat (count b - 1)
  = Some (ring_buffer_get b (Int.u64 (count b - 1))).
Proof.
  intros Hwf Hc. rewrite ring_contents_lookup by lia.
  unfold ring_buffer_get. rewrite slot_newest by assumption.
  destruct Hwf as (Hs & _ & _ & Hp & _).
  rewrite Z2Nat.id by lia.
  replace (position b - count b + 1 + (count b - 1)) with (position b) by lia.
  rewrite Z.mod_small by lia. reflexivity.
Qed.

(** While the newest element sits right below the count (the ring has
    not wrapped), every index reads the element of that rank. *)
Lemma get_unwrapped (b : ring_buffer A) (i : nat) :
  ring_wf b -> position b = count b - 1 ->
  (i < Z.to_nat (count b))%nat ->
  ring_contents b !! i = Some (ring_buffer_get b (Z.of_nat i)).
Proof.
  intros (Hs & _ & Hc & Hp & _) Hpos Hi.
  rewrite ring_contents_lookup by exact Hi.
  unfold ring_buffer_get, ring_buffer_slot, Int.u64.
  rewrite Zplus_mod_idemp_l, Zplus_mod_idemp_r, Hpos.
  replace (Z.of_nat i + (count b - 1 - count b + 1)) with (Z.of_nat i) by lia.
  replace (count b - 1 - count b + 1 + Z.of_nat i) with (Z.of_nat i) by lia.
  rewrite (Z.mod_small (Z.of_nat i) (2 ^ 64)) by lia.
  reflexivity.
Qed.

(** In a ring of capacity 10, index 0 reads the oldest element as long
    as the ring has not wrapped; once it has, it reads the seventh
    oldest. *)
Lemma get_0_in_contents (b : ring_buffer A) :
  ring_wf b -> size b = 10 -> 2 <= count b ->
  exists i, (i < Z.to_nat (count b - 1))%nat /\
    ring_contents b !! i = Some (ring_buffer_get b 0).
Proof.
  intros (Hs & Hl & Hc & Hp & Hpc) Hsz Hcnt.
  unfold ring_buffer_get, ring_buffer_slot, Int.u64.
  rewrite Z.add_0_l, Z.mod_mod, Zplus_mod_idemp_l by lia.
  rewrite Hsz in *.
  destruct (Z.eq_dec (position b) (count b - 1)) as [Hnew|Hwrapped].
  - exists 0%nat. split; [lia|].
    rewrite ring_contents_lookup by lia. rewrite Hsz, Hnew.
    replace (count b - 1 - count b + 1) with 0 by lia. reflexivity.
  - assert (Hfull : count b = 10).
    { destruct (Z_lt_le_dec (count b) 10) as [Hlt|]; [|lia].
      specialize (Hpc Hlt). destruct (Z.eqb_spec (count b) 0); lia. }
    exists 6%nat. split; [lia|].
    rewrite ring_contents_lookup by lia. rewrite Hsz, Hfull.
    rewrite (mod_add_once (position b - 10 + 1) (2 ^ 64)) by lia.
    do 3 f_equal.
    replace (position b - 10 + 1 + 2 ^ 64)
      with (position b - 10 + 1 + Z.of_nat 6 + 1844674407370955161 * 10)
      by lia.
    symmetry. apply Z_mod_plus_full.
Qed.
End RingIndex.

Lemma lookup_map {A B : Type} (f : A -> B) (l : list A) (i : nat) (x : A) :
  l !! i = Some x -> map f l !! i = Some (f x).
Proof.
  revert i. induction l as [|a l IH]; intros i Hi; [discriminate|].
  destruct i as [|i]; cbn in *.
  - injection Hi as <-. reflexivity.
  - apply IH. exact Hi.
Qed.

(** ** Rounding to binary64 *)

Section RoundingSign.
Variables prec emax : Z.

Lemma shr_1_nonneg mrs : 0 <= shr_m mrs -> 0 <= shr_m (shr_1 mrs).
Proof.
  destruct mrs as [m r s]; simpl. destruct m as [|p|p]; [simpl; lia| |lia].
  intros _. destruct p; simpl; lia.
Qed.

Lemma iter_pos_shr_1_nonneg n : forall mrs,
  0 <= shr_m mrs -> 0 <= shr_m (SpecFloat.iter_pos shr_1 n mrs).
Proof.
  induction n as [n IH|n IH|]; intros mrs Hm; simpl.
  - apply IH, IH, shr_1_nonneg, Hm.
  - apply IH, IH, Hm.
  - apply shr_1_nonneg, Hm.
Qed.

Lemma shr_m_record_of_loc m l : shr_m (shr_record_of_loc m l) = m.
Proof. destruct l as [|[]]; reflexivity. Qed.

Lemma shr_fexp_nonneg m e l :
  0 <= m -> 0 <= shr_m (fst (shr_fexp prec emax m e l)).
Proof.
  intros Hm. unfold shr_fexp, shr.
  destruct (fexp prec emax (Zdigits2 m + e) - e) as [|n|n]; simpl;
    rewrite ?shr_m_record_of_loc; try exact Hm.
  apply iter_pos_shr_1_nonneg. rewrite shr_m_record_of_loc. exact Hm.
Qed.

Lemma round_nearest_even_nonneg m l : 0 <= m -> 0 <= round_nearest_even m l.
Proof.
  intros Hm. destruct l as [|[]]; simpl; try lia.
  destruct (Z.even m); lia.
Qed.

Lemma binary_round_aux_not_nan s m e l :
  0 <= m -> binary_round_aux prec emax s m e l <> S754_nan.
Proof.
  intros Hm. unfold binary_round_aux.
  pose proof (shr_fexp_nonneg m e l Hm) as H1.
  destruct (shr_fexp prec emax m e l) as [mrs' e']; simpl in H1.
  pose proof (shr_fexp_nonneg _ e' loc_Exact
                (round_nearest_even_nonneg _ (loc_of_shr_record mrs') H1)) as H2.
  destruct (shr_fexp prec emax _ e' loc_Exact) as [mrs'' e'']; simpl in H2.
  destruct (shr_m mrs'') as [|p|p]; [discriminate| |lia].
  destruct (e'' <=? emax - prec); discriminate.
Qed.

Lemma binary_normalize_not_nan m e sz :
  binary_normalize prec emax m e sz <> S754_nan.
Proof.
  destruct m as [|p|p]; simpl; [discriminate| |];
    unfold binary_round;
    destruct (shl_align p e _) as [mz ez];
    apply binary_round_aux_not_nan; lia.
Qed.
End RoundingSign.

Lemma div_finite_not_nan x s m e :
  is_nan x = false -> is_nan (div x (S754_finite s m e)) = false.
Proof.
  destruct x as [sx|sx| |sx mx ex]; intros Hx; try discriminate; try reflexivity.
  unfold div, SFdiv.
  destruct (SFdiv_core_binary prec emax (Z.pos mx) ex (Z.pos m) e) as [[mz ez] lz] eqn:Hcore.
  assert (Hmz : 0 <= mz).
  { unfold SFdiv_core_binary in Hcore.
    destruct (Z.div_eucl _ (Z.pos m)) as [q r] eqn:Hqr in Hcore.
    injection Hcore as <- _ _.
    match type of Hqr with Z.div_eucl ?a _ = _ =>
      assert (Ha : 0 <= a);
      [| pose proof (Z_div_mod a (Z.pos m) ltac:(lia)) as Hdm;
         rewrite Hqr in Hdm ] end.
    - destruct (ex - e - _) as [|sh|sh]; try lia.
      apply Z.shiftl_nonneg. lia.
    - nia. }
  pose proof (binary_round_aux_not_nan prec emax (xorb sx s) mz ez lz Hmz) as Hn.
  destruct (binary_round_aux _ _ _ _ _ _); try reflexivity. congruence.
Qed.

Lemma add_finite_not_nan s m e y :
  is_nan y = false -> is_nan (add (S754_finite s m e) y) = false.
Proof.
  destruct y as [sy|sy| |sy my ey]; intros Hy; try discriminate; try reflexivity.
  unfold add, SFadd.
  match goal with |- is_nan (binary_normalize ?p ?q ?a ?b ?c) = false =>
    pose proof (binary_normalize_not_nan p q a b c) as Hn;
    destruct (binary_normalize p q a b c) end; try reflexivity. congruence.
Qed.

Lemma playback_rate_not_nan d : is_nan d = false -> is_nan (playback_rate d) = false.
Proof.
  intros Hd. unfold playback_rate.
  change (of_int 1) with (S754_finite false 4503599627370496 (-52)).
  change (of_int 1000) with (S754_finite false 8796093022208000 (-43)).
  apply add_finite_not_nan. apply div_finite_not_nan, div_finite_not_nan, Hd.
Qed.

(** Number of binary digits. *)
Lemma digits2_pos_bounds p :
  2 ^ (Z.pos (digits2_pos p) - 1) <= Z.pos p < 2 ^ Z.pos (digits2_pos p).
Proof.
  induction p as [p IH|p IH|]; cbn [digits2_pos].
  - rewrite Pos2Z.inj_succ.
    replace (Z.succ (Z.pos (digits2_pos p)) - 1)
      with (Z.succ (Z.pos (digits2_pos p) - 1)) by lia.
    rewrite !Z.pow_succ_r by lia. lia.
  - rewrite Pos2Z.inj_succ.
    replace (Z.succ (Z.pos (digits2_pos p)) - 1)
      with (Z.succ (Z.pos (digits2_pos p) - 1)) by lia.
    rewrite !Z.pow_succ_r by lia. lia.
  - split; reflexivity.
Qed.

Lemma digits2_pos_unique p k :
  2 ^ (k - 1) <= Z.pos p < 2 ^ k -> Z.pos (digits2_pos p) = k.
Proof.
  intros [Hlo Hhi]. pose proof (digits2_pos_bounds p) as [Hlo' Hhi'].
  set (d := Z.pos (digits2_pos p)) in *.
  assert (Hd : 0 < d) by (subst d; lia).
  assert (Hk : 0 < k).
  { destruct (Z_lt_le_dec 0 k) as [|Hk]; [assumption|].
    destruct (Z.eq_dec k 0) as [->|]; [simpl in Hhi; lia|].
    rewrite (Z.pow_neg_r 2 k) in Hhi by lia. lia. }
  destruct (Z_lt_le_dec d k) as [Hlt|Hge].
  - assert (2 ^ d <= 2 ^ (k - 1)) by (apply Z.pow_le_mono_r; lia). lia.
  - destruct (Z_lt_le_dec k d) as [Hlt|Hge'].
    + assert (2 ^ k <= 2 ^ (d - 1)) by (apply Z.pow_le_mono_r; lia). lia.
    + lia.
Qed.

(** Shifting right. *)
Lemma shr_m_shr_1 mrs : 0 <= shr_m mrs -> shr_m (shr_1 mrs) = shr_m mrs / 2.
Proof.
  destruct mrs as [m r s]; cbn [shr_m shr_1]. intros Hm.
  destruct m as [|p|p]; [reflexivity| |lia].
  destruct p as [p|p|]; cbn [shr_m].
  - rewrite Pos2Z.inj_xI.
    apply (Z.div_unique (2 * Z.pos p + 1) 2 (Z.pos p) 1); lia.
  - rewrite Pos2Z.inj_xO.
    apply (Z.div_unique (2 * Z.pos p) 2 (Z.pos p) 0); lia.
  - reflexivity.
Qed.

Lemma div_pow2_twice a j k :
  0 <= j -> 0 <= k -> a / 2 ^ j / 2 ^ k = a / 2 ^ (j + k).
Proof.
  intros Hj Hk. pose proof (Z.pow_pos_nonneg 2 j ltac:(lia) Hj).
  pose proof (Z.pow_pos_nonneg 2 k ltac:(lia) Hk).
  rewrite Z.pow_add_r, Z.div_div by lia. reflexivity.
Qed.

Lemma shr_m_iter_shr_1 n : forall mrs,
  0 <= shr_m mrs ->
  shr_m (SpecFloat.iter_pos shr_1 n mrs) = shr_m mrs / 2 ^ Z.pos n.
Proof.
  assert (Hnn : forall a k, 0 <= a -> 0 <= a / 2 ^ Z.pos k).
  { intros a k Ha. apply Z.div_pos; [exact Ha|].
    apply Z.pow_pos_nonneg; lia. }
  induction n as [n IH|n IH|]; intros mrs Hm; cbn [SpecFloat.iter_pos].
  - assert (H1 : 0 <= shr_m (shr_1 mrs))
      by (rewrite shr_m_shr_1 by exact Hm; apply Z.div_pos; lia).
    assert (H2 : 0 <= shr_m (SpecFloat.iter_pos shr_1 n (shr_1 mrs)))
      by (rewrite IH by exact H1; apply Hnn, H1).
    rewrite (IH _ H2), (IH _ H1), shr_m_shr_1 by exact Hm.
    change 2 with (2 ^ 1) at 1.
    rewrite !div_pow2_twice by lia. f_equal. f_equal. lia.
  - assert (H1 : 0 <= shr_m (SpecFloat.iter_pos shr_1 n mrs))
      by (rewrite IH by exact Hm; apply Hnn, Hm).
    rewrite (IH _ H1), (IH _ Hm).
    rewrite div_pow2_twice by lia. f_equal. f_equal. lia.
  - rewrite shr_m_shr_1 by exact Hm. rewrite Z.pow_1_r. reflexivity.
Qed.

Lemma Zdigits2_ge_53 p : 2 ^ 52 <= Z.pos p -> 53 <= Z.pos (digits2_pos p).
Proof.
  intros Hp. pose proof (digits2_pos_bounds p) as [_ Hhi].
  destruct (Z_lt_le_dec (Z.pos (digits2_pos p)) 53) as [Hlt|]; [|assumption].
  assert (2 ^ Z.pos (digits2_pos p) <= 2 ^ 52) by (apply Z.pow_le_mono_r; lia).
  lia.
Qed.

(** What the first alignment of [binary_round_aux] does to a mantissa of
    at least 53 bits whose exponent is far from the subnormal range. *)
Lemma shr_fexp_spec p e l :
  53 <= Z.pos (digits2_pos p) ->
  - 1021 <= Z.pos (digits2_pos p) + e ->
  let n := Z.pos (digits2_pos p) - 53 in
  shr_m (fst (shr_fexp prec emax (Z.pos p) e l)) = Z.pos p / 2 ^ n /\
  snd (shr_fexp prec emax (Z.pos p) e l) = e + n.
Proof.
  intros Hd He n. unfold shr_fexp, shr.
  assert (Hn : fexp prec emax (Zdigits2 (Z.pos p) + e) - e = n).
  { unfold fexp, SpecFloat.emin, prec, emax, Zdigits2. subst n. lia. }
  rewrite Hn. destruct n as [|k|k] eqn:Hk; cbn [fst snd].
  - rewrite shr_m_record_of_loc, Z.pow_0_r, Z.div_1_r. split; [reflexivity|lia].
  - rewrite shr_m_iter_shr_1 by (rewrite shr_m_record_of_loc; lia).
    rewrite shr_m_record_of_loc. split; reflexivity.
  - lia.
Qed.

Lemma round_nearest_even_bounds m l :
  m <= round_nearest_even m l <= m + 1.
Proof.
  destruct l as [|[]]; cbn [round_nearest_even]; try lia.
  destruct (Z.even m); lia.
Qed.

Lemma shifted_mantissa_bounds p :
  53 <= Z.pos (digits2_pos p) ->
  2 ^ 52 <= Z.pos p / 2 ^ (Z.pos (digits2_pos p) - 53) < 2 ^ 53.
Proof.
  intros Hd. pose proof (digits2_pos_bounds p) as [Hlo Hhi].
  set (d := Z.pos (digits2_pos p)) in *.
  assert (Hpow : 0 < 2 ^ (d - 53)) by (apply Z.pow_pos_nonneg; lia).
  split.
  - apply Z.div_le_lower_bound; [exact Hpow|].
    rewrite <- Z.pow_add_r by lia.
    replace (d - 53 + 52) with (d - 1) by lia. exact Hlo.
  - apply Z.div_lt_upper_bound; [exact Hpow|].
    rewrite <- Z.pow_add_r by lia.
    replace (d - 53 + 53) with d by lia. exact Hhi.
Qed.

(** Rounding a mantissa of at least 53 bits, away from overflow and
    underflow, gives a normal number of the same sign. *)
Lemma binary_round_aux_normal s p e l :
  2 ^ 52 <= Z.pos p ->
  - 1021 <= Z.pos (digits2_pos p) + e <= 1000 ->
  exists m' e',
    binary_round_aux prec emax s (Z.pos p) e l = S754_finite s m' e' /\
    Z.pos (digits2_pos m') = 53 /\
    e + (Z.pos (digits2_pos p) - 53) <= e' <= e + (Z.pos (digits2_pos p) - 53) + 1.
Proof.
  intros Hp He. pose proof (Zdigits2_ge_53 p Hp) as Hd.
  pose proof (shr_fexp_spec p e l Hd ltac:(lia)) as [Hm1 He1].
  pose proof (shifted_mantissa_bounds p Hd) as Hb1.
  unfold binary_round_aux.
  destruct (shr_fexp prec emax (Z.pos p) e l) as [mrs1 e1].
  cbn [fst snd] in Hm1, He1. rewrite <- Hm1 in Hb1.
  pose proof (round_nearest_even_bounds (shr_m mrs1) (loc_of_shr_record mrs1))
    as Hb2.
  destruct (round_nearest_even (shr_m mrs1) (loc_of_shr_record mrs1))
    as [|p2|p2]; try lia.
  destruct (Z.eq_dec (Z.pos p2) (2 ^ 53)) as [Htop|Htop].
  - (* the rounding carried into a 54th bit *)
    assert (Hd2 : Z.pos (digits2_pos p2) = 54)
      by (apply digits2_pos_unique; rewrite Htop; split; [reflexivity|lia]).
    pose proof (shr_fexp_spec p2 e1 loc_Exact ltac:(lia) ltac:(lia))
      as [Hm2 He2].
    destruct (shr_fexp prec emax (Z.pos p2) e1 loc_Exact) as [mrs2 e2].
    cbn [fst snd] in Hm2, He2. rewrite Hd2, Htop in Hm2.
    change (2 ^ 53 / 2 ^ (54 - 53)) with (Z.pos 4503599627370496) in Hm2.
    rewrite Hm2.
    destruct (Z.leb_spec e2 (emax - prec)) as [_|Hbig];
      [|unfold emax, prec in Hbig; lia].
    exists 4503599627370496%positive, e2. split; [reflexivity|].
    split; [reflexivity | lia].
  - assert (Hd2 : Z.pos (digits2_pos p2) = 53)
      by (apply digits2_pos_unique; lia).
    pose proof (shr_fexp_spec p2 e1 loc_Exact ltac:(lia) ltac:(lia))
      as [Hm2 He2].
    destruct (shr_fexp prec emax (Z.pos p2) e1 loc_Exact) as [mrs2 e2].
    cbn [fst snd] in Hm2, He2. rewrite Hd2 in Hm2.
    change (2 ^ (53 - 53)) with 1 in Hm2. rewrite Z.div_1_r in Hm2.
    rewrite Hm2.
    destruct (Z.leb_spec e2 (emax - prec)) as [_|Hbig];
      [|unfold emax, prec in Hbig; lia].
    exists p2, e2. split; [reflexivity|]. split; [exact Hd2 | lia].
Qed.

Lemma iter_xO_value p k : Z.pos (Pos.iter xO p k) = Z.pos p * 2 ^ Z.pos k.
Proof.
  induction k as [|k IH] using Pos.peano_ind.
  - rewrite Z.pow_1_r. cbn [Pos.iter]. lia.
  - rewrite Pos.iter_succ, Pos2Z.inj_xO, IH, Pos2Z.inj_succ, Z.pow_succ_r by lia.
    lia.
Qed.

(** A nonzero [int64_t] converts to a normal double of the same sign. *)
Lemma of_int_nonzero_normal z :
  z <> 0 -> Int.min_s64 <= z <= Int.max_s64 ->
  exists m e,
    of_int z = S754_finite (z <? 0) m e /\
    Z.pos (digits2_pos m) = 53 /\ - 53 <= e <= 12.
Proof.
  unfold Int.min_s64, Int.max_s64. intros Hz Hr.
  assert (Hgen : forall s p, Z.pos p <= 2 ^ 63 ->
            exists m e, binary_round prec emax s p 0 = S754_finite s m e /\
              Z.pos (digits2_pos m) = 53 /\ - 53 <= e <= 12).
  { clear z Hz Hr. intros s p Hp.
    pose proof (digits2_pos_bounds p) as [Hlo Hhi].
    set (d := Z.pos (digits2_pos p)) in *.
    assert (Hd : 1 <= d <= 64).
    { split; [subst d; lia|].
      destruct (Z_lt_le_dec 64 d) as [Hbig|]; [|assumption].
      assert (2 ^ 64 <= 2 ^ (d - 1)) by (apply Z.pow_le_mono_r; lia). lia. }
    unfold binary_round.
    assert (Hfexp : fexp prec emax (Z.pos (digits2_pos p) + 0) = d - 53)
      by (unfold fexp, SpecFloat.emin, prec, emax; fold d; lia).
    rewrite Hfexp. unfold shl_align.
    destruct (d - 53 - 0) as [|k|k] eqn:Hk.
    - destruct (binary_round_aux_normal s p 0 loc_Exact)
        as (m & e & Hres & Hm & He).
      + replace (d - 1) with 52 in Hlo by lia. exact Hlo.
      + fold d. lia.
      + exists m, e. fold d in He. repeat split; try assumption; lia.
    - destruct (binary_round_aux_normal s p 0 loc_Exact)
        as (m & e & Hres & Hm & He).
      + assert (2 ^ 52 <= 2 ^ (d - 1)) by (apply Z.pow_le_mono_r; lia). lia.
      + fold d. lia.
      + exists m, e. fold d in He. repeat split; try assumption; lia.
    - pose proof (iter_xO_value p k) as Hv.
      assert (Hdk : Z.pos k = 53 - d) by lia.
      assert (Hlo' : 2 ^ 52 <= Z.pos (Pos.iter xO p k)).
      { rewrite Hv, Hdk.
        replace 52 with ((d - 1) + (53 - d)) by lia.
        rewrite Z.pow_add_r by lia.
        apply Z.mul_le_mono_nonneg_r; [apply Z.pow_nonneg; lia | exact Hlo]. }
      assert (Hdig : Z.pos (digits2_pos (Pos.iter xO p k)) = 53).
      { apply digits2_pos_unique. split; [exact Hlo'|].
        rewrite Hv, Hdk.
        replace 53 with (d + (53 - d)) at 2 by lia.
        rewrite Z.pow_add_r by lia.
        apply Z.mul_lt_mono_pos_r; [apply Z.pow_pos_nonneg; lia | exact Hhi]. }
      destruct (binary_round_aux_normal s (Pos.iter xO p k) (d - 53) loc_Exact)
        as (m & e & Hres & Hm & He).
      + exact Hlo'.
      + rewrite Hdig. lia.
      + exists m, e. rewrite Hdig in He. repeat split; try assumption; lia. }
  destruct z as [|p|p]; [lia| |].
  - apply (Hgen false p). lia.
  - apply (Hgen true p). lia.
Qed.

(** The quotient of two normal doubles of moderate exponent is a normal
    double whose sign is the product of the signs. *)
Lemma div_normal s1 m1 e1 s2 m2 e2 :
  Z.pos (digits2_pos m1) = 53 -> Z.pos (digits2_pos m2) = 53 ->
  - 100 <= e1 <= 100 -> - 100 <= e2 <= 100 ->
  exists m e,
    div (S754_finite s1 m1 e1) (S754_finite s2 m2 e2)
    = S754_finite (xorb s1 s2) m e.
Proof.
  intros Hd1 Hd2 He1 He2.
  pose proof (digits2_pos_bounds m1) as [Hlo1 Hhi1].
  pose proof (digits2_pos_bounds m2) as [Hlo2 Hhi2].
  rewrite Hd1 in Hlo1, Hhi1. rewrite Hd2 in Hlo2, Hhi2.
  change (2 ^ (53 - 1)) with (2 ^ 52) in *.
  unfold div, SFdiv, SFdiv_core_binary, Zdigits2. rewrite Hd1, Hd2.
  assert (Hexp : Z.min (fexp prec emax (53 + e1 - (53 + e2))) (e1 - e2)
                 = e1 - e2 - 53)
    by (unfold fexp, SpecFloat.emin, prec, emax; lia).
  rewrite Hexp.
  replace (e1 - e2 - (e1 - e2 - 53)) with 53 by lia.
  rewrite Z.shiftl_mul_pow2 by lia.
  pose proof (Z_div_mod (Z.pos m1 * 2 ^ 53) (Z.pos m2) ltac:(lia)) as Hdm.
  destruct (Z.div_eucl (Z.pos m1 * 2 ^ 53) (Z.pos m2)) as [q r].
  destruct Hdm as [Hq Hr].
  assert (Hqlo : 2 ^ 52 <= q) by nia.
  assert (Hqhi : q < 2 ^ 106) by nia.
  destruct q as [|pq|pq]; try lia.
  assert (Hdq : Z.pos (digits2_pos pq) <= 106).
  { pose proof (digits2_pos_bounds pq) as [Hlo _].
    destruct (Z_lt_le_dec 106 (Z.pos (digits2_pos pq))) as [Hbig|]; [|lia].
    assert (2 ^ 106 <= 2 ^ (Z.pos (digits2_pos pq) - 1))
      by (apply Z.pow_le_mono_r; lia). lia. }
  destruct (binary_round_aux_normal (xorb s1 s2) pq (e1 - e2 - 53)
              (new_location (Z.pos m2) r)) as (m & e & Hres & _ & _).
  - exact Hqlo.
  - pose proof (Zdigits2_ge_53 pq Hqlo). lia.
  - exists m, e. exact Hres.
Qed.

(** ** Comparing doubles *)

Lemma SFcompare_antisym x y c :
  SFcompare x y = Some c -> SFcompare y x = Some (CompOpp c).
Proof.
  destruct x as [sx|sx| |sx mx ex], y as [sy|sy| |sy my ey]; simpl;
    try discriminate; try (intros [= <-]; try destruct sx; try destruct sy; reflexivity).
  intros [= <-]. f_equal.
  pose proof (Pos.compare_cont_antisym mx my Eq) as Hm; simpl in Hm.
  destruct sx, sy; try reflexivity;
    rewrite (Z.compare_antisym ex ey), <- Hm;
    destruct (ex ?= ey); simpl; try reflexivity;
    destruct (Pos.compare_cont Eq mx my); reflexivity.
Qed.

Lemma SFcompare_not_nan x y :
  is_nan x = false -> is_nan y = false -> exists c, SFcompare x y = Some c.
Proof.
  destruct x, y; simpl; try discriminate; intros _ _; eexists; reflexivity.
Qed.

Lemma not_gtb_leb x y :
  is_nan x = false -> is_nan y = false -> gtb x y = false -> leb x y = true.
Proof.
  intros Hx Hy. destruct (SFcompare_not_nan x y Hx Hy) as [c Hc].
  unfold gtb, leb, SFleb. rewrite Hc. destruct c; congruence.
Qed.

Lemma not_ltb_leb x y :
  is_nan x = false -> is_nan y = false -> ltb x y = false -> leb y x = true.
Proof.
  intros Hx Hy. destruct (SFcompare_not_nan x y Hx Hy) as [c Hc].
  unfold ltb, SFltb, leb, SFleb. rewrite Hc, (SFcompare_antisym x y c Hc).
  destruct c; simpl; congruence.
Qed.

(** Above 2 is not below 0.5. *)
Lemma gtb_two_not_ltb_half x : gtb x (of_int 2) = true -> ltb x half = false.
Proof.
  change (of_int 2) with (S754_finite false 4503599627370496 (-51)).
  unfold gtb, ltb, SFltb, half.
  destruct x as [sx|sx| |sx mx ex];
    cbv beta iota delta [SFcompare]; try discriminate;
    try (destruct sx; congruence).
  destruct sx; [discriminate|].
  destruct (Z.compare_spec ex (-51)) as [H1|H1|H1];
    destruct (Z.compare_spec ex (-53)) as [H2|H2|H2];
    try lia; congruence.
Qed.

Lemma clamp_as_coded rate :
  (if gtb rate (of_int 2) then of_int 2 else if ltb rate half then half else rate)
  = Spec.clamp rate half (of_int 2).
Proof.
  unfold Spec.clamp.
  destruct (gtb rate (of_int 2)) eqn:Hg.
  - rewrite (gtb_two_not_ltb_half rate Hg). reflexivity.
  - reflexivity.
Qed.

Lemma fabs_cond_ltb x :
  ltb (fabs_cond x) (of_int 5000) = ltb (SFabs x) (of_int 5000).
Proof.
  unfold fabs_cond, ltb, SFltb.
  destruct x as [[]|[]| |[] m e]; reflexivity.
Qed.

(** ** Reachable states keep the rings in shape *)

Ltac sync_simpl :=
  cbn [maxSamples roundTripTimes sortedRoundTripTimes samples clockRate
       offsets averageOffset accuracySamples stats interval scale
       measureAccuracy set_roundTripTimes set_sortedRoundTripTimes
       set_samples set_clockRate set_offsets set_averageOffset
       set_accuracySamples set_stats count_received count_rejected
       count_sent fst snd] in *.

Ltac inv_split :=
  unfold sync_inv; sync_simpl; repeat match goal with |- _ /\ _ => split end.

Lemma wf10_push {A} `{Zeroed A} (b : ring_buffer A) x :
  ring_wf b /\ size b = 10 ->
  ring_wf (ring_buffer_push b x) /\ size (ring_buffer_push b x) = 10.
Proof. intros [Hwf Hs]. split; [apply ring_wf_push; exact Hwf | exact Hs]. Qed.

Lemma sample_in_range_zeroed : sample_in_range zeroed.
Proof. unfold sample_in_range, Int.min_s64, Int.max_s64. cbn. lia. Qed.

Lemma sample_in_range_s64 a b : sample_in_range (Sample (Int.s64 a) (Int.s64 b)).
Proof. split; apply s64_range. Qed.

Lemma sync_inv_create scale interval measure :
  sync_inv (DRIFTsync_create scale interval measure).
Proof.
  unfold DRIFTsync_create. inv_split;
    try (apply ring_wf_init; lia); try reflexivity.
  apply Forall_replicate, sample_in_range_zeroed.
Qed.

Lemma sync_inv_median s : sync_inv s -> sync_inv (fst (medianRoundTripTime s)).
Proof.
  intros Hinv. unfold medianRoundTripTime, ring_buffer_median. exact Hinv.
Qed.

Lemma sync_inv_ingest s now packet :
  sync_inv s -> sync_inv (fst (ingest s now packet)).
Proof.
  intros (Hr & Hso & Hsa & Ho & Ha & Hz & Hrange).
  assert (Hcount : forall x,
            count (ring_buffer_push (roundTripTimes s) x) = 0 -> False).
  { intros x Hc. rewrite push_count in Hc by tauto.
    destruct Hr as [(? & ? & ? & ?) ?]. lia. }
  unfold ingest, medianRoundTripTime, ring_buffer_median; sync_simpl.
  match goal with |- context [10000 <? ?d] => destruct (10000 <? d) end.
  - inv_split; try tauto; try (apply wf10_push; tauto).
    intros Hc. destruct (Hcount _ Hc).
  - unfold update_averageOffset, update_clockRate; sync_simpl.
    match goal with |- context [2 <=? ?c] => destruct (2 <=? c) end;
      inv_split; try tauto; try (apply wf10_push; tauto);
      try (intros Hc; destruct (Hcount _ Hc));
      (apply Forall_insert; [exact Hrange | apply sample_in_range_s64]).
Qed.

Lemma reachable_inv s : reachable s -> sync_inv s.
Proof.
  induction 1 as [scale interval measure | s now result _ IH
                 | s result packet clk _ IH | s _ IH | s _ IH].
  - apply sync_inv_create.
  - unfold request_iteration.
    destruct (result <? 0); [exact IH|].
    destruct (negb (result =? sizeof_packet)); exact IH.
  - unfold receive_iteration.
    destruct (negb (valid_reply result packet)); [exact IH|].
    pose proof (sync_inv_ingest s (rc_now clk) packet IH) as Hi.
    destruct (ingest s (rc_now clk) packet) as [s' accepted]; simpl in Hi.
    destruct (negb accepted); [exact Hi|].
    destruct (negb (measureAccuracy s =? 0) && (1 <? count (samples s')));
      [|exact Hi].
    destruct Hi as (Hr & Hso & Hsa & Ho & Ha & Hz).
    inv_split; try tauto; apply wf10_push; tauto.
  - unfold DRIFTsync_medianRoundTripTime.
    pose proof (sync_inv_median s IH) as Hm.
    destruct (medianRoundTripTime s) as [s' m]. exact Hm.
  - destruct IH as (Hr & Hso & Hsa & Ho & Ha & Hz).
    inv_split; try tauto. apply ring_wf_clear; tauto.
Qed.

Lemma receive_loop_reachable env :
  forall sync, reachable sync -> reachable (receive_loop sync env).
Proof.
  induction env as [|e env IH]; intros sync Hs; simpl.
  - exact Hs.
  - apply IH. apply reach_receive. exact Hs.
Qed.

Lemma fresh_reachable : reachable Run.fresh.
Proof. apply reach_create. Qed.

(** ** Estimator: [globalTime] *)

(** C1 (as amended).  In every client state whose samples ring holds no
    sample, [globalTime] returns 0, whatever the clock reads. *)
Theorem globalTime_no_sample (sync : DRIFTsync) (now : Z) :
  count (samples sync) = 0 -> globalTime sync now = 0.
Proof.
  intros Hc. unfold globalTime. rewrite Hc. reflexivity.
Qed.

Lemma globalTime_no_sample_fresh :
  count (samples Run.fresh) = 0 /\ globalTime Run.fresh 2000000 = 0.
Proof.
  split; [reflexivity | apply (globalTime_no_sample Run.fresh 2000000)].
  reflexivity.
Defined.

(** C1 (counterexample).  After the first accepted reply the samples ring
    holds one sample, fewer than 2, and [globalTime] already projects the
    clock instead of returning 0. *)
Lemma globalTime_one_sample_nonzero :
  reachable Run.first_reply /\
  count (samples Run.first_reply) < 2 /\
  globalTime Run.first_reply 2000000 = 2001000 /\
  globalTime Run.first_reply 2000000 <> 0.
Proof.
  split; [apply receive_loop_reachable, fresh_reachable|].
  vm_compute. repeat split; congruence.
Qed.

(** ** Median of the round-trip ring *)

(** Taking the median only writes the scratch ring: the live round-trip
    ring keeps its storage, count and position. *)
Lemma medianRoundTripTime_preserves_ring (sync : DRIFTsync) :
  roundTripTimes (fst (medianRoundTripTime sync)) = roundTripTimes sync.
Proof. reflexivity. Qed.

(** While the ring has not wrapped, the element read is the one at index
    [count / 2] of the sorted storage. *)
Lemma ring_buffer_median_unwrapped {A : Type} `{Zeroed A} (b : ring_buffer A)
    (compar : A -> A -> Z) :
  ring_wf b -> position b = count b - 1 -> 0 < count b ->
  snd (ring_buffer_median b compar)
  = qsort (buffer b) (count b) compar !!! Z.to_nat (count b / 2).
Proof.
  intros (Hs & _ & Hc & Hp & _) Hpos Hcount.
  unfold ring_buffer_median, ring_buffer_get, ring_buffer_slot, Int.u64.
  cbn [snd buffer size count position].
  rewrite Zplus_mod_idemp_l, Zplus_mod_idemp_r, Hpos.
  replace (count b / 2 + (count b - 1 - count b + 1)) with (count b / 2)
    by lia.
  assert (Hhalf : 0 <= count b / 2 < count b).
  { split; [apply Z.div_pos; lia | apply Z.div_lt_upper_bound; lia]. }
  rewrite (Z.mod_small (count b / 2) (2 ^ 64)) by lia.
  rewrite Z.mod_small by lia. reflexivity.
Qed.

(** C2 (the code departs from the claim).  After eleven accepted replies
    with round trips of 100, 200, ..., 1100 microseconds the ring is full
    and holds 200 .. 1100; their sorted copy has 700 at index [count/2],
    yet [medianRoundTripTime] returns 400: it reads the sorted storage
    through [ring_buffer_get], whose index is offset by the ring's
    position.  The live ring is left as it was. *)
Theorem medianRoundTripTime_full_ring_off_median :
  let sync := Run.eleven_replies in
  reachable sync /\
  ring_contents (roundTripTimes sync)
    = [200; 300; 400; 500; 600; 700; 800; 900; 1000; 1100] /\
  Spec.sorted_copy (roundTripTimes sync)
    = [200; 300; 400; 500; 600; 700; 800; 900; 1000; 1100] /\
  count (roundTripTimes sync) / 2 = 5 /\
  Spec.median (roundTripTimes sync) = 700 /\
  snd (medianRoundTripTime sync) = 400 /\
  roundTripTimes (fst (medianRoundTripTime sync)) = roundTripTimes sync.
Proof.
  split; [apply receive_loop_reachable, fresh_reachable|].
  vm_compute. repeat split; reflexivity.
Qed.

(** ** Outlier rejection *)

(** The test [ingest] makes and what a rejection changes, for every
    reply that reaches the critical section of [receive_loop] in a
    reachable state.  Here [median_rtt] is the value
    [medianRoundTripTime] returns, whatever element that is: the round
    trip is pushed first and the value is taken from the ring that
    already holds it; the sample is rejected exactly when the deviation
    from that value, as the program computes it in [int64_t], exceeds
    10000 (so a deviation of exactly 10000 is accepted), and that
    deviation is the mathematical absolute difference whenever the
    latter fits in [int64_t]; on rejection the rejected counter goes up
    by one while the samples ring, the offsets ring, the average offset
    and the clock rate stay as they were; in both cases the round trip
    stays in its ring, readable at index [count - 1]. *)
Lemma ingest_rejects_beyond_10000 (sync : DRIFTsync) (now : Z)
    (packet : driftsync_packet) :
  reachable sync ->
  let rtt := Int.s64 (Int.u64 (now - pk_local packet)) in
  let pushed := ring_buffer_push (roundTripTimes sync) rtt in
  let median_rtt :=
    snd (medianRoundTripTime (set_roundTripTimes (count_received sync) pushed)) in
  let deviation := Int.abs64 (Int.s64 (rtt - median_rtt)) in
  let sync' := fst (ingest sync now packet) in
  let accepted := snd (ingest sync now packet) in
  (accepted = false <-> 10000 < deviation) /\
  (Int.min_s64 < rtt - median_rtt <= Int.max_s64 ->
   deviation = Z.abs (rtt - median_rtt)) /\
  roundTripTimes sync' = pushed /\
  ring_buffer_get (roundTripTimes sync')
    (Int.u64 (count (roundTripTimes sync') - 1)) = rtt /\
  (accepted = false ->
   rejectedSamples (stats sync') = Int.s32 (rejectedSamples (stats sync) + 1) /\
   receivedSamples (stats sync') = Int.s32 (receivedSamples (stats sync) + 1) /\
   samples sync' = samples sync /\
   offsets sync' = offsets sync /\
   averageOffset sync' = averageOffset sync /\
   clockRate sync' = clockRate sync) /\
  (accepted = true ->
   rejectedSamples (stats sync') = rejectedSamples (stats sync) /\
   samples sync' =
     ring_buffer_push (samples sync)
       (Sample (Int.s64 (pk_local packet)) (Int.s64 (pk_remote packet)))).
Proof.
  intros Hreach. cbv zeta.
  pose proof (reachable_inv sync Hreach) as ((Hwf & _) & _).
  set (rtt := Int.s64 (Int.u64 (now - pk_local packet))).
  pose proof (get_push_newest (roundTripTimes sync) rtt Hwf) as Hnew.
  unfold ingest. fold rtt. sync_simpl.
  destruct (medianRoundTripTime _) as [s1 median_rtt] eqn:Hmed.
  unfold medianRoundTripTime, ring_buffer_median in Hmed.
  injection Hmed as Hs1 _. subst s1. cbn [fst snd].
  pose proof (abs64_exact (rtt - median_rtt)) as Habs.
  destruct (Z.ltb_spec 10000 (Int.abs64 (Int.s64 (rtt - median_rtt))))
    as [Hdev|Hdev].
  - sync_simpl. repeat split; try reflexivity; try assumption; try lia.
  - unfold update_averageOffset, update_clockRate.
    destruct (2 <=? _); sync_simpl;
      repeat split; try reflexivity; try assumption; try lia; discriminate.
Qed.

(** A datagram that passes the checks of [receive_loop] goes through
    [ingest]; what follows the critical section only touches the accuracy
    ring. *)
Lemma receive_iteration_valid (sync : DRIFTsync) (result : Z)
    (packet : driftsync_packet) (clk : receive_clock) :
  valid_reply result packet = true ->
  let sync' := receive_iteration sync result packet clk in
  let ingested := fst (ingest sync (rc_now clk) packet) in
  roundTripTimes sync' = roundTripTimes ingested /\
  samples sync' = samples ingested /\
  offsets sync' = offsets ingested /\
  averageOffset sync' = averageOffset ingested /\
  clockRate sync' = clockRate ingested /\
  stats sync' = stats ingested.
Proof.
  intros Hvalid. cbv zeta. unfold receive_iteration. rewrite Hvalid.
  cbn [negb]. destruct (ingest sync (rc_now clk) packet) as [s1 accepted].
  cbn [fst]. destruct accepted; cbn [negb].
  - destruct (negb (measureAccuracy sync =? 0) && (1 <? count (samples s1)));
      sync_simpl; repeat split; reflexivity.
  - repeat split; reflexivity.
Qed.

(** C3 (the code departs from the claim).  After ten replies with round
    trips of 100 (four times) and then 20000 (six times) microseconds, an
    eleventh reply with a round trip of 20000 leaves the round-trip ring
    holding 100 three times and 20000 seven times.  The median of that
    ring, index [count / 2] of its sorted contents, is 20000, so the
    reply deviates from the median by 0; yet [ingest] rejects it and
    counts the rejection, leaving the samples ring as it was.
    [medianRoundTripTime] returned 100: [ring_buffer_median] read slot 2
    of the sorted storage through [ring_buffer_get], whose offset wraps
    around [2 ^ 64]. *)
Theorem ingest_rejects_reply_at_median :
  let sync := Run.ten_round_trips in
  let now := 11000000 + 20000 in
  let packet := reply 11000000 11001000 in
  let rtt := Int.s64 (Int.u64 (now - pk_local packet)) in
  let pushed := ring_buffer_push (roundTripTimes sync) rtt in
  reachable sync /\
  rtt = 20000 /\
  ring_contents pushed
    = [100; 100; 100; 20000; 20000; 20000; 20000; 20000; 20000; 20000] /\
  Spec.median pushed = 20000 /\
  Z.abs (rtt - Spec.median pushed) = 0 /\
  snd (medianRoundTripTime (set_roundTripTimes (count_received sync) pushed))
    = 100 /\
  snd (ingest sync now packet) = false /\
  rejectedSamples (stats (fst (ingest sync now packet)))
    = rejectedSamples (stats sync) + 1 /\
  samples (fst (ingest sync now packet)) = samples sync.
Proof.
  split; [apply receive_loop_reachable, fresh_reachable|].
  vm_compute. repeat split; reflexivity.
Qed.

(** The threshold is strict: after round trips of 100 and 100, a third of
    10100 (10000 from the median) is accepted and one of 10101 is
    rejected and counted. *)
Lemma deviation_10000_accepted_10001_rejected :
  snd (Run.third_round_trip 10100) = true /\
  snd (Run.third_round_trip 10101) = false /\
  rejectedSamples (stats (fst (Run.third_round_trip 10101))) = 1 /\
  ring_contents (roundTripTimes (fst (Run.third_round_trip 10101)))
  = [100; 100; 10101].
Proof. vm_compute. repeat split; reflexivity. Qed.

(** ** Clock rate *)

(** Whatever index is read, the slot lies inside the storage. *)
Lemma get_in_buffer {A : Type} `{Zeroed A} (P : A -> Prop) (b : ring_buffer A)
    (i : Z) :
  ring_wf b -> Forall P (buffer b) -> P (ring_buffer_get b i).
Proof.
  intros (Hs & Hl & _) HP. unfold ring_buffer_get.
  apply Forall_lookup_total_1; [exact HP|].
  rewrite Hl. unfold ring_buffer_slot.
  pose proof (Z.mod_pos_bound
                (Int.u64 (i + Int.u64 (Int.u64 (position b - count b) + 1)))
                (size b) ltac:(lia)).
  lia.
Qed.

(** The ratio of two nonzero [int64_t] differences is a normal double:
    finite and not zero. *)
Lemma clock_rate_of_finite first last :
  Int.s64 (remote last - remote first) <> 0 ->
  Int.s64 (local last - local first) <> 0 ->
  exists s m e, clock_rate_of first last = S754_finite s m e.
Proof.
  intros Hr Hl. unfold clock_rate_of.
  destruct (of_int_nonzero_normal _ Hr (s64_range _))
    as (m1 & e1 & -> & Hd1 & He1).
  destruct (of_int_nonzero_normal _ Hl (s64_range _))
    as (m2 & e2 & -> & Hd2 & He2).
  destruct (div_normal (Int.s64 (remote last - remote first) <? 0) m1 e1
              (Int.s64 (local last - local first) <? 0) m2 e2)
    as (m & e & Hres); try assumption; try lia.
  rewrite Hres. eauto.
Qed.

(** The ratio of two positive differences that fit in [int64_t] is a
    positive normal double. *)
Lemma clock_rate_of_positive first last :
  0 < remote last - remote first <= Int.max_s64 ->
  0 < local last - local first <= Int.max_s64 ->
  exists m e, clock_rate_of first last = S754_finite false m e.
Proof.
  unfold Int.max_s64. intros Hr Hl. unfold clock_rate_of.
  rewrite !s64_small by (unfold Int.min_s64, Int.max_s64; lia).
  destruct (of_int_nonzero_normal (remote last - remote first))
    as (m1 & e1 & -> & Hd1 & He1);
    [lia | unfold Int.min_s64, Int.max_s64; lia |].
  destruct (of_int_nonzero_normal (local last - local first))
    as (m2 & e2 & -> & Hd2 & He2);
    [lia | unfold Int.min_s64, Int.max_s64; lia |].
  destruct (Z.ltb_spec (remote last - remote first) 0); [lia|].
  destruct (Z.ltb_spec (local last - local first) 0); [lia|].
  apply (div_normal false m1 e1 false m2 e2); try assumption; lia.
Qed.

Lemma ingest_clockRate sync now packet :
  snd (ingest sync now packet) = true ->
  let sync' := fst (ingest sync now packet) in
  2 <= count (samples sync') ->
  clockRate sync'
  = clock_rate_of (ring_buffer_get (samples sync') 0)
      (ring_buffer_get (samples sync') (Int.u64 (count (samples sync') - 1))).
Proof.
  cbv zeta. unfold ingest.
  destruct (medianRoundTripTime _) as [s1 median].
  destruct (10000 <? _); [discriminate|]. intros _.
  unfold update_averageOffset, update_clockRate. sync_simpl.
  destruct (Z.leb_spec 2 (count (ring_buffer_push (samples s1)
                (Sample (Int.s64 (pk_local packet))
                        (Int.s64 (pk_remote packet))))));
    sync_simpl; [reflexivity | lia].
Qed.

(** C4 (as amended).  When a sample is accepted in a reachable state and
    the samples ring then holds at least two samples whose local and
    remote timestamps are strictly increasing in insertion order, the
    recomputed clock rate is the quotient of two nonzero differences: its
    denominator is not zero, and it is finite and not zero; it is
    strictly positive when, in addition, the newest-minus-oldest span of
    either timestamp fits in [int64_t]. *)
Theorem clockRate_positive_finite (sync : DRIFTsync) (now : Z)
    (packet : driftsync_packet) :
  reachable sync ->
  snd (ingest sync now packet) = true ->
  let sync' := fst (ingest sync now packet) in
  let held := ring_contents (samples sync') in
  2 <= count (samples sync') ->
  increasing (map local held) = true ->
  increasing (map remote held) = true ->
  let first := ring_buffer_get (samples sync') 0 in
  let last := ring_buffer_get (samples sync')
                (Int.u64 (count (samples sync') - 1)) in
  clockRate sync' = clock_rate_of first last /\
  Int.s64 (local last - local first) <> 0 /\
  Int.s64 (remote last - remote first) <> 0 /\
  is_finite (clockRate sync') = true /\
  is_zero (clockRate sync') = false /\
  (span (map local held) <= Int.max_s64 ->
   span (map remote held) <= Int.max_s64 ->
   ltb zero (clockRate sync') = true).
Proof.
  intros Hreach Hacc. cbv zeta.
  set (sync' := fst (ingest sync now packet)).
  set (first := ring_buffer_get (samples sync') 0).
  set (last := ring_buffer_get (samples sync')
                 (Int.u64 (count (samples sync') - 1))).
  intros Hcount Hlocal Hremote.
  pose proof (sync_inv_ingest sync now packet (reachable_inv sync Hreach))
    as (_ & _ & (Hwf & Hsize) & _ & _ & _ & Hrange).
  pose proof (ingest_clockRate sync now packet Hacc Hcount) as Hrate.
  change (clockRate sync' = clock_rate_of first last) in Hrate.
  (* [first] is held before [last]; both are within [int64_t] *)
  destruct (get_0_in_contents (samples sync') Hwf Hsize Hcount)
    as (i & Hi & Hfirst).
  pose proof (get_newest_in_contents (samples sync') Hwf ltac:(lia)) as Hlast.
  fold first in Hfirst. fold last in Hlast.
  destruct (get_in_buffer sample_in_range (samples sync') 0 Hwf Hrange)
    as [Hfl Hfr].
  destruct (get_in_buffer sample_in_range (samples sync')
              (Int.u64 (count (samples sync') - 1)) Hwf Hrange) as [Hll Hlr].
  fold first in Hfl, Hfr. fold last in Hll, Hlr.
  pose proof (increasing_within_span
                (map local (ring_contents (samples sync'))) i _ _ _ Hlocal Hi
                (lookup_map local _ _ _ Hfirst)
                (lookup_map local _ _ _ Hlast)) as Hl.
  pose proof (increasing_within_span
                (map remote (ring_contents (samples sync'))) i _ _ _ Hremote Hi
                (lookup_map remote _ _ _ Hfirst)
                (lookup_map remote _ _ _ Hlast)) as Hr.
  assert (Hdl : Int.s64 (local last - local first) <> 0)
    by (apply s64_difference_nonzero; [assumption | assumption | lia]).
  assert (Hdr : Int.s64 (remote last - remote first) <> 0)
    by (apply s64_difference_nonzero; [assumption | assumption | lia]).
  split; [exact Hrate|]. split; [exact Hdl|]. split; [exact Hdr|].
  destruct (clock_rate_of_finite first last Hdr Hdl) as (s & m & e & Hval).
  split; [rewrite Hrate, Hval; reflexivity|].
  split; [rewrite Hrate, Hval; reflexivity|].
  intros Hlspan Hrspan.
  destruct (clock_rate_of_positive first last) as (m' & e' & Hval');
    [lia | lia |].
  rewrite Hrate, Hval'. reflexivity.
Qed.

Lemma clockRate_positive_finite_second_reply :
  let sync' := fst (ingest Run.first_reply 2000200 (reply 2000000 2002000)) in
  reachable Run.first_reply /\
  count (samples sync') = 2 /\
  is_finite (clockRate sync') = true /\
  is_zero (clockRate sync') = false /\
  ltb zero (clockRate sync') = true.
Proof.
  assert (Hreach : reachable Run.first_reply)
    by apply receive_loop_reachable, fresh_reachable.
  split; [exact Hreach|]. split; [reflexivity|].
  destruct (clockRate_positive_finite Run.first_reply 2000200
              (reply 2000000 2002000) Hreach)
    as (_ & _ & _ & Hfin & Hnz & Hpos);
    try (vm_compute; reflexivity);
    try (apply Zle_bool_imp_le; vm_compute; reflexivity).
  split; [exact Hfin|]. split; [exact Hnz|].
  apply Hpos; apply Zle_bool_imp_le; vm_compute; reflexivity.
Defined.

(** C4 (counterexample).  Two accepted replies whose remote stamps are
    the lowest and then the highest [int64_t]: both timestamps increase
    strictly in insertion order, yet [last->remote - first->remote] wraps
    to -1 and the clock rate is -1.0. *)
Lemma clockRate_wrapped_span_negative :
  let sync := Run.extreme_remote in
  reachable sync /\
  count (samples sync) = 2 /\
  map local (ring_contents (samples sync)) = [0; 1] /\
  map remote (ring_contents (samples sync))
    = [- 9223372036854775808; 9223372036854775807] /\
  increasing (map local (ring_contents (samples sync))) = true /\
  increasing (map remote (ring_contents (samples sync))) = true /\
  clockRate sync = neg one /\
  is_finite (clockRate sync) = true /\
  ltb zero (clockRate sync) = false.
Proof.
  split; [apply receive_loop_reachable, fresh_reachable|].
  vm_compute. repeat split; reflexivity.
Qed.

(** ** Average offset *)

(** C5 (the code departs from the claim).  After eleven accepted replies
    with offsets 1000, 2000, ..., 11000 the offsets ring holds
    2000 .. 11000, whose mean is 6500; the recomputed [averageOffset] is
    6900, because the fold reads the ring through [ring_buffer_get], which
    on the wrapped ring visits one slot twice and skips another. *)
Theorem averageOffset_full_ring_not_mean :
  let sync := Run.eleven_replies in
  reachable sync /\
  ring_contents (offsets sync)
    = [2000; 3000; 4000; 5000; 6000; 7000; 8000; 9000; 10000; 11000] /\
  Spec.mean (offsets sync) = 6500 /\
  averageOffset sync = 6900.
Proof.
  split; [apply receive_loop_reachable, fresh_reachable|].
  vm_compute. repeat split; reflexivity.
Qed.

(** A second departure, independent of the first: the division is unsigned,
    so a negative total (a server clock behind the client's) is divided as
    a number near [2 ^ 64]. *)
Lemma averageOffset_negative_total_not_mean :
  let sync := Run.two_replies_behind in
  reachable sync /\
  ring_contents (offsets sync) = [-5; -5] /\
  Spec.mean (offsets sync) = -5 /\
  averageOffset sync = 9223372036854775803.
Proof.
  split; [apply receive_loop_reachable, fresh_reachable|].
  vm_compute. repeat split; reflexivity.
Qed.

(** ** Suggested playback rate *)

(** C6 (as amended).  Whatever the state, the clock and the two
    arguments: when the position delta is not NaN the result lies in
    [0.5, 2.0]; when |delta| < 5000 the result is exactly 1.0; otherwise
    it is [1 + delta / 1000 / 1000], each operation rounded to double,
    clamped to [0.5, 2.0]. *)
Theorem suggestPlaybackRate_contract (sync : DRIFTsync) (now : Z)
    (globalStartTime playbackPosition : double) :
  let delta := playback_difference sync now globalStartTime playbackPosition in
  let result :=
    DRIFTsync_suggestPlaybackRate sync now globalStartTime playbackPosition in
  (is_nan delta = false -> leb half result = true /\ leb result two = true) /\
  (ltb (SFabs delta) (of_int 5000) = true -> result = one) /\
  (ltb (SFabs delta) (of_int 5000) = false ->
   result = Spec.clamp (playback_rate delta) half two).
Proof.
  intros delta result. subst result.
  unfold DRIFTsync_suggestPlaybackRate, one, two.
  fold delta. rewrite fabs_cond_ltb, clamp_as_coded.
  destruct (ltb (SFabs delta) (of_int 5000)) eqn:Hband.
  - repeat split; try reflexivity; discriminate.
  - split; [|split; [discriminate | reflexivity]].
    intros Hd. pose proof (playback_rate_not_nan delta Hd) as Hr.
    unfold Spec.clamp.
    destruct (ltb (playback_rate delta) half) eqn:Hlo; [split; reflexivity|].
    destruct (gtb (playback_rate delta) (of_int 2)) eqn:Hhi;
      [split; reflexivity|].
    split.
    + apply not_ltb_leb; [exact Hr | reflexivity | exact Hlo].
    + apply not_gtb_leb; [exact Hr | reflexivity | exact Hhi].
Qed.

Lemma suggestPlaybackRate_contract_ahead :
  let result :=
    DRIFTsync_suggestPlaybackRate Run.first_reply 2000000 (of_int 0) (of_int 0) in
  is_nan (playback_difference Run.first_reply 2000000 (of_int 0) (of_int 0))
    = false /\
  leb half result = true /\ leb result two = true.
Proof.
  split; [vm_compute; reflexivity|].
  destruct (suggestPlaybackRate_contract Run.first_reply 2000000
              (of_int 0) (of_int 0)) as (Hrange & _ & _).
  apply Hrange. vm_compute. reflexivity.
Defined.

(** The two divisions by 1000 round twice: the rate is not always the
    double nearest to [1 + delta / 1000000] computed with one division. *)
Lemma playback_rate_rounds_twice :
  playback_rate (of_int 30752)
  <> add (of_int 1) (div (of_int 30752) (of_int 1000000)).
Proof. vm_compute. congruence. Qed.

(** C6 (counterexample).  With the scale [main] uses and the finite
    arguments [DBL_MAX] and [-DBL_MAX], both quotients by the scale
    overflow to infinities of opposite sign, the delta is NaN and so is
    the result: it is not in [0.5, 2.0]. *)
Lemma suggestPlaybackRate_nan :
  let sync := Run.fresh in
  let result := DRIFTsync_suggestPlaybackRate sync 0 DBL_MAX (neg DBL_MAX) in
  is_finite DBL_MAX = true /\
  playback_difference sync 0 DBL_MAX (neg DBL_MAX) = S754_nan /\
  result = S754_nan /\
  leb half result = false /\ leb result two = false.
Proof. vm_compute. repeat split; reflexivity. Qed.

(** ** Deadline of the accuracy wait *)

(** The nanosecond field is never advanced and the seconds advance by the
    whole seconds of the timeout only. *)
Lemma accuracy_deadline_whole_seconds (spec : timespec) (timeout : Z) :
  accuracy_deadline spec timeout
  = Timespec (tv_sec spec + Z.quot timeout 1000000) (tv_nsec spec).
Proof.
  unfold accuracy_deadline. f_equal.
  - rewrite Z.quot_quot by lia. reflexivity.
  - pose proof (Z.rem_bound_abs timeout 1000 ltac:(lia)) as Hb.
    assert (Hq : Z.quot (Z.rem timeout 1000) 1000 = 0)
      by (apply Z.quot_small_iff; lia).
    rewrite Hq. lia.
Qed.

(** When the timed wait returns nonzero the summary handed back is the
    zeroed one. *)
Lemma DRIFTsync_accuracy_expiry (sync : DRIFTsync) (wait reset timeout : Z)
    (realtime : timespec)
    (cond_wait : option timespec -> DRIFTsync -> option DRIFTsync) :
  wait <> 0 -> 0 < timeout ->
  (forall s, cond_wait (Some (accuracy_deadline realtime timeout)) s = None) ->
  snd (DRIFTsync_accuracy sync wait reset timeout realtime cond_wait)
  = accuracy_zero.
Proof.
  intros Hw Ht Hexp. unfold DRIFTsync_accuracy.
  destruct (measureAccuracy sync =? 0); [reflexivity|].
  destruct (Z.eqb_spec wait 0) as [|_]; [contradiction|].
  destruct (Z.ltb_spec 0 timeout) as [_|]; [|lia].
  cbn [negb]. rewrite Hexp. reflexivity.
Qed.

(** C7 (the code departs from the claim).  With the realtime clock at
    100 s and a timeout of 1 500 000 microseconds, the deadline handed to
    the timed wait is 101 s: one second after the clock reading, not the
    1.5 s the timeout asks for.  [timeout % 1000 / 1000] is always 0. *)
Theorem accuracy_deadline_drops_fraction :
  let realtime := Timespec 100 0 in
  let timeout := 1500000 in
  accuracy_deadline realtime timeout = Timespec 101 0 /\
  timespec_ns (accuracy_deadline realtime timeout)
    = timespec_ns realtime + 1000000 * 1000 /\
  timespec_ns (accuracy_deadline realtime timeout)
    <> timespec_ns realtime + timeout * 1000.
Proof.
  vm_compute. repeat split; congruence.
Qed.

(** ** Reading a ring after a push *)

(** C8 (the code departs from the claim).  A ring of capacity 10 holding
    1 .. 10 is full; after pushing 11 it holds 2 .. 11, so index 0 should
    read 2, the element index 1 read before.  [ring_buffer_get] reads 8:
    [position - count + 1] wraps around [2 ^ 64], which is not a multiple
    of 10.  (The count stays 10 and index [count - 1] reads 11.) *)
Theorem push_full_ring_get_not_shifted :
  let b := Run.full_ring in
  let b' := ring_buffer_push b 11 in
  count b = size b /\
  ring_contents b = [1; 2; 3; 4; 5; 6; 7; 8; 9; 10] /\
  ring_contents b' = [2; 3; 4; 5; 6; 7; 8; 9; 10; 11] /\
  count b' = 10 /\
  ring_buffer_get b' (count b' - 1) = 11 /\
  ring_buffer_get b 1 = 2 /\
  ring_buffer_get b' 0 = 8.
Proof.
  vm_compute. repeat split; reflexivity.
Qed.

(** ** Probe emitter *)

(** As long as every datagram goes out whole, each send is followed by the
    interval sleep. *)
Lemma request_loop_sent_whole_sleeps (env : list (Z * Z)) :
  forall sync,
  Forall (fun e => snd e = sizeof_packet) env ->
  Spec.sleep_after_every_send false (snd (request_loop sync env)) = true.
Proof.
  induction env as [|[now result] env IH]; intros sync Hall; [reflexivity|].
  inversion Hall as [|? ? Hres Hall']; subst. simpl in Hres. subst result.
  specialize (IH (count_sent sync) Hall').
  cbn [request_loop]. unfold request_iteration.
  change (sizeof_packet <? 0) with false.
  change (negb (sizeof_packet =? sizeof_packet)) with false.
  cbv iota.
  destruct (request_loop (count_sent sync) env) as [sync2 tr].
  exact IH.
Qed.

(** C9 (the code departs from the claim).  A failed send and a short
    write are logged and the loop goes straight to the next send: the
    [continue] skips the sleep.  Three sends happen with no sleep between
    them. *)
Theorem request_loop_failed_send_skips_sleep (sync : DRIFTsync) (t0 t1 t2 : Z) :
  let env := [(t0, -1); (t1, 16); (t2, sizeof_packet)] in
  snd (request_loop sync env)
    = [EvSend t0; EvLogSendFailed; EvSend t1; EvLogIncomplete 16;
       EvSend t2; EvSleep (interval sync)] /\
  Spec.sleep_after_every_send false (snd (request_loop sync env)) = false.
Proof.
  split; reflexivity.
Qed.

(** ** Median of an empty round-trip ring *)

(** C10 (as amended).  In a reachable state whose round-trip ring is
    empty, [medianRoundTripTime] returns 0, read from zero-initialised
    storage, and for every finite scale the public
    [DRIFTsync_medianRoundTripTime] returns a zero. *)
Theorem medianRoundTripTime_empty (sync : DRIFTsync) :
  reachable sync -> count (roundTripTimes sync) = 0 ->
  snd (medianRoundTripTime sync) = 0 /\
  (is_finite (scale sync) = true ->
   is_zero (snd (DRIFTsync_medianRoundTripTime sync)) = true).
Proof.
  intros Hreach Hcount.
  pose proof (reachable_inv sync Hreach)
    as ((Hwf & Hsize) & Hscratch & _ & _ & _ & Hzeros & _).
  specialize (Hzeros Hcount).
  destruct Hwf as (_ & _ & _ & _ & Hpos).
  rewrite Hcount, Hsize in Hpos. specialize (Hpos ltac:(lia)). simpl in Hpos.
  assert (Hmed : snd (medianRoundTripTime sync) = 0).
  { unfold medianRoundTripTime, ring_buffer_median, ring_buffer_copy,
      ring_buffer_get, ring_buffer_slot, qsort.
    cbn [fst snd buffer size count position].
    rewrite Hcount, Hzeros, Hscratch, Hpos. reflexivity. }
  split; [exact Hmed|].
  intros Hfin. unfold DRIFTsync_medianRoundTripTime.
  destruct (medianRoundTripTime sync) as [s' median]. simpl in Hmed.
  subst median. cbn [snd].
  destruct (scale sync) as [s|s| |s m e]; try discriminate; reflexivity.
Qed.

Lemma medianRoundTripTime_empty_fresh :
  reachable Run.fresh /\
  count (roundTripTimes Run.fresh) = 0 /\
  snd (medianRoundTripTime Run.fresh) = 0 /\
  is_zero (snd (DRIFTsync_medianRoundTripTime Run.fresh)) = true.
Proof.
  split; [apply fresh_reachable|]. split; [reflexivity|].
  destruct (medianRoundTripTime_empty Run.fresh fresh_reachable eq_refl)
    as [Hmed Hpub].
  split; [exact Hmed | apply Hpub; reflexivity].
Defined.

(** C10 (counterexample).  A client created with an infinite scale has an
    empty round-trip ring and a median of 0, but the public function
    returns [0 * inf], which is NaN and not 0.0. *)
Lemma medianRoundTripTime_infinite_scale_nan :
  let sync := Run.unbounded_scale in
  reachable sync /\
  count (roundTripTimes sync) = 0 /\
  snd (medianRoundTripTime sync) = 0 /\
  snd (DRIFTsync_medianRoundTripTime sync) = S754_nan /\
  is_zero (snd (DRIFTsync_medianRoundTripTime sync)) = false.
Proof.
  split; [apply reach_create|].
  vm_compute. repeat split; reflexivity.
Qed.

(** * Further properties of the code *)

(** ** Ring history: where an index lands *)

Section RingRank.
Context {A : Type} `{Zeroed A}.
Implicit Types (b : ring_buffer A) (x : A).

Lemma u64_sum_offset b i :
  Int.u64 (i + Int.u64 (Int.u64 (position b - count b) + 1))
  = (position b - count b + 1 + i) mod 2 ^ 64.
Proof.
  unfold Int.u64. rewrite Zplus_mod_idemp_l, Zplus_mod_idemp_r.
  f_equal. lia.
Qed.

(** No wrap-around in [size_t]: the slot is the one of rank [i]. *)
Lemma slot_in_order b i :
  ring_wf b -> 0 <= i < count b -> count b <= position b + 1 + i ->
  ring_buffer_slot b i = (position b - count b + 1 + i) mod size b.
Proof.
  intros (Hs & _ & Hc & Hp & _) Hi Hle. unfold ring_buffer_slot.
  cbv zeta. rewrite u64_sum_offset, (Z.mod_small _ (2 ^ 64)) by lia.
  reflexivity.
Qed.

(** The offset wrapped around [2 ^ 64] and the index did not bring it
    back: the slot is [2 ^ 64] further on, modulo the capacity. *)
Lemma slot_wrapped b i :
  ring_wf b -> 0 <= i -> position b + 1 + i < count b ->
  ring_buffer_slot b i = (position b - count b + 1 + (i + 2 ^ 64)) mod size b.
Proof.
  intros (Hs & _ & Hc & Hp & _) Hi Hlt. unfold ring_buffer_slot.
  cbv zeta. rewrite u64_sum_offset, (mod_add_once _ (2 ^ 64)) by lia.
  f_equal. lia.
Qed.

(** Only a full ring can have its newest element away from slot
    [count - 1]. *)
Lemma wrapped_full b i :
  ring_wf b -> 0 <= i -> position b + 1 + i < count b -> count b = size b.
Proof.
  intros (Hs & _ & Hc & Hp & Hpc) Hi Hlt.
  destruct (Z_lt_le_dec (count b) (size b)) as [Hroom|]; [|lia].
  specialize (Hpc Hroom). destruct (Z.eqb_spec (count b) 0); lia.
Qed.

Lemma slot_in_storage b pos :
  ring_wf b -> (Z.to_nat (ring_buffer_slot b pos) < length (buffer b))%nat.
Proof.
  intros (Hs & Hl & _). rewrite Hl. unfold ring_buffer_slot. cbv zeta.
  pose proof (Z.mod_pos_bound
                (Int.u64 (pos + Int.u64 (Int.u64 (position b - count b) + 1)))
                (size b) ltac:(lia)).
  lia.
Qed.

Lemma fold_left_through_map {B St : Type} (f : B -> A) (op : A -> St -> St)
    (l : list B) : forall st,
  fold_left (fun st i => op (f i) st) l st
  = fold_left (fun st x => op x st) (map f l) st.
Proof.
  induction l as [|i l IH]; intros st; [reflexivity|]. cbn. apply IH.
Qed.

(** While no read wraps, the contents are what [ring_buffer_get] reads
    at 0, 1, ..., [count - 1]. *)
Lemma ring_contents_by_get b :
  ring_wf b -> count b <= position b + 1 ->
  ring_contents b
  = map (fun i => ring_buffer_get b (Z.of_nat i)) (seq 0 (Z.to_nat (count b))).
Proof.
  intros Hwf Hle. unfold ring_contents. apply map_ext_in.
  intros k Hk%in_seq. unfold ring_buffer_get.
  rewrite slot_in_order by (try exact Hwf; lia). reflexivity.
Qed.

Lemma contents_after_pushes (l : list A) : forall b,
  ring_wf b ->
  ring_contents (fold_left ring_buffer_push l b)
  = drop (length (ring_contents b ++ l) - Z.to_nat (size b))
      (ring_contents b ++ l).
Proof.
  induction l as [|x l IH]; intros b Hwf; cbn [fold_left].
  - rewrite app_nil_r, ring_contents_length.
    destruct Hwf as (_ & _ & Hc & _).
    replace (Z.to_nat (count b) - Z.to_nat (size b))%nat with 0%nat by lia.
    reflexivity.
  - rewrite IH by (apply ring_wf_push; exact Hwf).
    rewrite push_size, ring_contents_push by exact Hwf.
    pose proof (ring_contents_length b) as Hlen.
    destruct Hwf as (Hs & _ & Hc & _).
    destruct (Z.ltb_spec (count b) (size b)) as [Hroom|Hfull].
    + rewrite <- app_assoc. reflexivity.
    + destruct (ring_contents b) as [|c0 c] eqn:Hc0;
        [cbn in Hlen; lia|]. cbn [tail].
      rewrite <- app_assoc. cbn [app].
      cbn [length] in Hlen.
      do 2 (rewrite length_app; cbn [length]).
      replace (length c + S (length l) - Z.to_nat (size b))%nat
        with (length l) by lia.
      replace (S (length c + S (length l)) - Z.to_nat (size b))%nat
        with (S (length l)) by lia.
      reflexivity.
Qed.

End RingRank.

(** X1.  Whatever index is passed, [ring_buffer_get] points inside the
    storage of a ring built by [ring_buffer_init] and [ring_buffer_push],
    and so does the slot [ring_buffer_push] writes. *)
Theorem ring_buffer_access_in_storage {A : Type} `{Zeroed A}
    (b : ring_buffer A) (pos : Z) (x : A) :
  ring_wf b ->
  (Z.to_nat (ring_buffer_slot b pos) < length (buffer b))%nat /\
  (Z.to_nat (position (ring_buffer_push b x)) < length (buffer b))%nat.
Proof.
  intros Hwf. split; [apply slot_in_storage; exact Hwf|].
  rewrite push_position by exact Hwf.
  destruct Hwf as (Hs & Hl & _). rewrite Hl.
  pose proof (Z.mod_pos_bound (position b + 1) (size b) ltac:(lia)). lia.
Qed.

Lemma ring_buffer_access_in_storage_full :
  ring_wf Run.full_ring /\
  (Z.to_nat (ring_buffer_slot Run.full_ring (2 ^ 64 - 1)%Z) < 10)%nat /\
  (Z.to_nat (position (ring_buffer_push Run.full_ring 11%Z)) < 10)%nat.
Proof.
  assert (Hwf : ring_wf Run.full_ring).
  { unfold ring_wf. vm_compute. repeat split; try discriminate; intros; lia. }
  split; [exact Hwf|].
  exact (ring_buffer_access_in_storage Run.full_ring (2 ^ 64 - 1) 11 Hwf).
Defined.

(** X2.  After any sequence of pushes into a fresh ring of capacity [n],
    the ring holds the last [n] elements pushed (all of them if fewer),
    oldest first. *)
Theorem ring_retains_newest {A : Type} `{Zeroed A} (n : Z) (l : list A) :
  0 < n < 2 ^ 63 ->
  ring_contents (fold_left ring_buffer_push l (ring_buffer_init n))
  = drop (length l - Z.to_nat n) l.
Proof.
  intros Hn. rewrite contents_after_pushes by (apply ring_wf_init; exact Hn).
  reflexivity.
Qed.

Lemma ring_retains_newest_three :
  0 < 2 < 2 ^ 63 /\
  ring_contents (fold_left ring_buffer_push [5; 6; 7] (ring_buffer_init 2))
  = [6; 7].
Proof.
  split; [lia|]. exact (ring_retains_newest 2 [5; 6; 7] ltac:(lia)).
Defined.

(** X3.  [ring_buffer_get b i] with [i] below the count reads the element
    of rank [i] (oldest first) as long as [position + 1 + i] reaches the
    count; otherwise the [size_t] offset has wrapped and it reads the
    element of rank [(i + 2 ^ 64) mod size]. *)
Theorem ring_buffer_get_rank {A : Type} `{Zeroed A} (b : ring_buffer A)
    (i : Z) :
  ring_wf b -> 0 <= i < count b ->
  ring_contents b !!
    Z.to_nat (if count b <=? position b + 1 + i then i
              else (i + 2 ^ 64) mod size b)
  = Some (ring_buffer_get b i).
Proof.
  intros Hwf Hi. unfold ring_buffer_get.
  destruct (Z.leb_spec (count b) (position b + 1 + i)) as [Hle|Hlt].
  - rewrite ring_contents_lookup by lia.
    rewrite slot_in_order by (try exact Hwf; lia).
    rewrite Z2Nat.id by lia. reflexivity.
  - pose proof (wrapped_full b i Hwf ltac:(lia) Hlt) as Hfull.
    rewrite slot_wrapped by (try exact Hwf; lia).
    destruct Hwf as (Hs & _).
    pose proof (Z.mod_pos_bound (i + 2 ^ 64) (size b) ltac:(lia)).
    rewrite ring_contents_lookup by lia.
    rewrite Z2Nat.id by lia. rewrite Zplus_mod_idemp_r. reflexivity.
Qed.

Lemma ring_buffer_get_rank_wrapped :
  let b := ring_buffer_push Run.full_ring 11 in
  ring_wf b /\ 0 <= 0 < count b /\
  ring_contents b !! 6%nat = Some (ring_buffer_get b 0).
Proof.
  assert (Hwf : ring_wf (ring_buffer_push Run.full_ring 11)).
  { unfold ring_wf. vm_compute. repeat split; try discriminate; intros; lia. }
  cbv zeta. split; [exact Hwf|]. split; [vm_compute; split; congruence|].
  exact (ring_buffer_get_rank (ring_buffer_push Run.full_ring 11) 0 Hwf
           ltac:(vm_compute; split; congruence)).
Defined.

(** X4.  When the capacity divides [2 ^ 64] (a power of two), the
    wrap-around of the offset is harmless: every index below the count
    reads the element of that rank, wrapped ring or not. *)
Theorem ring_buffer_get_power_of_two {A : Type} `{Zeroed A}
    (b : ring_buffer A) (i : Z) :
  ring_wf b -> 2 ^ 64 mod size b = 0 -> 0 <= i < count b ->
  ring_contents b !! Z.to_nat i = Some (ring_buffer_get b i).
Proof.
  intros Hwf Hdiv Hi. unfold ring_buffer_get.
  rewrite ring_contents_lookup by lia. rewrite Z2Nat.id by lia.
  destruct (Z_le_gt_dec (count b) (position b + 1 + i)) as [Hle|Hgt].
  - rewrite slot_in_order by (try exact Hwf; lia). reflexivity.
  - rewrite slot_wrapped by (try exact Hwf; lia).
    destruct Hwf as (Hs & _).
    replace (position b - count b + 1 + (i + 2 ^ 64))
      with ((position b - count b + 1 + i) + 2 ^ 64) by lia.
    rewrite <- (Zplus_mod_idemp_r (2 ^ 64) _ (size b)), Hdiv, Z.add_0_r.
    reflexivity.
Qed.

Lemma ring_buffer_get_power_of_two_wrapped :
  let b := fold_left ring_buffer_push [1; 2; 3; 4; 5] (ring_buffer_init 4) in
  ring_wf b /\ 2 ^ 64 mod size b = 0 /\ 0 <= 0 < count b /\
  ring_contents b !! 0%nat = Some (ring_buffer_get b 0).
Proof.
  assert (Hwf : ring_wf (fold_left ring_buffer_push [1; 2; 3; 4; 5]
                           (ring_buffer_init 4))).
  { unfold ring_wf. vm_compute. repeat split; try discriminate; intros; lia. }
  cbv zeta. split; [exact Hwf|]. split; [reflexivity|].
  split; [vm_compute; split; congruence|].
  exact (ring_buffer_get_power_of_two _ 0 Hwf eq_refl
           ltac:(vm_compute; split; congruence)).
Defined.

(** X5.  As long as the newest element sits in slot [count - 1] or
    beyond (no read wraps), [ring_buffer_apply] folds the operation over
    the ring's contents, oldest first. *)
Theorem ring_buffer_apply_in_order {A : Type} `{Zeroed A} {St : Type}
    (b : ring_buffer A) (op : A -> St -> St) (state : St) :
  ring_wf b -> count b <= position b + 1 ->
  ring_buffer_apply b op state
  = fold_left (fun st x => op x st) (ring_contents b) state.
Proof.
  intros Hwf Hle. unfold ring_buffer_apply.
  rewrite ring_contents_by_get by assumption.
  apply fold_left_through_map.
Qed.

Lemma ring_buffer_apply_in_order_full :
  ring_wf Run.full_ring /\
  count Run.full_ring <= position Run.full_ring + 1 /\
  ring_buffer_apply Run.full_ring sum_int64_t 0 = 55.
Proof.
  assert (Hwf : ring_wf Run.full_ring).
  { unfold ring_wf. vm_compute. repeat split; try discriminate; intros; lia. }
  split; [exact Hwf|]. split; [vm_compute; congruence|].
  rewrite (ring_buffer_apply_in_order Run.full_ring sum_int64_t 0 Hwf
             ltac:(vm_compute; congruence)).
  reflexivity.
Defined.

(** X6.  [ring_buffer_clear] brings a ring back to the state
    [ring_buffer_init] gave it: it holds nothing, and a read at any index
    finds a zeroed element. *)
Theorem ring_buffer_clear_reads_zero {A : Type} `{Zeroed A}
    (b : ring_buffer A) (pos : Z) :
  0 < size b < 2 ^ 63 ->
  ring_buffer_clear b = ring_buffer_init (size b) /\
  ring_contents (ring_buffer_clear b) = [] /\
  ring_buffer_get (ring_buffer_clear b) pos = zeroed.
Proof.
  intros Hs. split; [reflexivity|]. split; [reflexivity|].
  unfold ring_buffer_get, ring_buffer_slot, ring_buffer_clear.
  cbn [buffer size count position].
  apply lookup_total_replicate_2.
  match goal with |- (Z.to_nat (?a mod _) < _)%nat =>
    pose proof (Z.mod_pos_bound a (size b) ltac:(lia)) end.
  lia.
Qed.

Lemma ring_buffer_clear_reads_zero_full :
  0 < size Run.full_ring < 2 ^ 63 /\
  ring_buffer_get (ring_buffer_clear Run.full_ring) 3 = 0.
Proof.
  split; [vm_compute; split; congruence|].
  exact (proj2 (proj2 (ring_buffer_clear_reads_zero Run.full_ring 3
                         ltac:(vm_compute; split; congruence)))).
Defined.

(** ** Comparator and median *)

(** A value and its [int64_t] wrap differ by a multiple of [2 ^ 64]. *)
Lemma s64_congruent z : exists q, Int.s64 z = z + q * 2 ^ 64.
Proof.
  exists (- ((z + 2 ^ 63) / 2 ^ 64)). unfold Int.s64.
  rewrite Z.mod_eq by lia. lia.
Qed.

Lemma s32_small z : - 2 ^ 31 <= z < 2 ^ 31 -> Int.s32 z = z.
Proof. intros Hz. unfold Int.s32. rewrite Z.mod_small by lia. lia. Qed.

Lemma compare_int64_t_small one two :
  - 2 ^ 31 <= one - two < 2 ^ 31 -> compare_int64_t one two = one - two.
Proof.
  intros Hd. unfold compare_int64_t.
  rewrite s64_small by (unfold Int.min_s64, Int.max_s64; lia).
  apply s32_small. exact Hd.
Qed.

Section Sorting.
Context {A : Type} `{Zeroed A}.
Implicit Types (compar : A -> A -> Z) (l : list A).

Lemma qsort_insert_In compar x l y :
  In y (qsort_insert compar x l) <-> y = x \/ In y l.
Proof.
  induction l as [|z l IH]; cbn [qsort_insert].
  - cbn. intuition congruence.
  - destruct (compar x z <=? 0); cbn [In] in *; [intuition congruence|].
    rewrite IH. intuition congruence.
Qed.

Lemma sorted_In compar l y :
  In y (foldr (qsort_insert compar) [] l) <-> In y l.
Proof.
  induction l as [|x l IH]; cbn [foldr]; [reflexivity|].
  rewrite qsort_insert_In, IH. cbn. intuition congruence.
Qed.

Lemma qsort_insert_length compar x l :
  length (qsort_insert compar x l) = S (length l).
Proof.
  induction l as [|z l IH]; cbn [qsort_insert]; [reflexivity|].
  destruct (compar x z <=? 0); cbn [length]; [reflexivity|].
  rewrite IH. reflexivity.
Qed.

Lemma sorted_length compar l :
  length (foldr (qsort_insert compar) [] l) = length l.
Proof.
  induction l as [|x l IH]; cbn [foldr]; [reflexivity|].
  rewrite qsort_insert_length, IH. reflexivity.
Qed.

(** Two comparators that agree on the sign tests made sort alike. *)
Lemma qsort_insert_ext c1 c2 x l :
  (forall y, In y l -> (c1 x y <=? 0) = (c2 x y <=? 0)) ->
  qsort_insert c1 x l = qsort_insert c2 x l.
Proof.
  induction l as [|z l IH]; intros Hagree; cbn [qsort_insert]; [reflexivity|].
  rewrite (Hagree z) by (left; reflexivity).
  destruct (c2 x z <=? 0); [reflexivity|].
  f_equal. apply IH. intros y Hy. apply Hagree. right. exact Hy.
Qed.

Lemma sorted_ext c1 c2 l :
  (forall x y, In x l -> In y l -> (c1 x y <=? 0) = (c2 x y <=? 0)) ->
  foldr (qsort_insert c1) [] l = foldr (qsort_insert c2) [] l.
Proof.
  induction l as [|x l IH]; intros Hagree; cbn [foldr]; [reflexivity|].
  rewrite IH by (intros a b Ha Hb; apply Hagree; right; assumption).
  apply qsort_insert_ext. intros y Hy%sorted_In.
  apply Hagree; [left; reflexivity | right; exact Hy].
Qed.

(** While the ring has not wrapped, its contents are the first [count]
    slots of the storage. *)
Lemma contents_take (b : ring_buffer A) :
  ring_wf b -> position b = count b - 1 ->
  ring_contents b = take (Z.to_nat (count b)) (buffer b).
Proof.
  intros (Hs & Hl & Hc & Hp & _) Hpos. apply list_eq. intros i.
  destruct (Nat.lt_ge_cases i (Z.to_nat (count b))) as [Hi|Hi].
  - rewrite ring_contents_lookup, lookup_take_lt by exact Hi.
    rewrite Hpos.
    replace (count b - 1 - count b + 1 + Z.of_nat i) with (Z.of_nat i) by lia.
    rewrite Z.mod_small, Nat2Z.id by lia.
    symmetry. apply list_lookup_lookup_total_lt. lia.
  - rewrite lookup_take_ge by exact Hi.
    apply lookup_ge_None. rewrite ring_contents_length. exact Hi.
Qed.

(** Every slot below the count holds one of the ring's elements. *)
Lemma slot_in_contents (b : ring_buffer A) (j : nat) :
  ring_wf b -> (j < Z.to_nat (count b))%nat ->
  In (buffer b !!! j) (ring_contents b).
Proof.
  intros (Hs & Hl & Hc & Hp & Hpc) Hj.
  set (k := (Z.of_nat j - (position b - count b + 1)) mod size b).
  assert (Hk : 0 <= k < count b).
  { destruct (Z_lt_le_dec (count b) (size b)) as [Hroom|Hfull].
    - specialize (Hpc Hroom).
      destruct (Z.eqb_spec (count b) 0) as [|_]; [lia|].
      subst k. rewrite Hpc.
      replace (Z.of_nat j - (count b - 1 - count b + 1)) with (Z.of_nat j)
        by lia.
      rewrite Z.mod_small by lia. lia.
    - pose proof (Z.mod_pos_bound
                    (Z.of_nat j - (position b - count b + 1)) (size b)
                    ltac:(lia)).
      subst k. lia. }
  apply list_elem_of_In, (list_elem_of_lookup_2 _ (Z.to_nat k)).
  rewrite ring_contents_lookup by lia.
  do 2 f_equal. rewrite Z2Nat.id by lia. subst k.
  rewrite Zplus_mod_idemp_r.
  replace (position b - count b + 1
           + (Z.of_nat j - (position b - count b + 1))) with (Z.of_nat j)
    by lia.
  rewrite Z.mod_small by lia. lia.
Qed.

(** The slot read by [ring_buffer_median] lies below the count. *)
Lemma median_slot_below_count (b : ring_buffer A) :
  ring_wf b -> 0 < count b ->
  0 <= ring_buffer_slot b (count b / 2) < count b.
Proof.
  intros Hwf Hcount.
  assert (Hhalf : 0 <= count b / 2 < count b).
  { split; [apply Z.div_pos; lia | apply Z.div_lt_upper_bound; lia]. }
  pose proof Hwf as (Hs & Hl & Hc & Hp & Hpc).
  destruct (Z_lt_le_dec (count b) (size b)) as [Hroom|Hfull].
  - specialize (Hpc Hroom).
    destruct (Z.eqb_spec (count b) 0) as [|_]; [lia|].
    rewrite slot_in_order by (try exact Hwf; lia).
    rewrite Hpc.
    replace (count b - 1 - count b + 1 + count b / 2) with (count b / 2)
      by lia.
    rewrite Z.mod_small by lia. lia.
  - unfold ring_buffer_slot. cbv zeta.
    match goal with |- 0 <= ?a mod _ < _ =>
      pose proof (Z.mod_pos_bound a (size b) ltac:(lia)) end.
    lia.
Qed.

Lemma median_in_contents (b : ring_buffer A) compar :
  ring_wf b -> 0 < count b ->
  In (snd (ring_buffer_median b compar)) (ring_contents b).
Proof.
  intros Hwf Hcount.
  pose proof (median_slot_below_count b Hwf Hcount) as Hslot.
  pose proof Hwf as (Hs & Hl & Hc & Hp & Hpc).
  unfold ring_buffer_median, ring_buffer_get. cbn [snd buffer].
  change (ring_buffer_slot _ (count b / 2))
    with (ring_buffer_slot b (count b / 2)).
  set (j := Z.to_nat (ring_buffer_slot b (count b / 2))).
  assert (Hj : (j < Z.to_nat (count b))%nat) by (subst j; lia).
  unfold qsort.
  assert (Hlen : length (foldr (qsort_insert compar) []
                           (take (Z.to_nat (count b)) (buffer b)))
                 = Z.to_nat (count b)).
  { rewrite sorted_length, length_take. lia. }
  rewrite lookup_total_app_l by lia.
  assert (Hin : In (foldr (qsort_insert compar) []
                      (take (Z.to_nat (count b)) (buffer b)) !!! j)
                  (take (Z.to_nat (count b)) (buffer b))).
  { apply sorted_In with (compar := compar).
    apply list_elem_of_In, (list_elem_of_lookup_2 _ j).
    apply list_lookup_lookup_total_lt. lia. }
  apply list_elem_of_In, elem_of_take in Hin as (i & Hi & Hlt).
  apply list_lookup_total_correct in Hi. rewrite <- Hi.
  apply slot_in_contents; assumption.
Qed.

End Sorting.

Lemma ring_buffer_copy_same {A : Type} (from to : ring_buffer A) :
  size to = size from -> ring_buffer_copy from to = from.
Proof. intros Hs. unfold ring_buffer_copy. rewrite Hs. destruct from; reflexivity. Qed.

Lemma median_of_copy sync :
  sync_inv sync ->
  snd (medianRoundTripTime sync)
  = snd (ring_buffer_median (roundTripTimes sync) compare_int64_t).
Proof.
  intros ((_ & Hsize) & Hscratch & _).
  unfold medianRoundTripTime.
  rewrite ring_buffer_copy_same by congruence.
  destruct (ring_buffer_median _ _). reflexivity.
Qed.

(** X7.  [compare_int64_t] returns the difference itself, and so orders
    its arguments correctly, whenever the difference fits in an [int]. *)
Theorem compare_int64_t_orders (one two : Z) :
  - 2 ^ 31 <= one - two < 2 ^ 31 ->
  compare_int64_t one two = one - two /\
  (compare_int64_t one two < 0 <-> one < two) /\
  (compare_int64_t one two = 0 <-> one = two) /\
  (0 < compare_int64_t one two <-> two < one).
Proof.
  intros Hd. rewrite (compare_int64_t_small one two Hd).
  repeat split; lia.
Qed.

Lemma compare_int64_t_orders_rtts :
  - 2 ^ 31 <= 100 - 10101 < 2 ^ 31 /\ compare_int64_t 100 10101 = -10001.
Proof.
  split; [lia|].
  exact (proj1 (compare_int64_t_orders 100 10101 ltac:(lia))).
Defined.

(** X8.  The conversion of the 64-bit difference to [int] keeps its low
    32 bits only: two values that differ by a multiple of [2 ^ 32]
    compare as equal, and a value [2 ^ 31] above another compares as
    smaller. *)
Theorem compare_int64_t_truncates (two k : Z) :
  compare_int64_t (two + k * 2 ^ 32) two = 0 /\
  compare_int64_t (two + 2 ^ 31) two = - 2 ^ 31.
Proof.
  unfold compare_int64_t. split.
  - replace (two + k * 2 ^ 32 - two) with (k * 2 ^ 32) by lia.
    destruct (s64_congruent (k * 2 ^ 32)) as [q Hq]. rewrite Hq.
    unfold Int.s32.
    replace (k * 2 ^ 32 + q * 2 ^ 64 + 2 ^ 31)
      with (2 ^ 31 + (k + q * 2 ^ 32) * 2 ^ 32) by lia.
    rewrite Z_mod_plus_full. reflexivity.
  - replace (two + 2 ^ 31 - two) with (2 ^ 31) by lia. reflexivity.
Qed.

(** X9.  Whenever the round-trip ring holds something, the value
    [medianRoundTripTime] returns is one of the round trips the ring
    retains. *)
Theorem medianRoundTripTime_is_retained (sync : DRIFTsync) :
  reachable sync -> 0 < count (roundTripTimes sync) ->
  In (snd (medianRoundTripTime sync)) (ring_contents (roundTripTimes sync)).
Proof.
  intros Hreach Hcount. pose proof (reachable_inv sync Hreach) as Hinv.
  rewrite median_of_copy by exact Hinv.
  destruct Hinv as ((Hwf & _) & _).
  apply median_in_contents; assumption.
Qed.

Lemma medianRoundTripTime_is_retained_eleven :
  reachable Run.eleven_replies /\
  0 < count (roundTripTimes Run.eleven_replies) /\
  In (snd (medianRoundTripTime Run.eleven_replies))
     (ring_contents (roundTripTimes Run.eleven_replies)).
Proof.
  assert (Hreach : reachable Run.eleven_replies)
    by apply receive_loop_reachable, fresh_reachable.
  split; [exact Hreach|]. split; [reflexivity|].
  exact (medianRoundTripTime_is_retained Run.eleven_replies Hreach eq_refl).
Defined.

(** X10.  While the round-trip ring has not wrapped (its newest element
    sits in slot [count - 1]) and the retained round trips differ by less
    than [2 ^ 31], [medianRoundTripTime] returns the element at index
    [count / 2] of the retained round trips sorted in ascending order. *)
Theorem medianRoundTripTime_unwrapped_median (sync : DRIFTsync) :
  reachable sync -> 0 < count (roundTripTimes sync) ->
  position (roundTripTimes sync) = count (roundTripTimes sync) - 1 ->
  (forall x y, In x (ring_contents (roundTripTimes sync)) ->
               In y (ring_contents (roundTripTimes sync)) ->
               - 2 ^ 31 <= x - y < 2 ^ 31) ->
  snd (medianRoundTripTime sync) = Spec.median (roundTripTimes sync).
Proof.
  intros Hreach Hcount Hpos Hwindow.
  pose proof (reachable_inv sync Hreach) as Hinv.
  rewrite median_of_copy by exact Hinv.
  destruct Hinv as ((Hwf & _) & _).
  rewrite ring_buffer_median_unwrapped by assumption.
  unfold Spec.median, Spec.sorted_copy, qsort.
  rewrite <- contents_take by assumption.
  assert (Hhalf : 0 <= count (roundTripTimes sync) / 2
                  < count (roundTripTimes sync)).
  { split; [apply Z.div_pos; lia | apply Z.div_lt_upper_bound; lia]. }
  rewrite lookup_total_app_l
    by (rewrite sorted_length, ring_contents_length; lia).
  rewrite (sorted_ext compare_int64_t Spec.natural_order).
  - symmetry. apply nth_lookup_Some, list_lookup_lookup_total_lt.
    rewrite sorted_length, ring_contents_length. lia.
  - intros x y Hx Hy. rewrite compare_int64_t_small by auto. reflexivity.
Qed.

Lemma medianRoundTripTime_unwrapped_median_two :
  reachable Run.two_replies /\
  snd (medianRoundTripTime Run.two_replies) = 100.
Proof.
  assert (Hreach : reachable Run.two_replies)
    by apply receive_loop_reachable, fresh_reachable.
  split; [exact Hreach|].
  rewrite (medianRoundTripTime_unwrapped_median Run.two_replies Hreach
             eq_refl eq_refl).
  - reflexivity.
  - intros x y Hx Hy. vm_compute in Hx, Hy.
    destruct Hx as [<-|[<-|[]]], Hy as [<-|[<-|[]]]; lia.
Defined.

(** ** Reply ingestor: what one reply changes *)

Lemma s64_u64 z : Int.s64 (Int.u64 z) = Int.s64 z.
Proof.
  unfold Int.s64, Int.u64. rewrite Zplus_mod_idemp_l. reflexivity.
Qed.

Lemma s64_s64 z : Int.s64 (Int.s64 z) = Int.s64 z.
Proof. apply s64_small, s64_range. Qed.

Lemma s64_sub_s64 a b : Int.s64 (Int.s64 a - Int.s64 b) = Int.s64 (a - b).
Proof.
  destruct (s64_congruent a) as [qa Ha], (s64_congruent b) as [qb Hb].
  rewrite Ha, Hb. unfold Int.s64.
  replace (a + qa * 2 ^ 64 - (b + qb * 2 ^ 64) + 2 ^ 63)
    with (a - b + 2 ^ 63 + (qa - qb) * 2 ^ 64) by lia.
  rewrite Z_mod_plus_full. reflexivity.
Qed.

Lemma s32_succ n : Int.s32 (Int.s32 n + 1) = Int.s32 (n + 1).
Proof.
  unfold Int.s32.
  replace ((n + 2 ^ 31) mod 2 ^ 32 - 2 ^ 31 + 1 + 2 ^ 31)
    with ((n + 2 ^ 31) mod 2 ^ 32 + 1) by lia.
  rewrite Zplus_mod_idemp_l. do 2 f_equal. lia.
Qed.

Lemma map_insert {A B : Type} (f : A -> B) (l : list A) (i : nat) (x : A) :
  map f (<[i := x]> l) = <[i := f x]> (map f l).
Proof.
  revert i. induction l as [|a l IH]; intros i; [reflexivity|].
  destruct i as [|i]; cbn; [reflexivity|]. f_equal. apply IH.
Qed.

Lemma lookup_total_map {A B : Type} `{Inhabited A} `{Inhabited B}
    (f : A -> B) (l : list A) (i : nat) :
  (i < length l)%nat -> map f l !!! i = f (l !!! i).
Proof.
  intros Hi. apply list_lookup_total_correct, lookup_map.
  apply list_lookup_lookup_total_lt. exact Hi.
Qed.

(** The fields of the state [ingest] leaves, in terms of the state it
    started from. *)
Lemma ingest_fields sync now packet :
  let rtt := Int.s64 (Int.u64 (now - pk_local packet)) in
  let smp := Sample (Int.s64 (pk_local packet)) (Int.s64 (pk_remote packet)) in
  let off := Int.s64 (Int.u64 (pk_remote packet - pk_local packet)) in
  let s' := fst (ingest sync now packet) in
  roundTripTimes s' = ring_buffer_push (roundTripTimes sync) rtt /\
  accuracySamples s' = accuracySamples sync /\
  measureAccuracy s' = measureAccuracy sync /\
  scale s' = scale sync /\
  interval s' = interval sync /\
  sentRequests (stats s') = sentRequests (stats sync) /\
  receivedSamples (stats s') = Int.s32 (receivedSamples (stats sync) + 1) /\
  if snd (ingest sync now packet)
  then
    rejectedSamples (stats s') = rejectedSamples (stats sync) /\
    samples s' = ring_buffer_push (samples sync) smp /\
    offsets s' = ring_buffer_push (offsets sync) off /\
    clockRate s'
    = (if 2 <=? count (ring_buffer_push (samples sync) smp)
       then clock_rate_of
              (ring_buffer_get (ring_buffer_push (samples sync) smp) 0)
              (ring_buffer_get (ring_buffer_push (samples sync) smp)
                 (Int.u64 (count (ring_buffer_push (samples sync) smp) - 1)))
       else clockRate sync) /\
    averageOffset s'
    = Int.s64 (Int.u64 (ring_buffer_apply
                          (ring_buffer_push (offsets sync) off)
                          sum_int64_t 0)
               / count (ring_buffer_push (offsets sync) off))
  else
    rejectedSamples (stats s') = Int.s32 (rejectedSamples (stats sync) + 1) /\
    samples s' = samples sync /\
    offsets s' = offsets sync /\
    clockRate s' = clockRate sync /\
    averageOffset s' = averageOffset sync.
Proof.
  cbv zeta. unfold ingest. sync_simpl.
  destruct (medianRoundTripTime _) as [s1 median_rtt] eqn:Hmed.
  unfold medianRoundTripTime, ring_buffer_median in Hmed.
  injection Hmed as Hs1 _. subst s1. cbn [fst snd].
  destruct (10000 <? _); cbn [fst snd]; sync_simpl.
  - repeat split; reflexivity.
  - unfold update_averageOffset, update_clockRate.
    destruct (2 <=? _); sync_simpl; repeat split; reflexivity.
Qed.

(** The test [ingest] makes: the deviation of the round trip from the
    median of the ring that already holds it. *)
Lemma ingest_accepts sync now packet :
  let rtt := Int.s64 (Int.u64 (now - pk_local packet)) in
  snd (ingest sync now packet)
  = negb (10000 <?
          Int.abs64
            (Int.s64
               (rtt - snd (ring_buffer_median
                             (ring_buffer_copy
                                (ring_buffer_push (roundTripTimes sync) rtt)
                                (sortedRoundTripTimes sync))
                             compare_int64_t)))).
Proof.
  cbv zeta. unfold ingest. sync_simpl.
  destruct (medianRoundTripTime _) as [s1 median_rtt] eqn:Hmed.
  unfold medianRoundTripTime in Hmed. sync_simpl.
  destruct (ring_buffer_median _ _) as [scratch m] eqn:Hm.
  injection Hmed as _ <-. cbn [snd].
  destruct (10000 <? _); reflexivity.
Qed.

(** While a ring of round trips has not wrapped and its entries differ
    by less than [2 ^ 31], [ring_buffer_median] reads the element at
    index [count / 2] of the sorted contents. *)
Lemma ring_median_unwrapped (b : ring_buffer Z) :
  ring_wf b -> 0 < count b -> position b = count b - 1 ->
  (forall x y, In x (ring_contents b) -> In y (ring_contents b) ->
               - 2 ^ 31 <= x - y < 2 ^ 31) ->
  snd (ring_buffer_median b compare_int64_t) = Spec.median b.
Proof.
  intros Hwf Hcount Hpos Hwindow.
  rewrite ring_buffer_median_unwrapped by assumption.
  unfold Spec.median, Spec.sorted_copy, qsort.
  rewrite <- contents_take by assumption.
  assert (Hhalf : 0 <= count b / 2 < count b).
  { split; [apply Z.div_pos; lia | apply Z.div_lt_upper_bound; lia]. }
  rewrite lookup_total_app_l
    by (rewrite sorted_length, ring_contents_length; lia).
  rewrite (sorted_ext compare_int64_t Spec.natural_order).
  - symmetry. apply nth_lookup_Some, list_lookup_lookup_total_lt.
    rewrite sorted_length, ring_contents_length. lia.
  - intros x y Hx Hy. rewrite compare_int64_t_small by auto. reflexivity.
Qed.

(** Where the value [ingest] compares with is the median: while the
    round-trip ring, the candidate included, has not wrapped and its
    entries differ by less than [2 ^ 31], the reply is rejected exactly
    when its round trip is more than 10000 away from the element at
    index [count / 2] of the sorted contents. *)
Lemma ingest_rejects_unwrapped (sync : DRIFTsync) (now : Z)
    (packet : driftsync_packet) :
  reachable sync ->
  let rtt := Int.s64 (Int.u64 (now - pk_local packet)) in
  let pushed := ring_buffer_push (roundTripTimes sync) rtt in
  position pushed = count pushed - 1 ->
  (forall x y, In x (ring_contents pushed) -> In y (ring_contents pushed) ->
               - 2 ^ 31 <= x - y < 2 ^ 31) ->
  (snd (ingest sync now packet) = false
   <-> 10000 < Z.abs (rtt - Spec.median pushed)).
Proof.
  intros Hreach. cbv zeta.
  set (rtt := Int.s64 (Int.u64 (now - pk_local packet))).
  set (pushed := ring_buffer_push (roundTripTimes sync) rtt).
  intros Hpos Hwindow.
  pose proof (reachable_inv sync Hreach) as ((Hwf & Hsize) & Hscratch & _).
  assert (Hwf' : ring_wf pushed) by (apply ring_wf_push; exact Hwf).
  assert (Hcount : 0 < count pushed).
  { subst pushed. rewrite push_count by exact Hwf.
    destruct Hwf as (? & _ & ? & _). lia. }
  pose proof (ring_median_unwrapped pushed Hwf' Hcount Hpos Hwindow) as Hmed.
  assert (Hin_med : In (Spec.median pushed) (ring_contents pushed)).
  { rewrite <- Hmed. apply median_in_contents; assumption. }
  assert (Hin_rtt : In rtt (ring_contents pushed)).
  { subst pushed. rewrite ring_contents_push by exact Hwf.
    apply in_or_app. right. left. reflexivity. }
  pose proof (Hwindow _ _ Hin_rtt Hin_med) as Hd.
  rewrite ingest_accepts. cbv zeta. fold rtt. fold pushed.
  rewrite ring_buffer_copy_same by (subst pushed; rewrite push_size; congruence).
  rewrite Hmed.
  rewrite abs64_exact by (unfold Int.min_s64, Int.max_s64; lia).
  destruct (Z.ltb_spec 10000 (Z.abs (rtt - Spec.median pushed)));
    cbn [negb]; split; intros; try reflexivity; try discriminate; lia.
Qed.

Lemma tallied_reachable n r s : tallied n r s -> reachable s.
Proof.
  induction 1; eauto using reachable.
Qed.

(** Every reachable state has a history. *)
Lemma reachable_tallied s : reachable s -> exists n r, tallied n r s.
Proof.
  induction 1 as [scale interval measure | s now result Hr IH
                 | s result packet clk Hr IH | s Hr IH | s Hr IH].
  - exists 0, 0. constructor.
  - destruct IH as (n & r & IH). exists n, r. constructor. exact IH.
  - destruct IH as (n & r & IH).
    destruct (valid_reply result packet) eqn:Hvalid.
    + destruct (snd (ingest s (rc_now clk) packet)) eqn:Haccepted.
      * exists (n + 1), r. apply tallied_accepted; assumption.
      * exists (n + 1), (r + 1). apply tallied_rejected; assumption.
    + exists n, r. apply tallied_dropped; assumption.
  - destruct IH as (n & r & IH). exists n, r. constructor. exact IH.
  - destruct IH as (n & r & IH). exists n, r. constructor. exact IH.
Qed.

(** Bookkeeping of a state reached after [n] replies went through
    [ingest] and [r] of them were rejected. *)
Lemma tallied_ledger n r s :
  tallied n r s ->
  0 <= r <= n /\
  receivedSamples (stats s) = Int.s32 n /\
  rejectedSamples (stats s) = Int.s32 r /\
  count (roundTripTimes s) = Z.min 10 n /\
  count (samples s) = Z.min 10 (n - r) /\
  count (offsets s) = count (samples s) /\
  position (offsets s) = position (samples s) /\
  buffer (offsets s)
  = map (fun smp => Int.s64 (remote smp - local smp)) (buffer (samples s)) /\
  (count (samples s) < 2 -> clockRate s = one) /\
  (count (samples s) < 2 \/ measureAccuracy s = 0 ->
   count (accuracySamples s) = 0).
Proof.
  induction 1 as [scale interval measure
                 | n r s now result Ht IH
                 | n r s result packet clk Ht IH Hvalid
                 | n r s result packet clk Ht IH Hvalid Haccepted
                 | n r s result packet clk Ht IH Hvalid Hrejected
                 | n r s Ht IH | n r s Ht IH].
  - unfold DRIFTsync_create. sync_simpl.
    repeat split; try reflexivity; lia.
  - unfold request_iteration.
    destruct (result <? 0); [exact IH|].
    destruct (negb (result =? sizeof_packet)); exact IH.
  - unfold receive_iteration. rewrite Hvalid. exact IH.
  - destruct IH as (Hnr & Hrecv & Hrej & Hrtt & Hsam & Hoc & Hop & Hob
                    & Hrate & Hacc).
    pose proof (reachable_inv s (tallied_reachable n r s Ht))
      as ((Hwr & Hsr) & _ & (Hws & Hss) & (Hwo & Hso) & _).
    unfold receive_iteration. rewrite Hvalid. cbn [negb].
    pose proof (ingest_fields s (rc_now clk) packet) as Hf. cbv zeta in Hf.
    destruct (ingest s (rc_now clk) packet) as [s1 accepted].
    cbn [fst snd] in Hf, Haccepted. subst accepted. cbn [negb].
    destruct Hf as (Hf_rtt & Hf_acc & Hf_meas & _ & _ & _ & Hf_recv
                    & Hf_rej & Hf_sam & Hf_off & Hf_rate & _).
    assert (Hrtt' : count (roundTripTimes s1) = Z.min 10 (n + 1)).
    { rewrite Hf_rtt, push_count by exact Hwr. lia. }
    assert (Hrecv' : receivedSamples (stats s1) = Int.s32 (n + 1)).
    { rewrite Hf_recv, Hrecv. apply s32_succ. }
    assert (Hsam' : count (samples s1) = Z.min 10 (n + 1 - r)).
    { rewrite Hf_sam, push_count by exact Hws. lia. }
    assert (Hledger :
      0 <= r <= n + 1 /\
      receivedSamples (stats s1) = Int.s32 (n + 1) /\
      rejectedSamples (stats s1) = Int.s32 r /\
      count (roundTripTimes s1) = Z.min 10 (n + 1) /\
      count (samples s1) = Z.min 10 (n + 1 - r) /\
      count (offsets s1) = count (samples s1) /\
      position (offsets s1) = position (samples s1) /\
      buffer (offsets s1)
      = map (fun smp => Int.s64 (remote smp - local smp))
          (buffer (samples s1)) /\
      (count (samples s1) < 2 -> clockRate s1 = one)).
    { split; [lia|]. split; [exact Hrecv'|]. split; [congruence|].
      split; [exact Hrtt'|]. split; [exact Hsam'|].
      split; [rewrite Hf_off, Hf_sam, !push_count by assumption; lia|].
      split; [rewrite Hf_off, Hf_sam, !push_position by assumption;
              congruence|].
      split.
      - rewrite Hf_off, Hf_sam. unfold ring_buffer_push.
        cbn [buffer]. rewrite map_insert. cbn [local remote].
        rewrite Hob, Hop, Hso, Hss. f_equal.
        rewrite s64_u64, s64_sub_s64. reflexivity.
      - intros Hlt. rewrite Hf_rate.
        rewrite <- Hf_sam.
        destruct (Z.leb_spec 2 (count (samples s1))); [lia|].
        apply Hrate. rewrite Hsam' in Hlt. lia. }
    destruct (negb (measureAccuracy s =? 0) && (1 <? count (samples s1)))
      eqn:Hpush; sync_simpl.
    + destruct Hledger as (? & ? & ? & ? & ? & ? & ? & ? & ?).
      rewrite <- Hf_meas in Hpush.
      repeat split; try assumption; lia.
    + destruct Hledger as (? & ? & ? & ? & ? & ? & ? & ? & ?).
      repeat split; try assumption; try lia.
      rewrite Hf_acc, Hf_meas. intros Hor. apply Hacc.
      destruct Hor; [left; lia | right; assumption].
  - destruct IH as (Hnr & Hrecv & Hrej & Hrtt & Hsam & Hoc & Hop & Hob
                    & Hrate & Hacc).
    pose proof (reachable_inv s (tallied_reachable n r s Ht))
      as ((Hwr & Hsr) & _ & (Hws & Hss) & (Hwo & Hso) & _).
    unfold receive_iteration. rewrite Hvalid. cbn [negb].
    pose proof (ingest_fields s (rc_now clk) packet) as Hf. cbv zeta in Hf.
    destruct (ingest s (rc_now clk) packet) as [s1 accepted].
    cbn [fst snd] in Hf, Hrejected. subst accepted. cbn [negb].
    destruct Hf as (Hf_rtt & Hf_acc & Hf_meas & _ & _ & _ & Hf_recv
                    & Hf_rej & Hf_sam & Hf_off & Hf_rate & _).
    assert (Hrtt' : count (roundTripTimes s1) = Z.min 10 (n + 1)).
    { rewrite Hf_rtt, push_count by exact Hwr. lia. }
    rewrite Hf_sam, Hf_off, Hf_rate, Hf_acc, Hf_meas, Hf_rej, Hf_recv,
      Hrecv, Hrej, !s32_succ.
    repeat split; try assumption; lia.
  - unfold DRIFTsync_medianRoundTripTime, medianRoundTripTime,
      ring_buffer_median.
    exact IH.
  - destruct IH as (Hnr & Hrecv & Hrej & Hrtt & Hsam & Hoc & Hop & Hob
                    & Hrate & Hacc).
    sync_simpl. repeat split; try assumption; try lia.
Qed.

(** The same for the reachable states: some history leads to each. *)
Lemma reachable_ledger s :
  reachable s ->
  exists n r,
    0 <= r <= n /\
    receivedSamples (stats s) = Int.s32 n /\
    rejectedSamples (stats s) = Int.s32 r /\
    count (roundTripTimes s) = Z.min 10 n /\
    count (samples s) = Z.min 10 (n - r) /\
    count (offsets s) = count (samples s) /\
    position (offsets s) = position (samples s) /\
    buffer (offsets s)
    = map (fun smp => Int.s64 (remote smp - local smp)) (buffer (samples s)) /\
    (count (samples s) < 2 -> clockRate s = one) /\
    (count (samples s) < 2 \/ measureAccuracy s = 0 ->
     count (accuracySamples s) = 0).
Proof.
  intros Hreach. destruct (reachable_tallied s Hreach) as (n & r & Ht).
  exists n, r. exact (tallied_ledger n r s Ht).
Qed.

Lemma contents_empty {A : Type} `{Zeroed A} (b : ring_buffer A) :
  count b = 0 -> ring_contents b = [].
Proof.
  intros Hc. pose proof (ring_contents_length b) as Hlen.
  rewrite Hc in Hlen. destruct (ring_contents b); [reflexivity|discriminate].
Qed.

Lemma contents_first_push {A : Type} `{Zeroed A} (b : ring_buffer A) (x : A) :
  ring_wf b -> count b = 0 -> ring_contents (ring_buffer_push b x) = [x].
Proof.
  intros Hwf Hc. rewrite ring_contents_push by exact Hwf.
  destruct Hwf as (Hs & _). rewrite Hc.
  destruct (Z.ltb_spec 0 (size b)); [|lia].
  rewrite contents_empty by exact Hc. reflexivity.
Qed.

(** The median of a ring that holds one element is that element. *)
Lemma median_first_push {A : Type} `{Zeroed A} (b : ring_buffer A) (x : A)
    (compar : A -> A -> Z) :
  ring_wf b -> count b = 0 ->
  snd (ring_buffer_median (ring_buffer_push b x) compar) = x.
Proof.
  intros Hwf Hc.
  pose proof (ring_wf_push b x Hwf) as Hwf'.
  pose proof (push_count b x Hwf) as Hcount.
  pose proof (push_position b x Hwf) as Hpos.
  destruct Hwf as (Hs & Hl & _ & _ & Hpc).
  rewrite Hc in Hpc, Hcount. specialize (Hpc ltac:(lia)). cbn in Hpc.
  rewrite Hpc in Hpos.
  replace (size b - 1 + 1) with (size b) in Hpos by lia.
  rewrite Z.mod_same in Hpos by lia.
  rewrite Z.min_r in Hcount by lia.
  rewrite ring_buffer_median_unwrapped by (try exact Hwf'; lia).
  rewrite Hcount. change (Z.to_nat (0 + 1)) with 1%nat.
  change (Z.to_nat ((0 + 1) / 2)) with 0%nat.
  unfold ring_buffer_push. cbn [buffer].
  rewrite Hpc. replace (size b - 1 + 1) with (size b) by lia.
  rewrite u64_small, Z.mod_same by lia. change (Z.to_nat 0) with 0%nat.
  destruct (buffer b) as [|a l]; [cbn in Hl; lia|]. reflexivity.
Qed.

(** Exact sum of non-negative [int64_t] values that stays in range. *)
Lemma sum_int64_t_exact (l : list Z) : forall a,
  0 <= a -> Forall (fun x => 0 <= x) l ->
  a + foldr Z.add 0 l <= Int.max_s64 ->
  fold_left (fun st x => sum_int64_t x st) l a = a + foldr Z.add 0 l.
Proof.
  induction l as [|x l IH]; intros a Ha Hall Hsum; cbn [fold_left foldr] in *.
  - lia.
  - inversion Hall as [|? ? Hx Hl]; subst.
    assert (Hnn : 0 <= foldr Z.add 0 l).
    { clear -Hl. induction Hl; cbn [foldr]; lia. }
    unfold sum_int64_t at 2.
    rewrite s64_small by (unfold Int.min_s64, Int.max_s64 in *; lia).
    rewrite IH; try assumption; lia.
Qed.

(** ** Reply ingestor: bookkeeping of the reachable states *)

(** X11.  The statistics and the rings agree with the history: in a
    state reached after [n] datagrams passed the checks of
    [receive_loop] and [r] of them were rejected by the outlier test,
    [receivedSamples] and [rejectedSamples] hold [n] and [r] ([int]
    counters, wrapping), the round-trip ring holds [min 10 n] entries and
    the samples and offsets rings [min 10 (n - r)] each.  Every
    reachable state has such a history ([reachable_tallied]). *)
Theorem reachable_tally (n r : Z) (sync : DRIFTsync) :
  tallied n r sync ->
  reachable sync /\
  0 <= r <= n /\
  receivedSamples (stats sync) = Int.s32 n /\
  rejectedSamples (stats sync) = Int.s32 r /\
  count (roundTripTimes sync) = Z.min 10 n /\
  count (samples sync) = Z.min 10 (n - r) /\
  count (offsets sync) = Z.min 10 (n - r).
Proof.
  intros Ht. split; [exact (tallied_reachable n r sync Ht)|].
  destruct (tallied_ledger n r sync Ht)
    as (Hnr & Hrecv & Hrej & Hrtt & Hsam & Hoc & _).
  repeat split; try assumption; lia.
Qed.

Lemma reachable_tally_third :
  let clk := ReceiveClock (3000 + 10101) 0 0 0 0 in
  let sync := receive_iteration Run.two_replies sizeof_packet
                (reply 3000 7000) clk in
  tallied 3 1 sync /\
  receivedSamples (stats sync) = 3 /\
  rejectedSamples (stats sync) = 1 /\
  count (roundTripTimes sync) = 3 /\
  count (samples sync) = 2.
Proof.
  cbv zeta.
  assert (Ht : tallied 3 1
                 (receive_iteration Run.two_replies sizeof_packet
                    (reply 3000 7000)
                    (ReceiveClock (3000 + 10101) 0 0 0 0))).
  { apply (tallied_rejected 2 0);
      [|reflexivity | vm_compute; reflexivity].
    change Run.two_replies
      with (receive_iteration
              (receive_iteration Run.fresh sizeof_packet (reply 1000 5000)
                 (ReceiveClock 1100 (1100 + 1) (1100 + 2) (1100 + 3)
                    (1100 + 4)))
              sizeof_packet (reply 2000 6000)
              (ReceiveClock 2100 (2100 + 1) (2100 + 2) (2100 + 3)
                 (2100 + 4))).
    apply (tallied_accepted 1 0);
      [|reflexivity | vm_compute; reflexivity].
    apply (tallied_accepted 0 0);
      [|reflexivity | vm_compute; reflexivity].
    apply tallied_create. }
  split; [exact Ht|].
  destruct (reachable_tally 3 1 _ Ht) as (_ & _ & Hrecv & Hrej & Hrtt & Hsam & _).
  repeat split; assumption.
Defined.

(** X12.  In every reachable state the offsets ring mirrors the samples
    ring: the retained offsets are the [int64_t] differences
    [remote - local] of the retained samples, in the same order. *)
Theorem offsets_mirror_samples (sync : DRIFTsync) :
  reachable sync ->
  ring_contents (offsets sync)
  = map (fun smp => Int.s64 (remote smp - local smp))
      (ring_contents (samples sync)).
Proof.
  intros Hreach.
  destruct (reachable_ledger sync Hreach)
    as (n & r & _ & _ & _ & _ & _ & Hoc & Hop & Hob & _).
  pose proof (reachable_inv sync Hreach)
    as (_ & _ & (Hws & Hss) & (Hwo & Hso) & _).
  unfold ring_contents. rewrite Hoc, Hop, Hob, Hso, Hss, map_map.
  apply map_ext_in. intros k _.
  apply (lookup_total_map (fun smp => Int.s64 (remote smp - local smp))).
  destruct Hws as (Hs & Hl & _). rewrite Hl, Hss.
  pose proof (Z.mod_pos_bound
                (position (samples sync) - count (samples sync) + 1
                 + Z.of_nat k) 10 ltac:(lia)).
  lia.
Qed.

Lemma offsets_mirror_samples_eleven :
  reachable Run.eleven_replies /\
  ring_contents (offsets Run.eleven_replies)
  = map (fun smp => Int.s64 (remote smp - local smp))
      (ring_contents (samples Run.eleven_replies)).
Proof.
  assert (Hreach : reachable Run.eleven_replies)
    by apply receive_loop_reachable, fresh_reachable.
  split; [exact Hreach|].
  exact (offsets_mirror_samples Run.eleven_replies Hreach).
Defined.

(** X13.  Until two samples have been accepted, [DRIFTsync_clockRate]
    returns exactly 1.0, the value [DRIFTsync_create] stored. *)
Theorem clockRate_one_before_two_samples (sync : DRIFTsync) :
  reachable sync -> count (samples sync) < 2 ->
  DRIFTsync_clockRate sync = one.
Proof.
  intros Hreach Hcount.
  destruct (reachable_ledger sync Hreach)
    as (n & r & _ & _ & _ & _ & _ & _ & _ & _ & Hrate & _).
  exact (Hrate Hcount).
Qed.

Lemma clockRate_one_before_two_samples_first :
  reachable Run.first_reply /\
  count (samples Run.first_reply) < 2 /\
  DRIFTsync_clockRate Run.first_reply = one.
Proof.
  assert (Hreach : reachable Run.first_reply)
    by apply receive_loop_reachable, fresh_reachable.
  split; [exact Hreach|]. split; [reflexivity|].
  exact (clockRate_one_before_two_samples Run.first_reply Hreach eq_refl).
Defined.

(** What the first reply to reach the critical section leaves behind. *)
Lemma first_reply_fields (sync : DRIFTsync) (now : Z)
    (packet : driftsync_packet) :
  reachable sync -> count (roundTripTimes sync) = 0 ->
  let sync' := fst (ingest sync now packet) in
  snd (ingest sync now packet) = true /\
  ring_contents (roundTripTimes sync')
  = [Int.s64 (Int.u64 (now - pk_local packet))] /\
  ring_contents (samples sync')
  = [Sample (Int.s64 (pk_local packet)) (Int.s64 (pk_remote packet))] /\
  averageOffset sync' = Int.s64 (pk_remote packet - pk_local packet) /\
  clockRate sync' = one.
Proof.
  intros Hreach Hcount. cbv zeta.
  destruct (reachable_ledger sync Hreach)
    as (n & r & Hnr & _ & _ & Hrtt & Hsam & Hoc & _ & _ & Hrate & _).
  pose proof (reachable_inv sync Hreach)
    as ((Hwr & Hsr) & Hscratch & (Hws & Hss) & (Hwo & Hso) & _).
  assert (Hsam0 : count (samples sync) = 0) by lia.
  assert (Hoff0 : count (offsets sync) = 0) by lia.
  assert (Haccepted : snd (ingest sync now packet) = true).
  { rewrite ingest_accepts. cbv zeta.
    rewrite ring_buffer_copy_same by (rewrite push_size; congruence).
    rewrite median_first_push by assumption.
    rewrite Z.sub_diag. reflexivity. }
  pose proof (ingest_fields sync now packet) as Hf. cbv zeta in Hf.
  rewrite Haccepted in Hf.
  destruct Hf as (Hf_rtt & _ & _ & _ & _ & _ & _ & _ & Hf_sam & Hf_off
                  & Hf_rate & Hf_avg).
  split; [exact Haccepted|].
  split; [rewrite Hf_rtt; apply contents_first_push; assumption|].
  split; [rewrite Hf_sam; apply contents_first_push; assumption|].
  split.
  - rewrite Hf_avg.
    set (off := Int.s64 (Int.u64 (pk_remote packet - pk_local packet))).
    pose proof (get_push_newest (offsets sync) off Hwo) as Hnew.
    pose proof (push_count (offsets sync) off Hwo) as Hc1.
    rewrite Hoff0, Hso in Hc1. change (Z.min 10 (0 + 1)) with 1 in Hc1.
    rewrite Hc1 in Hnew |- *. change (Int.u64 (1 - 1)) with 0 in Hnew.
    unfold ring_buffer_apply. rewrite Hc1.
    change (seq 0 (Z.to_nat 1)) with [0%nat]. cbn [fold_left].
    change (Z.of_nat 0) with 0.
    rewrite Hnew. unfold sum_int64_t. rewrite Z.add_0_l, Z.div_1_r.
    subst off. rewrite s64_s64, !s64_u64, s64_s64. reflexivity.
  - rewrite Hf_rate, push_count by exact Hws.
    rewrite Hsam0, Hss. change (2 <=? Z.min 10 (0 + 1)) with false.
    apply Hrate. lia.
Qed.

(** X14.  The first reply that reaches the critical section is never
    rejected: its round trip is the only entry of the ring and so its own
    median.  It leaves one sample, the offset [remote - local] as the
    average offset, and the clock rate at 1.0. *)
Theorem first_reply_accepted (sync : DRIFTsync) (now : Z)
    (packet : driftsync_packet) :
  reachable sync -> count (roundTripTimes sync) = 0 ->
  let sync' := fst (ingest sync now packet) in
  snd (ingest sync now packet) = true /\
  ring_contents (roundTripTimes sync')
  = [Int.s64 (Int.u64 (now - pk_local packet))] /\
  ring_contents (samples sync')
  = [Sample (Int.s64 (pk_local packet)) (Int.s64 (pk_remote packet))] /\
  averageOffset sync' = Int.s64 (pk_remote packet - pk_local packet) /\
  clockRate sync' = one.
Proof. exact (first_reply_fields sync now packet). Qed.

Lemma first_reply_accepted_fresh :
  reachable Run.fresh /\
  count (roundTripTimes Run.fresh) = 0 /\
  snd (ingest Run.fresh 1000100 (reply 1000000 1001000)) = true /\
  averageOffset (fst (ingest Run.fresh 1000100 (reply 1000000 1001000)))
  = 1000.
Proof.
  split; [apply fresh_reachable|]. split; [reflexivity|].
  destruct (first_reply_accepted Run.fresh 1000100 (reply 1000000 1001000)
              fresh_reachable eq_refl) as (Hacc & _ & _ & Havg & _).
  split; [exact Hacc | exact Havg].
Defined.

(** X15.  When a sample is accepted while the offsets ring has not
    wrapped (its newest entry sits in slot [count - 1]), and the retained
    offsets are non-negative with a sum within [int64_t], the average
    offset stored is the sum of the retained offsets divided by their
    number, truncated. *)
Theorem averageOffset_unwrapped_mean (sync : DRIFTsync) (now : Z)
    (packet : driftsync_packet) :
  reachable sync -> snd (ingest sync now packet) = true ->
  let sync' := fst (ingest sync now packet) in
  count (offsets sync') <= position (offsets sync') + 1 ->
  Forall (fun x => 0 <= x) (ring_contents (offsets sync')) ->
  foldr Z.add 0 (ring_contents (offsets sync')) <= Int.max_s64 ->
  averageOffset sync' = Spec.mean (offsets sync').
Proof.
  intros Hreach Haccepted. cbv zeta. intros Hpos Hnn Hsum.
  pose proof (reachable_inv sync Hreach) as (_ & _ & _ & (Hwo & Hso) & _).
  pose proof (ingest_fields sync now packet) as Hf. cbv zeta in Hf.
  rewrite Haccepted in Hf.
  destruct Hf as (_ & _ & _ & _ & _ & _ & _ & _ & _ & Hf_off & _ & Hf_avg).
  rewrite Hf_avg, <- Hf_off. clear Hf_avg.
  set (b := offsets (fst (ingest sync now packet))) in *.
  assert (Hwf : ring_wf b) by (subst b; rewrite Hf_off; apply ring_wf_push, Hwo).
  assert (Hcount : 0 < count b).
  { subst b. rewrite Hf_off, push_count by exact Hwo.
    destruct Hwo as (? & _ & ? & _). lia. }
  unfold ring_buffer_apply, Spec.mean.
  rewrite (fold_left_through_map (fun i => ring_buffer_get b (Z.of_nat i))
             sum_int64_t).
  rewrite <- ring_contents_by_get by assumption.
  rewrite sum_int64_t_exact by (try assumption; lia).
  assert (Htotal : 0 <= foldr Z.add 0 (ring_contents b)).
  { clear -Hnn. induction Hnn; cbn [foldr]; lia. }
  rewrite Z.add_0_l.
  rewrite u64_small by (unfold Int.max_s64 in Hsum; lia).
  rewrite Z.quot_div_nonneg by lia.
  apply s64_small. unfold Int.min_s64, Int.max_s64 in *.
  pose proof (Z.div_le_upper_bound (foldr Z.add 0 (ring_contents b))
                (count b) (2 ^ 63 - 1) Hcount) as Hup.
  pose proof (Z.div_pos (foldr Z.add 0 (ring_contents b)) (count b) Htotal
                Hcount).
  split; [lia|]. apply Hup. nia.
Qed.

Lemma averageOffset_unwrapped_mean_third :
  reachable Run.two_replies /\
  averageOffset (fst (Run.third_round_trip 100)) = 4000.
Proof.
  assert (Hreach : reachable Run.two_replies)
    by apply receive_loop_reachable, fresh_reachable.
  split; [exact Hreach|].
  unfold Run.third_round_trip.
  rewrite (averageOffset_unwrapped_mean Run.two_replies (3000 + 100)
             (reply 3000 7000) Hreach eq_refl).
  - reflexivity.
  - vm_compute. congruence.
  - vm_compute. repeat constructor; congruence.
  - vm_compute. congruence.
Defined.

(** ** Accuracy query before there is anything to measure *)

(** X16.  A call of [DRIFTsync_accuracy] that does not wait reports the
    zeroed summary as long as fewer than two samples have been accepted,
    or when accuracy is not measured: the accuracy ring is still
    empty. *)
Theorem accuracy_zero_before_two_samples (sync : DRIFTsync)
    (reset timeout : Z) (realtime : timespec)
    (cond_wait : option timespec -> DRIFTsync -> option DRIFTsync) :
  reachable sync ->
  count (samples sync) < 2 \/ measureAccuracy sync = 0 ->
  count (accuracySamples sync) = 0 /\
  snd (DRIFTsync_accuracy sync 0 reset timeout realtime cond_wait)
  = accuracy_zero.
Proof.
  intros Hreach Hearly.
  destruct (reachable_ledger sync Hreach)
    as (n & r & _ & _ & _ & _ & _ & _ & _ & _ & _ & Hacc).
  specialize (Hacc Hearly). split; [exact Hacc|].
  unfold DRIFTsync_accuracy.
  destruct (measureAccuracy sync =? 0); [reflexivity|].
  change (negb (0 =? 0)) with false. cbv iota.
  destruct (negb (reset =? 0)); sync_simpl.
  - reflexivity.
  - rewrite Hacc. reflexivity.
Qed.

Lemma accuracy_zero_before_two_samples_first :
  reachable Run.first_reply /\
  count (samples Run.first_reply) < 2 /\
  snd (DRIFTsync_accuracy Run.first_reply 0 0 0 (Timespec 0 0)
         (fun _ s => Some s)) = accuracy_zero.
Proof.
  assert (Hreach : reachable Run.first_reply)
    by apply receive_loop_reachable, fresh_reachable.
  split; [exact Hreach|]. split; [reflexivity|].
  exact (proj2 (accuracy_zero_before_two_samples Run.first_reply 0 0
                  (Timespec 0 0) (fun _ s => Some s) Hreach
                  (or_introl eq_refl))).
Defined.

(** ** Probe emitter and reply ingestor side by side *)

Lemma request_iteration_state sync now result :
  fst (request_iteration sync now result) = count_sent sync.
Proof.
  unfold request_iteration.
  destruct (result <? 0); [reflexivity|].
  destruct (negb (result =? sizeof_packet)); reflexivity.
Qed.

Lemma request_iteration_stamp sync now result :
  omap (fun ev => match ev with EvSend stamp => Some stamp | _ => None end)
    (snd (request_iteration sync now result)) = [now].
Proof.
  unfold request_iteration.
  destruct (result <? 0); [reflexivity|].
  destruct (negb (result =? sizeof_packet)); reflexivity.
Qed.

Lemma count_sent_twice sync k :
  count_sent
    (set_stats sync
       (Statistics (Int.s32 (sentRequests (stats sync) + k))
          (receivedSamples (stats sync)) (rejectedSamples (stats sync))))
  = set_stats sync
      (Statistics (Int.s32 (sentRequests (stats sync) + (k + 1)))
         (receivedSamples (stats sync)) (rejectedSamples (stats sync))).
Proof.
  unfold count_sent, set_stats. cbn.
  rewrite s32_succ. do 3 f_equal. lia.
Qed.

Lemma request_loop_from sync env : forall k s,
  s = set_stats sync
        (Statistics (Int.s32 (sentRequests (stats sync) + k))
           (receivedSamples (stats sync)) (rejectedSamples (stats sync))) ->
  fst (request_loop s env)
  = set_stats sync
      (Statistics
         (Int.s32 (sentRequests (stats sync) + (k + Z.of_nat (length env))))
         (receivedSamples (stats sync)) (rejectedSamples (stats sync))) /\
  omap (fun ev => match ev with EvSend stamp => Some stamp | _ => None end)
    (snd (request_loop s env)) = map fst env.
Proof.
  induction env as [|[now result] env IH]; intros k s Hs; cbn [request_loop].
  - cbn [fst snd length map omap]. rewrite Z.add_0_r. split; [exact Hs|reflexivity].
  - pose proof (request_iteration_state s now result) as Hst.
    pose proof (request_iteration_stamp s now result) as Hev.
    destruct (request_iteration s now result) as [s1 evs].
    cbn [fst snd] in Hst, Hev.
    assert (Hs1 : s1 = set_stats sync
                         (Statistics
                            (Int.s32 (sentRequests (stats sync) + (k + 1)))
                            (receivedSamples (stats sync))
                            (rejectedSamples (stats sync)))).
    { rewrite Hst, Hs. apply count_sent_twice. }
    destruct (IH (k + 1) s1 Hs1) as [IHs IHe].
    destruct (request_loop s1 env) as [s2 tr]. cbn [fst snd] in *.
    split.
    + rewrite IHs. do 3 f_equal. cbn [length]. lia.
    + rewrite omap_app, Hev, IHe. reflexivity.
Qed.

(** X17.  [request_loop] counts every pass in [sentRequests], whether the
    datagram went out or not, and changes nothing else in the client;
    each pass sends exactly one probe, stamped with the clock reading of
    that pass. *)
Theorem request_loop_counts_attempts (sync : DRIFTsync) (e : Z * Z)
    (env : list (Z * Z)) :
  fst (request_loop sync (e :: env))
  = set_stats sync
      (Statistics
         (Int.s32 (sentRequests (stats sync)
                   + Z.of_nat (length (e :: env))))
         (receivedSamples (stats sync)) (rejectedSamples (stats sync))) /\
  omap (fun ev => match ev with EvSend stamp => Some stamp | _ => None end)
    (snd (request_loop sync (e :: env)))
  = map fst (e :: env).
Proof.
  destruct e as [now result]. cbn [request_loop].
  pose proof (request_iteration_state sync now result) as Hst.
  pose proof (request_iteration_stamp sync now result) as Hev.
  destruct (request_iteration sync now result) as [s1 evs].
  cbn [fst snd] in Hst, Hev.
  assert (Hs1 : s1 = set_stats sync
                       (Statistics (Int.s32 (sentRequests (stats sync) + 1))
                          (receivedSamples (stats sync))
                          (rejectedSamples (stats sync))))
    by (rewrite Hst; reflexivity).
  destruct (request_loop_from sync env 1 s1 Hs1) as [Hs He].
  destruct (request_loop s1 env) as [s2 tr]. cbn [fst snd] in *.
  split.
  - rewrite Hs. do 3 f_equal. cbn [length]. lia.
  - rewrite omap_app, Hev, He. reflexivity.
Qed.

Lemma globalTime_count_sent sync now :
  globalTime (count_sent sync) now = globalTime sync now.
Proof. reflexivity. Qed.

Lemma ingest_count_sent sync now packet :
  ingest (count_sent sync) now packet
  = (count_sent (fst (ingest sync now packet)), snd (ingest sync now packet)).
Proof.
  unfold ingest, medianRoundTripTime. sync_simpl.
  destruct (ring_buffer_median _ _) as [scratch median]. cbn [fst snd].
  destruct (10000 <? _); [reflexivity|].
  unfold update_averageOffset, update_clockRate. sync_simpl.
  destruct (2 <=? _); reflexivity.
Qed.

(** X18.  A pass of [request_loop] and a pass of [receive_loop] commute:
    the state they leave, and what the request pass sends, do not depend
    on which of the two threads ran first. *)
Theorem request_receive_commute (sync : DRIFTsync) (now sent result : Z)
    (packet : driftsync_packet) (clk : receive_clock) :
  fst (request_iteration (receive_iteration sync result packet clk) now sent)
  = receive_iteration (fst (request_iteration sync now sent))
      result packet clk /\
  snd (request_iteration (receive_iteration sync result packet clk) now sent)
  = snd (request_iteration sync now sent).
Proof.
  assert (Hinterval : interval (receive_iteration sync result packet clk)
                      = interval sync).
  { unfold receive_iteration.
    destruct (negb (valid_reply result packet)); [reflexivity|].
    pose proof (ingest_fields sync (rc_now clk) packet) as Hf.
    cbv zeta in Hf. destruct Hf as (_ & _ & _ & _ & Hi & _).
    destruct (ingest sync (rc_now clk) packet) as [s1 accepted].
    cbn [fst] in Hi. destruct accepted; cbn [negb]; [|exact Hi].
    destruct (_ && _); sync_simpl; exact Hi. }
  split.
  - rewrite !request_iteration_state.
    unfold receive_iteration.
    destruct (negb (valid_reply result packet)); [reflexivity|].
    rewrite ingest_count_sent.
    change (measureAccuracy (count_sent sync)) with (measureAccuracy sync).
    rewrite globalTime_count_sent.
    destruct (ingest sync (rc_now clk) packet) as [s1 accepted].
    cbn [fst snd]. destruct accepted; cbn [negb]; [|reflexivity].
    change (count (samples (count_sent s1))) with (count (samples s1)).
    destruct (_ && _); [|reflexivity].
    rewrite globalTime_count_sent. reflexivity.
  - unfold request_iteration. sync_simpl. rewrite Hinterval.
    destruct (sent <? 0); [reflexivity|].
    destruct (negb (sent =? sizeof_packet)); reflexivity.
Qed.

(** ** Client and server *)

Lemma flag_reply_set flags :
  Z.land flags DRIFTSYNC_FLAG_REPLY = 0 ->
  Z.land (Z.lor flags DRIFTSYNC_FLAG_REPLY) DRIFTSYNC_FLAG_REPLY = 1.
Proof.
  intros Hclear. rewrite Z.land_lor_distr_l, Hclear. reflexivity.
Qed.

(** What the server sends when it gets past its checks. *)
Lemma server_reply_fields result packet now r :
  Server.main_iteration result packet now = Some r ->
  sizeof_packet <= result /\
  magic packet = DRIFTSYNC_MAGIC /\
  Z.land (flags packet) DRIFTSYNC_FLAG_REPLY = 0 /\
  r = Packet DRIFTSYNC_MAGIC (Z.lor (flags packet) DRIFTSYNC_FLAG_REPLY)
        (pk_local packet) now (reserved packet).
Proof.
  unfold Server.main_iteration.
  destruct (Z.ltb_spec result 0); [discriminate|].
  destruct (Z.ltb_spec result sizeof_packet); [discriminate|].
  destruct (Z.eqb_spec (magic packet) DRIFTSYNC_MAGIC) as [Hm|];
    [|discriminate].
  destruct (Z.eqb_spec (Z.land (flags packet) DRIFTSYNC_FLAG_REPLY) 0)
    as [Hf|]; [|discriminate].
  cbn [negb]. intros [= <-]. rewrite Hm. repeat split; assumption.
Qed.

(** X19.  Whatever datagram the server answers, its answer passes the
    checks of the client's [receive_loop]; it carries the magic, the
    [local] stamp and the [reserved] field of the request unchanged and
    the server's clock reading as [remote]; and the server itself never
    answers it, so replies cannot bounce between servers. *)
Theorem server_reply_passes_client (result : Z) (packet : driftsync_packet)
    (now : Z) (r : driftsync_packet) (result' now' : Z) :
  Server.main_iteration result packet now = Some r ->
  valid_reply sizeof_packet r = true /\
  magic r = DRIFTSYNC_MAGIC /\
  pk_local r = pk_local packet /\
  pk_remote r = now /\
  reserved r = reserved packet /\
  Server.main_iteration result' r now' = None.
Proof.
  intros Hsent.
  destruct (server_reply_fields result packet now r Hsent)
    as (_ & _ & Hclear & ->).
  pose proof (flag_reply_set (flags packet) Hclear) as Hset.
  repeat split.
  - unfold valid_reply. cbn [magic flags]. rewrite Hset. reflexivity.
  - unfold Server.main_iteration. cbn [magic flags]. rewrite Hset.
    destruct (result' <? 0); [reflexivity|].
    destruct (result' <? sizeof_packet); reflexivity.
Qed.

Lemma server_reply_passes_client_probe :
  Server.main_iteration 32 (request_packet 1000) 5000
  = Some (reply 1000 5000) /\
  valid_reply sizeof_packet (reply 1000 5000) = true.
Proof.
  split; [reflexivity|].
  exact (proj1 (server_reply_passes_client 32 (request_packet 1000) 5000
                  (reply 1000 5000) 32 0 eq_refl)).
Defined.

(** X20.  A probe of the client that arrives whole is answered by the
    server with the probe's stamp and the server's clock reading, all
    else zero; the client's own [receive_loop] never takes a probe for a
    reply. *)
Theorem probe_answered_by_server (stamp now result : Z)
    (sync : DRIFTsync) (clk : receive_clock) :
  Server.main_iteration sizeof_packet (request_packet stamp) now
  = Some (reply (Int.u64 stamp) now) /\
  receive_iteration sync result (request_packet stamp) clk = sync.
Proof.
  split; [reflexivity|].
  unfold receive_iteration, valid_reply, request_packet. cbn [magic flags].
  rewrite Z.land_0_l. cbn [Z.eqb negb].
  rewrite !andb_false_r. reflexivity.
Qed.

(** X21.  The client's and the server's [localTime] both turn a clock
    reading into whole microseconds, and agree, as long as the reading is
    normalised and below [2 ^ 64] nanoseconds. *)
Theorem localTime_microseconds (time : timespec) :
  0 <= tv_sec time -> 0 <= tv_nsec time < 1000000000 ->
  timespec_ns time < 2 ^ 64 ->
  localTime (Some time) = timespec_ns time / 1000 /\
  Server.localTime (Some time) = timespec_ns time / 1000.
Proof.
  unfold timespec_ns, localTime, Server.localTime.
  intros Hsec Hnsec Hrange.
  assert (Hdiv : (tv_sec time * 1000000000 + tv_nsec time) / 1000
                 = tv_sec time * 1000000 + tv_nsec time / 1000).
  { replace (tv_sec time * 1000000000) with (tv_sec time * 1000000 * 1000)
      by lia.
    apply Z.div_add_l. lia. }
  assert (Hq : 0 <= tv_nsec time / 1000 < 1000000).
  { split; [apply Z.div_pos; lia | apply Z.div_lt_upper_bound; lia]. }
  split.
  - rewrite Z.quot_div_nonneg by lia.
    rewrite (s64_small (tv_sec time * 1000))
      by (unfold Int.min_s64, Int.max_s64; lia).
    rewrite (s64_small (tv_sec time * 1000 * 1000))
      by (unfold Int.min_s64, Int.max_s64; lia).
    rewrite s64_small by (unfold Int.min_s64, Int.max_s64; lia).
    lia.
  - rewrite (u64_small (tv_sec time)) by lia.
    rewrite (u64_small (tv_sec time * 1000)) by lia.
    rewrite (u64_small (tv_sec time * 1000 * 1000)) by lia.
    rewrite (u64_small (tv_sec time * 1000 * 1000 * 1000)) by lia.
    rewrite (u64_small (tv_nsec time)) by lia.
    rewrite u64_small by lia.
    f_equal. lia.
Qed.

Lemma localTime_microseconds_uptime :
  localTime (Some (Timespec 12 345678901)) = 12345678 /\
  Server.localTime (Some (Timespec 12 345678901)) = 12345678.
Proof.
  exact (localTime_microseconds (Timespec 12 345678901)
           ltac:(cbn; lia) ltac:(cbn; lia) ltac:(vm_compute; reflexivity)).
Defined.

(** ** Exact binary64 results *)

(** A mantissa of exactly 53 bits with an exponent in the normal range is
    left alone by the rounding. *)
Lemma binary_round_aux_exact s p e :
  Z.pos (digits2_pos p) = 53 -> - 1074 <= e <= 971 ->
  binary_round_aux prec emax s (Z.pos p) e loc_Exact = S754_finite s p e.
Proof.
  intros Hd He.
  assert (Hshift : fexp prec emax (Zdigits2 (Z.pos p) + e) - e = 0).
  { unfold fexp, SpecFloat.emin, prec, emax, Zdigits2. rewrite Hd. lia. }
  unfold binary_round_aux, shr_fexp.
  rewrite Hshift. cbn [shr shr_record_of_loc shr_m loc_of_shr_record
                       round_nearest_even].
  rewrite Hshift. cbn [shr shr_record_of_loc shr_m].
  destruct (Z.leb_spec e (emax - prec)) as [_|Hbig];
    [reflexivity | unfold emax, prec in Hbig; lia].
Qed.

(** Shifting out the zero bits that a multiplication by a power of two
    put in loses nothing. *)
Lemma shr_exact_pow2 k : forall p,
  SpecFloat.iter_pos shr_1 k
    {| shr_m := Z.pos (Pos.iter xO p k); shr_r := false; shr_s := false |}
  = {| shr_m := Z.pos p; shr_r := false; shr_s := false |}.
Proof.
  induction k as [k IH|k IH|]; intros p; cbn [SpecFloat.iter_pos Pos.iter].
  - cbn [shr_1 orb]. rewrite IH, IH. reflexivity.
  - rewrite IH, IH. reflexivity.
  - reflexivity.
Qed.

Lemma digits_53_bounds m :
  Z.pos (digits2_pos m) = 53 -> 2 ^ 52 <= Z.pos m < 2 ^ 53.
Proof.
  intros Hd. pose proof (digits2_pos_bounds m) as Hb. rewrite Hd in Hb.
  exact Hb.
Qed.

(** Multiplying a normal double by 1.0 gives it back. *)
Lemma mul_one_exact s m e :
  Z.pos (digits2_pos m) = 53 -> - 1022 <= e <= 971 ->
  mul (S754_finite s m e) one = S754_finite s m e.
Proof.
  intros Hd He. pose proof (digits_53_bounds m Hd) as Hm.
  unfold mul. change one with (S754_finite false 4503599627370496 (-52)).
  cbn [SFmul]. rewrite xorb_false_r.
  assert (Hprod : (m * 4503599627370496)%positive = Pos.iter xO m 52).
  { apply Pos2Z.inj. rewrite iter_xO_value, Pos2Z.inj_mul. reflexivity. }
  rewrite Hprod.
  assert (Hdig : Z.pos (digits2_pos (Pos.iter xO m 52)) = 105).
  { apply digits2_pos_unique. rewrite iter_xO_value.
    change (Z.pos 52) with 52.
    change (2 ^ (105 - 1)) with (2 ^ 52 * 2 ^ 52).
    change (2 ^ 105) with (2 ^ 53 * 2 ^ 52). lia. }
  assert (Hshift : fexp prec emax (Zdigits2 (Z.pos (Pos.iter xO m 52))
                                   + (e + -52)) - (e + -52) = 52).
  { unfold fexp, SpecFloat.emin, prec, emax, Zdigits2. rewrite Hdig. lia. }
  unfold binary_round_aux. unfold shr_fexp at 1.
  rewrite Hshift. cbn [shr shr_record_of_loc].
  rewrite shr_exact_pow2.
  cbn [shr_m loc_of_shr_record round_nearest_even].
  replace (e + -52 + 52) with e by lia.
  assert (Hshift' : fexp prec emax (Zdigits2 (Z.pos m) + e) - e = 0).
  { unfold fexp, SpecFloat.emin, prec, emax, Zdigits2. rewrite Hd. lia. }
  unfold shr_fexp. rewrite Hshift'. cbn [shr shr_record_of_loc shr_m].
  destruct (Z.leb_spec e (emax - prec)) as [_|Hbig];
    [reflexivity | unfold emax, prec in Hbig; lia].
Qed.

(** An integer below [2 ^ 53] in magnitude converts to a double that
    holds it exactly. *)
Lemma of_int_exact z :
  z <> 0 -> - 2 ^ 53 < z < 2 ^ 53 ->
  exists m e,
    of_int z = S754_finite (z <? 0) m e /\
    Z.pos (digits2_pos m) = 53 /\ - 52 <= e <= 0 /\
    Z.pos m = Z.abs z * 2 ^ (- e).
Proof.
  intros Hz Hr.
  assert (Hgen : forall s p, Z.pos p < 2 ^ 53 ->
            exists m e, binary_round prec emax s p 0 = S754_finite s m e /\
              Z.pos (digits2_pos m) = 53 /\ - 52 <= e <= 0 /\
              Z.pos m = Z.pos p * 2 ^ (- e)).
  { clear z Hz Hr. intros s p Hp.
    pose proof (digits2_pos_bounds p) as [Hlo Hhi].
    set (d := Z.pos (digits2_pos p)) in *.
    assert (Hd : 1 <= d <= 53).
    { split; [subst d; lia|].
      destruct (Z_lt_le_dec 53 d) as [Hbig|]; [|assumption].
      assert (2 ^ 53 <= 2 ^ (d - 1)) by (apply Z.pow_le_mono_r; lia). lia. }
    unfold binary_round.
    assert (Hfexp : fexp prec emax (Z.pos (digits2_pos p) + 0) = d - 53)
      by (unfold fexp, SpecFloat.emin, prec, emax; fold d; lia).
    rewrite Hfexp. unfold shl_align.
    destruct (d - 53 - 0) as [|k|k] eqn:Hk.
    - exists p, 0. assert (Hd53 : d = 53) by lia.
      rewrite binary_round_aux_exact by (fold d; lia).
      repeat split; lia.
    - lia.
    - pose proof (iter_xO_value p k) as Hv.
      assert (Hdk : Z.pos k = 53 - d) by lia.
      assert (Hdig : Z.pos (digits2_pos (Pos.iter xO p k)) = 53).
      { apply digits2_pos_unique. rewrite Hv, Hdk. split.
        - replace (53 - 1) with ((d - 1) + (53 - d)) by lia.
          rewrite Z.pow_add_r by lia.
          apply Z.mul_le_mono_nonneg_r; [apply Z.pow_nonneg; lia | exact Hlo].
        - replace 53 with (d + (53 - d)) at 2 by lia.
          rewrite Z.pow_add_r by lia.
          apply Z.mul_lt_mono_pos_r; [apply Z.pow_pos_nonneg; lia | exact Hhi]. }
      exists (Pos.iter xO p k), (d - 53).
      rewrite binary_round_aux_exact by (try exact Hdig; lia).
      repeat split; try lia; try exact Hdig.
      rewrite Hv, Hdk. do 2 f_equal. lia. }
  unfold of_int, binary_normalize.
  destruct z as [|p|p]; [lia| |].
  - apply (Hgen false p). lia.
  - destruct (Hgen true p ltac:(lia)) as (m & e & H1 & H2 & H3 & H4).
    exists m, e. auto.
Qed.

(** Scaling by a clock rate of 1.0 and converting back to [int64_t]
    leaves an elapsed time below [2 ^ 53] as it is. *)
Lemma to_int64_mul_one z :
  - 2 ^ 53 < z < 2 ^ 53 -> to_int64 (mul (of_int z) one) = z.
Proof.
  intros Hr. destruct (Z.eq_dec z 0) as [->|Hz]; [reflexivity|].
  destruct (of_int_exact z Hz Hr) as (m & e & -> & Hd & He & Hm).
  rewrite mul_one_exact by (try exact Hd; lia).
  unfold to_int64, trunc.
  assert (Hv : (if 0 <=? e then Z.pos m * 2 ^ e else Z.pos m / 2 ^ (- e))
               = Z.abs z).
  { destruct (Z.leb_spec 0 e) as [Hnn|Hneg].
    - assert (e = 0) by lia. subst e. change (2 ^ (- 0)) with 1 in Hm.
      change (2 ^ 0) with 1. lia.
    - rewrite Hm. apply Z.div_mul.
      apply Z.pow_nonzero; lia. }
  rewrite Hv.
  destruct (Z.ltb_spec z 0) as [Hneg|Hpos].
  - rewrite Z.abs_neq by lia. rewrite Z.opp_involutive.
    unfold Int.min_s64, Int.max_s64.
    destruct (Z.leb_spec (- 2 ^ 63) z); [|lia].
    destruct (Z.leb_spec z (2 ^ 63 - 1)); [reflexivity|lia].
  - rewrite Z.abs_eq by lia.
    unfold Int.min_s64, Int.max_s64.
    destruct (Z.leb_spec (- 2 ^ 63) z); [|lia].
    destruct (Z.leb_spec z (2 ^ 63 - 1)); [reflexivity|lia].
Qed.

Lemma s64_add_s64 a b : Int.s64 (Int.s64 a + Int.s64 b) = Int.s64 (a + b).
Proof.
  destruct (s64_congruent a) as [qa Ha], (s64_congruent b) as [qb Hb].
  rewrite Ha, Hb. unfold Int.s64.
  replace (a + qa * 2 ^ 64 + (b + qb * 2 ^ 64) + 2 ^ 63)
    with (a + b + 2 ^ 63 + (qa + qb) * 2 ^ 64) by lia.
  rewrite Z_mod_plus_full. reflexivity.
Qed.

(** ** Global time before the clock rate is estimated *)

(** X22.  With one sample accepted the clock rate is still 1.0, and
    [globalTime] is the local time plus the average offset, wrapped to
    [int64_t], provided less than [2 ^ 53] microseconds lie between the
    clock reading and the sample's local stamp. *)
Theorem globalTime_one_sample (sync : DRIFTsync) (now : Z) :
  reachable sync -> count (samples sync) = 1 ->
  let reference :=
    local (ring_buffer_get (samples sync)
             (Int.u64 (count (samples sync) - 1))) in
  - 2 ^ 53 < Int.s64 (now - reference) < 2 ^ 53 ->
  globalTime sync now = Int.s64 (now + averageOffset sync).
Proof.
  intros Hreach Hcount. cbv zeta. intros Helapsed.
  destruct (reachable_ledger sync Hreach)
    as (n & r & _ & _ & _ & _ & _ & _ & _ & _ & Hrate & _).
  unfold globalTime. rewrite Hcount at 1. cbv iota. change (0 <? 1) with true.
  cbv iota. rewrite (Hrate ltac:(lia)).
  rewrite to_int64_mul_one by exact Helapsed.
  rewrite s64_add_s64. f_equal. lia.
Qed.

Lemma globalTime_one_sample_first :
  reachable Run.first_reply /\
  count (samples Run.first_reply) = 1 /\
  globalTime Run.first_reply 3000000 = 3001000.
Proof.
  assert (Hreach : reachable Run.first_reply)
    by apply receive_loop_reachable, fresh_reachable.
  split; [exact Hreach|]. split; [reflexivity|].
  exact (globalTime_one_sample Run.first_reply 3000000 Hreach eq_refl
           ltac:(vm_compute; split; reflexivity)).
Defined.

(** ** Order on doubles *)

Lemma compare_cont_Eq_spec m1 m2 :
  Pos.compare_cont Eq m1 m2 = (Z.pos m1 ?= Z.pos m2).
Proof. reflexivity. Qed.

Lemma leb_rank x y :
  is_nan x = false -> is_nan y = false ->
  (leb x y = true <-> lex_le (rank x) (rank y)).
Proof.
  unfold leb, SFleb.
  destruct x as [sx|sx| |sx mx ex], y as [sy|sy| |sy my ey]; intros Hx Hy;
    try discriminate;
    cbv beta iota delta [SFcompare rank lex_le];
    try (destruct sx; try destruct sy; split; intros; try reflexivity;
         try discriminate; lia).
  rewrite compare_cont_Eq_spec.
  destruct sx, sy; try (split; intros; try reflexivity; try discriminate; lia).
  - destruct (Z.compare_spec ex ey); destruct (Z.compare_spec (Z.pos mx) (Z.pos my));
      cbn [CompOpp]; split; intros; try reflexivity; try discriminate; lia.
  - destruct (Z.compare_spec ex ey); destruct (Z.compare_spec (Z.pos mx) (Z.pos my));
      split; intros; try reflexivity; try discriminate; lia.
Qed.

Lemma lex_le_trans a b c : lex_le a b -> lex_le b c -> lex_le a c.
Proof.
  destruct a as [[a1 a2] a3], b as [[b1 b2] b3], c as [[c1 c2] c3].
  unfold lex_le. lia.
Qed.

Lemma lex_le_refl a : lex_le a a.
Proof. destruct a as [[a1 a2] a3]. unfold lex_le. lia. Qed.

Lemma leb_refl x : is_nan x = false -> leb x x = true.
Proof. intros Hx. apply leb_rank; [assumption..|apply lex_le_refl]. Qed.

Lemma leb_trans x y z :
  is_nan x = false -> is_nan y = false -> is_nan z = false ->
  leb x y = true -> leb y z = true -> leb x z = true.
Proof.
  intros Hx Hy Hz Hxy Hyz.
  apply leb_rank in Hxy; [|assumption..]. apply leb_rank in Hyz; [|assumption..].
  apply leb_rank; [assumption..|]. exact (lex_le_trans _ _ _ Hxy Hyz).
Qed.

Lemma ltb_leb x y : ltb x y = true -> leb x y = true.
Proof.
  unfold ltb, SFltb, leb, SFleb. destruct (SFcompare x y) as [[]|]; congruence.
Qed.

Lemma gtb_leb x y : gtb x y = true -> leb y x = true.
Proof.
  unfold gtb, leb, SFleb. destruct (SFcompare x y) as [c|] eqn:Hc; [|discriminate].
  rewrite (SFcompare_antisym x y c Hc). destruct c; cbn; congruence.
Qed.

Lemma of_int_not_nan z : is_nan (of_int z) = false.
Proof.
  pose proof (binary_normalize_not_nan prec emax z 0 false) as Hn.
  unfold of_int. destruct (binary_normalize prec emax z 0 false);
    [reflexivity..|contradiction|reflexivity].
Qed.

(** ** Accuracy summary *)

Lemma accumulate_accuracy_step data st :
  is_nan (acc_min st) = false -> is_nan (acc_max st) = false ->
  let st' := accumulate_accuracy data st in
  is_nan (acc_min st') = false /\ is_nan (acc_max st') = false /\
  leb (acc_min st') (acc_min st) = true /\
  leb (acc_max st) (acc_max st') = true /\
  leb (acc_min st') (of_int data) = true /\
  leb (of_int data) (acc_max st') = true.
Proof.
  intros Hmin Hmax. cbv zeta. unfold accumulate_accuracy.
  pose proof (of_int_not_nan data) as Hd.
  destruct (ltb (of_int data) (acc_min st)) eqn:Hlt;
    cbn [acc_min acc_max acc_average];
    destruct (gtb (of_int data) (acc_max st)) eqn:Hgt;
    cbn [acc_min acc_max acc_average];
    repeat split;
    auto using leb_refl, ltb_leb, gtb_leb, not_gtb_leb, not_ltb_leb.
Qed.

Lemma accumulate_accuracy_fold (l : list Z) : forall st,
  is_nan (acc_min st) = false -> is_nan (acc_max st) = false ->
  let st' := fold_left (fun st x => accumulate_accuracy x st) l st in
  is_nan (acc_min st') = false /\ is_nan (acc_max st') = false /\
  leb (acc_min st') (acc_min st) = true /\
  leb (acc_max st) (acc_max st') = true /\
  Forall (fun x => leb (acc_min st') (of_int x) = true /\
                   leb (of_int x) (acc_max st') = true) l.
Proof.
  induction l as [|x l IH]; intros st Hmin Hmax; cbn [fold_left].
  - repeat split; auto using leb_refl.
  - destruct (accumulate_accuracy_step x st Hmin Hmax)
      as (Hmin1 & Hmax1 & Hlo1 & Hhi1 & Hxlo & Hxhi).
    destruct (IH (accumulate_accuracy x st) Hmin1 Hmax1)
      as (Hmin2 & Hmax2 & Hlo2 & Hhi2 & Hall).
    pose proof (of_int_not_nan x) as Hx.
    repeat split; try assumption.
    + exact (leb_trans _ _ _ Hmin2 Hmin1 Hmin Hlo2 Hlo1).
    + exact (leb_trans _ _ _ Hmax Hmax1 Hmax2 Hhi1 Hhi2).
    + constructor; [|exact Hall]. split.
      * exact (leb_trans _ _ _ Hmin2 Hmin1 Hx Hlo2 Hxlo).
      * exact (leb_trans _ _ _ Hx Hmax1 Hmax2 Hxhi Hhi2).
Qed.

(** X23.  The minimum and maximum that [DRIFTsync_accuracy] accumulates
    over the accuracy ring, starting from [DBL_MAX] and 0, bound every
    sample [ring_buffer_apply] reads; the maximum is never below 0. *)
Theorem accuracy_min_max_bound_samples (b : ring_buffer Z) (i : nat) :
  (i < Z.to_nat (count b))%nat ->
  let acc := ring_buffer_apply b accumulate_accuracy
               (Accuracy DBL_MAX zero zero) in
  leb (acc_min acc) (of_int (ring_buffer_get b (Z.of_nat i))) = true /\
  leb (of_int (ring_buffer_get b (Z.of_nat i))) (acc_max acc) = true /\
  leb zero (acc_max acc) = true.
Proof.
  intros Hi. cbv zeta. unfold ring_buffer_apply.
  rewrite (fold_left_through_map (fun i => ring_buffer_get b (Z.of_nat i))
             accumulate_accuracy).
  destruct (accumulate_accuracy_fold
              (map (fun i => ring_buffer_get b (Z.of_nat i))
                 (seq 0 (Z.to_nat (count b))))
              (Accuracy DBL_MAX zero zero) eq_refl eq_refl)
    as (_ & _ & _ & Hmax & Hall).
  rewrite Forall_forall in Hall.
  destruct (Hall (ring_buffer_get b (Z.of_nat i))) as [Hlo Hhi].
  { apply list_elem_of_In, in_map_iff. exists i. split; [reflexivity|].
    apply in_seq. lia. }
  repeat split; assumption.
Qed.

Lemma accuracy_min_max_bound_samples_full :
  let acc := ring_buffer_apply Run.full_ring accumulate_accuracy
               (Accuracy DBL_MAX zero zero) in
  (3 < Z.to_nat (count Run.full_ring))%nat /\
  leb (acc_min acc) (of_int (ring_buffer_get Run.full_ring 3)) = true /\
  leb (of_int (ring_buffer_get Run.full_ring 3)) (acc_max acc) = true.
Proof.
  cbv zeta. split; [vm_compute; lia|].
  destruct (accuracy_min_max_bound_samples Run.full_ring 3
              ltac:(vm_compute; lia)) as (Hlo & Hhi & _).
  split; [exact Hlo | exact Hhi].
Defined.

(** ** Clock rate of two clocks in step *)

(** A normal double divided by itself is 1.0. *)
Lemma div_self_one s m e :
  Z.pos (digits2_pos m) = 53 -> - 100 <= e <= 100 ->
  div (S754_finite s m e) (S754_finite s m e) = one.
Proof.
  intros Hd He.
  unfold div, SFdiv, SFdiv_core_binary, Zdigits2. rewrite Hd.
  assert (Hexp : Z.min (fexp prec emax (53 + e - (53 + e))) (e - e) = - 53)
    by (unfold fexp, SpecFloat.emin, prec, emax; lia).
  rewrite Hexp. replace (e - e - - 53) with 53 by lia.
  rewrite Z.shiftl_mul_pow2 by lia.
  pose proof (Z_div_mod (Z.pos m * 2 ^ 53) (Z.pos m) ltac:(lia)) as Hdm.
  destruct (Z.div_eucl (Z.pos m * 2 ^ 53) (Z.pos m)) as [q r].
  destruct Hdm as [Hq Hr].
  assert (Hq53 : q = 2 ^ 53) by nia.
  assert (Hr0 : r = 0) by nia.
  subst q r. rewrite xorb_nilpotent.
  assert (Hloc : new_location (Z.pos m) 0 = loc_Exact)
    by (unfold new_location; destruct (Z.even (Z.pos m)); reflexivity).
  rewrite Hloc. vm_compute. reflexivity.
Qed.

(** X24.  When a sample is accepted and, between the two samples the
    clock rate is taken from, the server's clock has advanced by exactly
    as much as the client's (and not by zero), the clock rate stored is
    exactly 1.0. *)
Theorem clockRate_clocks_in_step (sync : DRIFTsync) (now : Z)
    (packet : driftsync_packet) :
  reachable sync -> snd (ingest sync now packet) = true ->
  let sync' := fst (ingest sync now packet) in
  2 <= count (samples sync') ->
  let first := ring_buffer_get (samples sync') 0 in
  let last := ring_buffer_get (samples sync')
                (Int.u64 (count (samples sync') - 1)) in
  Int.s64 (remote last - remote first) = Int.s64 (local last - local first) ->
  Int.s64 (local last - local first) <> 0 ->
  clockRate sync' = one.
Proof.
  intros Hreach Haccepted. cbv zeta. intros Hcount Hsame Hnz.
  rewrite (ingest_clockRate sync now packet Haccepted Hcount).
  unfold clock_rate_of. rewrite Hsame.
  destruct (of_int_nonzero_normal _ Hnz (s64_range _))
    as (m & e & -> & Hd & He).
  apply div_self_one; [exact Hd | lia].
Qed.

Lemma clockRate_clocks_in_step_second :
  reachable Run.first_reply /\
  clockRate (fst (ingest Run.first_reply 2000100 (reply 2000000 2001000)))
  = one.
Proof.
  assert (Hreach : reachable Run.first_reply)
    by apply receive_loop_reachable, fresh_reachable.
  split; [exact Hreach|].
  apply (clockRate_clocks_in_step Run.first_reply 2000100
           (reply 2000000 2001000) Hreach);
    vm_compute; congruence.
Defined.

(** ** A whole exchange *)

Lemma u64_congruent z : exists q, Int.u64 z = z + q * 2 ^ 64.
Proof.
  exists (- (z / 2 ^ 64)). unfold Int.u64. rewrite Z.mod_eq by lia. lia.
Qed.

Lemma s64_add_multiple z q : Int.s64 (z + q * 2 ^ 64) = Int.s64 z.
Proof.
  unfold Int.s64.
  replace (z + q * 2 ^ 64 + 2 ^ 63) with (z + 2 ^ 63 + q * 2 ^ 64) by lia.
  rewrite Z_mod_plus_full. reflexivity.
Qed.

Lemma s64_sub_u64 a b : Int.s64 (a - Int.u64 b) = Int.s64 (a - b).
Proof.
  destruct (u64_congruent b) as [q ->].
  replace (a - (b + q * 2 ^ 64)) with (a - b + (- q) * 2 ^ 64) by lia.
  apply s64_add_multiple.
Qed.

(** X25.  The first exchange, end to end: a probe stamped [stamp] by the
    client, answered by the server at its time [now] and received whole
    at the client's [rc_now], is accepted and leaves the sample
    ([stamp], [now]), the round trip [rc_now - stamp] and the average
    offset [now - stamp], each wrapped to [int64_t]. *)
Theorem first_exchange (sync : DRIFTsync) (stamp now : Z)
    (r : driftsync_packet) (clk : receive_clock) :
  reachable sync -> count (roundTripTimes sync) = 0 ->
  Int.min_s64 <= stamp <= Int.max_s64 ->
  Server.main_iteration sizeof_packet (request_packet stamp) now = Some r ->
  let sync' := receive_iteration sync sizeof_packet r clk in
  ring_contents (roundTripTimes sync') = [Int.s64 (rc_now clk - stamp)] /\
  ring_contents (samples sync') = [Sample stamp (Int.s64 now)] /\
  averageOffset sync' = Int.s64 (now - stamp) /\
  clockRate sync' = one.
Proof.
  intros Hreach Hcount Hstamp Hsent. cbv zeta.
  destruct (server_reply_fields _ _ _ _ Hsent) as (_ & _ & Hclear & Hr).
  cbn [request_packet flags pk_local reserved] in Hr.
  assert (Hvalid : valid_reply sizeof_packet r = true) by (subst r; reflexivity).
  destruct (receive_iteration_valid sync sizeof_packet r clk Hvalid)
    as (Hf_rtt & Hf_sam & _ & Hf_avg & Hf_rate & _).
  destruct (first_reply_fields sync (rc_now clk) r Hreach Hcount)
    as (_ & Hrtt & Hsam & Havg & Hrate).
  rewrite Hf_rtt, Hf_sam, Hf_avg, Hf_rate, Hrtt, Hsam, Havg, Hrate.
  subst r. cbn [pk_local pk_remote].
  rewrite s64_u64, !s64_sub_u64, s64_u64, (s64_small stamp) by exact Hstamp.
  repeat split; reflexivity.
Qed.

Lemma first_exchange_fresh :
  reachable Run.fresh /\
  averageOffset (receive_iteration Run.fresh sizeof_packet
                   (reply 1000000 1001000)
                   (ReceiveClock 1000100 0 0 0 0)) = 1000.
Proof.
  split; [apply fresh_reachable|].
  destruct (first_exchange Run.fresh 1000000 1001000 (reply 1000000 1001000)
              (ReceiveClock 1000100 0 0 0 0) fresh_reachable eq_refl
              ltac:(vm_compute; split; congruence) eq_refl)
    as (_ & _ & Havg & _).
  exact Havg.
Defined.

(** ** Accuracy samples *)

Lemma abs64_nonneg_or_min x :
  0 <= Int.abs64 (Int.s64 x) \/ Int.abs64 (Int.s64 x) = Int.min_s64.
Proof.
  pose proof (s64_range x) as Hr. unfold Int.abs64.
  set (y := Int.s64 x) in *. unfold Int.min_s64, Int.max_s64 in *.
  destruct (Z.ltb_spec y 0) as [Hneg|Hpos]; [|left; exact Hpos].
  destruct (Z.eq_dec y (- 2 ^ 63)) as [->|Hne].
  - right. reflexivity.
  - left. rewrite s64_small by (unfold Int.min_s64, Int.max_s64; lia). lia.
Qed.

(** X26.  Every entry of the accuracy ring is the absolute value the
    receive loop computed: it is never negative, except that the
    [int64_t] negation leaves [INT64_MIN] as it is. *)
Theorem accuracy_samples_absolute (sync : DRIFTsync) :
  reachable sync ->
  Forall (fun x => 0 <= x \/ x = Int.min_s64) (buffer (accuracySamples sync)).
Proof.
  induction 1 as [scale interval measure | s now result Hr IH
                 | s result packet clk Hr IH | s Hr IH | s Hr IH].
  - unfold DRIFTsync_create, ring_buffer_init. sync_simpl. cbn [buffer].
    apply Forall_replicate. left. reflexivity.
  - rewrite request_iteration_state. exact IH.
  - unfold receive_iteration.
    destruct (negb (valid_reply result packet)); [exact IH|].
    pose proof (ingest_fields s (rc_now clk) packet) as Hf. cbv zeta in Hf.
    destruct Hf as (_ & Hacc & _).
    destruct (ingest s (rc_now clk) packet) as [s1 accepted].
    cbn [fst] in Hacc. destruct accepted; cbn [negb];
      [|rewrite Hacc; exact IH].
    destruct (_ && _); sync_simpl; [|rewrite Hacc; exact IH].
    unfold ring_buffer_push. cbn [buffer]. rewrite Hacc.
    apply Forall_insert; [exact IH | apply abs64_nonneg_or_min].
  - exact IH.
  - sync_simpl. unfold ring_buffer_clear. cbn [buffer].
    apply Forall_replicate. left. reflexivity.
Qed.

Lemma accuracy_samples_absolute_eleven :
  reachable Run.eleven_replies /\
  Forall (fun x => 0 <= x \/ x = Int.min_s64)
    (buffer (accuracySamples Run.eleven_replies)).
Proof.
  assert (Hreach : reachable Run.eleven_replies)
    by apply receive_loop_reachable, fresh_reachable.
  split; [exact Hreach|].
  exact (accuracy_samples_absolute Run.eleven_replies Hreach).
Defined.

(** ** Scaled queries *)

Lemma of_int_finite z :
  Int.min_s64 <= z <= Int.max_s64 -> is_finite (of_int z) = true.
Proof.
  intros Hr. destruct (Z.eq_dec z 0) as [->|Hz]; [reflexivity|].
  destruct (of_int_nonzero_normal z Hz Hr) as (m & e & -> & _). reflexivity.
Qed.

Lemma mul_finite_not_nan x y :
  is_finite x = true -> is_finite y = true -> is_nan (mul x y) = false.
Proof.
  destruct x as [sx|sx| |sx mx ex], y as [sy|sy| |sy my ey];
    intros Hx Hy; try discriminate; try reflexivity.
  unfold mul. cbn [SFmul].
  pose proof (binary_round_aux_not_nan prec emax (xorb sx sy)
                (Z.pos (mx * my)) (ex + ey) loc_Exact ltac:(lia)) as Hn.
  destruct (binary_round_aux prec emax (xorb sx sy) (Z.pos (mx * my))
              (ex + ey) loc_Exact); [reflexivity..|contradiction|reflexivity].
Qed.

Lemma globalTime_range sync now :
  Int.min_s64 <= globalTime sync now <= Int.max_s64.
Proof.
  unfold globalTime. destruct (0 <? count (samples sync)).
  - apply s64_range.
  - unfold Int.min_s64, Int.max_s64. lia.
Qed.

Lemma reachable_averageOffset_range s :
  reachable s -> Int.min_s64 <= averageOffset s <= Int.max_s64.
Proof.
  induction 1 as [scale interval measure | s now result Hr IH
                 | s result packet clk Hr IH | s Hr IH | s Hr IH].
  - cbn. unfold Int.min_s64, Int.max_s64. lia.
  - rewrite request_iteration_state. exact IH.
  - unfold receive_iteration.
    destruct (negb (valid_reply result packet)); [exact IH|].
    pose proof (ingest_fields s (rc_now clk) packet) as Hf. cbv zeta in Hf.
    destruct Hf as (_ & _ & _ & _ & _ & _ & _ & Hf).
    destruct (ingest s (rc_now clk) packet) as [s1 accepted].
    cbn [fst snd] in Hf. destruct accepted; cbn [negb].
    + destruct Hf as (_ & _ & _ & _ & Havg).
      destruct (_ && _); sync_simpl; rewrite Havg; apply s64_range.
    + destruct Hf as (_ & _ & _ & _ & Havg). rewrite Havg. exact IH.
  - exact IH.
  - exact IH.
Qed.

(** X27.  For a client whose scale is finite, the scaled queries
    [DRIFTsync_localTime], [DRIFTsync_globalTime] and [DRIFTsync_offset]
    never return NaN, in any reachable state and for any [int64_t] clock
    reading. *)
Theorem scaled_queries_not_nan (sync : DRIFTsync) (now : Z) :
  reachable sync -> is_finite (scale sync) = true ->
  Int.min_s64 <= now <= Int.max_s64 ->
  is_nan (DRIFTsync_localTime sync now) = false /\
  is_nan (DRIFTsync_globalTime sync now) = false /\
  is_nan (DRIFTsync_offset sync) = false.
Proof.
  intros Hreach Hscale Hnow.
  unfold DRIFTsync_localTime, DRIFTsync_globalTime, DRIFTsync_offset.
  repeat split; apply mul_finite_not_nan; try exact Hscale;
    apply of_int_finite.
  - exact Hnow.
  - apply globalTime_range.
  - apply reachable_averageOffset_range, Hreach.
Qed.

Lemma scaled_queries_not_nan_first :
  reachable Run.first_reply /\
  is_finite (scale Run.first_reply) = true /\
  is_nan (DRIFTsync_offset Run.first_reply) = false.
Proof.
  assert (Hreach : reachable Run.first_reply)
    by apply receive_loop_reachable, fresh_reachable.
  split; [exact Hreach|]. split; [reflexivity|].
  exact (proj2 (proj2 (scaled_queries_not_nan Run.first_reply 3000000 Hreach
                         eq_refl ltac:(vm_compute; split; congruence)))).
Defined.

(** ** Accuracy summary of a single sample *)

(** Rounding a 53-bit mantissa that was shifted left by [k] bits, with
    the exponent lowered to match, gives the number back. *)
Lemma binary_round_aux_shifted s m k e :
  Z.pos (digits2_pos m) = 53 -> - 1074 <= e <= 971 ->
  binary_round_aux prec emax s (Z.pos (Pos.iter xO m k)) (e - Z.pos k)
    loc_Exact
  = S754_finite s m e.
Proof.
  intros Hd He. pose proof (digits_53_bounds m Hd) as Hm.
  assert (Hk : 0 < 2 ^ Z.pos k) by (apply Z.pow_pos_nonneg; lia).
  assert (Hdig : Z.pos (digits2_pos (Pos.iter xO m k)) = 53 + Z.pos k).
  { apply digits2_pos_unique. rewrite iter_xO_value.
    replace (53 + Z.pos k - 1) with (52 + Z.pos k) by lia.
    rewrite !Z.pow_add_r by lia. nia. }
  assert (Hshift : fexp prec emax (Zdigits2 (Z.pos (Pos.iter xO m k))
                                   + (e - Z.pos k)) - (e - Z.pos k)
                   = Z.pos k).
  { unfold fexp, SpecFloat.emin, prec, emax, Zdigits2. rewrite Hdig. lia. }
  unfold binary_round_aux. unfold shr_fexp at 1.
  rewrite Hshift. cbn [shr shr_record_of_loc].
  rewrite shr_exact_pow2.
  cbn [shr_m loc_of_shr_record round_nearest_even].
  replace (e - Z.pos k + Z.pos k) with e by lia.
  assert (Hshift' : fexp prec emax (Zdigits2 (Z.pos m) + e) - e = 0).
  { unfold fexp, SpecFloat.emin, prec, emax, Zdigits2. rewrite Hd. lia. }
  unfold shr_fexp. rewrite Hshift'. cbn [shr shr_record_of_loc shr_m].
  destruct (Z.leb_spec e (emax - prec)) as [_|Hbig];
    [reflexivity | unfold emax, prec in Hbig; lia].
Qed.

(** Dividing a normal double by 1.0 gives it back. *)
Lemma div_one_exact s m e :
  Z.pos (digits2_pos m) = 53 -> - 1000 <= e <= 971 ->
  div (S754_finite s m e) one = S754_finite s m e.
Proof.
  intros Hd He. pose proof (digits_53_bounds m Hd) as Hm.
  unfold div. change one with (S754_finite false 4503599627370496 (-52)).
  unfold SFdiv, SFdiv_core_binary, Zdigits2. rewrite Hd.
  change (Z.pos (digits2_pos 4503599627370496)) with 53.
  assert (Hexp : Z.min (fexp prec emax (53 + e - (53 + -52))) (e - -52)
                 = e - 1)
    by (unfold fexp, SpecFloat.emin, prec, emax; lia).
  rewrite Hexp. replace (e - -52 - (e - 1)) with 53 by lia.
  rewrite Z.shiftl_mul_pow2 by lia.
  pose proof (Z_div_mod (Z.pos m * 2 ^ 53) (Z.pos 4503599627370496)
                ltac:(lia)) as Hdm.
  destruct (Z.div_eucl (Z.pos m * 2 ^ 53) (Z.pos 4503599627370496))
    as [q r].
  destruct Hdm as [Hq Hr].
  assert (Hq2 : q = Z.pos (Pos.iter xO m 1)) by (cbn [Pos.iter]; lia).
  assert (Hr0 : r = 0) by lia.
  subst q r. rewrite xorb_false_r.
  change (new_location (Z.pos 4503599627370496) 0) with loc_Exact.
  apply (binary_round_aux_shifted s m 1 e); [exact Hd | lia].
Qed.

Lemma accumulate_first d :
  0 <= d < 2 ^ 53 ->
  accumulate_accuracy d (Accuracy DBL_MAX zero zero)
  = Accuracy (of_int d) (of_int d) (of_int d).
Proof.
  intros Hd. unfold accumulate_accuracy.
  destruct (Z.eq_dec d 0) as [->|Hnz]; [reflexivity|].
  destruct (of_int_exact d Hnz ltac:(lia)) as (m & e & Hof & Hdig & He & _).
  rewrite Hof. destruct (Z.ltb_spec d 0) as [|_]; [lia|].
  assert (Hlt : ltb (S754_finite false m e) DBL_MAX = true).
  { unfold ltb, SFltb, DBL_MAX.
    change (SFmax_float prec emax)
      with (S754_finite false 9007199254740991 971).
    cbv beta iota delta [SFcompare].
    destruct (Z.compare_spec e 971); [lia | reflexivity | lia]. }
  cbn [acc_min acc_max acc_average]. rewrite Hlt.
  cbn [acc_min acc_max acc_average]. reflexivity.
Qed.

(** X28.  With accuracy measured and exactly one sample [d] in the
    accuracy ring ([0 <= d < 2 ^ 53]), a call of [DRIFTsync_accuracy]
    that neither waits nor resets reports minimum, average and maximum
    all equal to [d] times the scale. *)
Theorem accuracy_single_sample (sync : DRIFTsync) (timeout : Z)
    (realtime : timespec)
    (cond_wait : option timespec -> DRIFTsync -> option DRIFTsync) :
  measureAccuracy sync <> 0 -> count (accuracySamples sync) = 1 ->
  let d := ring_buffer_get (accuracySamples sync) 0 in
  0 <= d < 2 ^ 53 ->
  snd (DRIFTsync_accuracy sync 0 0 timeout realtime cond_wait)
  = Accuracy (mul (of_int d) (scale sync)) (mul (of_int d) (scale sync))
      (mul (of_int d) (scale sync)).
Proof.
  intros Hmeasure Hcount. cbv zeta. intros Hd.
  unfold DRIFTsync_accuracy.
  destruct (Z.eqb_spec (measureAccuracy sync) 0) as [|_]; [contradiction|].
  change (negb (0 =? 0)) with false. cbv iota.
  rewrite Hcount. change (1 =? 0) with false. cbv iota. cbn [snd].
  unfold ring_buffer_apply. rewrite Hcount.
  change (seq 0 (Z.to_nat 1)) with [0%nat]. cbn [fold_left].
  change (Z.of_nat 0) with 0.
  rewrite accumulate_first by exact Hd.
  cbn [acc_min acc_average acc_max].
  change (of_int 1) with one.
  assert (Hdiv : div (of_int (ring_buffer_get (accuracySamples sync) 0)) one
                 = of_int (ring_buffer_get (accuracySamples sync) 0)).
  { destruct (Z.eq_dec (ring_buffer_get (accuracySamples sync) 0) 0)
      as [->|Hnz]; [reflexivity|].
    destruct (of_int_exact _ Hnz ltac:(lia)) as (m & e & -> & Hdig & He & _).
    apply div_one_exact; [exact Hdig | lia]. }
  rewrite Hdiv. reflexivity.
Qed.

Lemma accuracy_single_sample_measured :
  let sync := set_accuracySamples Run.first_reply
                (ring_buffer_push (accuracySamples Run.first_reply) 250) in
  measureAccuracy sync <> 0 /\
  count (accuracySamples sync) = 1 /\
  acc_max (snd (DRIFTsync_accuracy sync 0 0 0 (Timespec 0 0)
                  (fun _ s => Some s)))
  = mul (of_int 250) SCALE_MS.
Proof.
  cbv zeta. split; [vm_compute; congruence|]. split; [reflexivity|].
  rewrite (accuracy_single_sample
             (set_accuracySamples Run.first_reply
                (ring_buffer_push (accuracySamples Run.first_reply) 250))
             0 (Timespec 0 0) (fun _ s => Some s)
             ltac:(vm_compute; congruence) eq_refl
             ltac:(vm_compute; split; congruence)).
  reflexivity.
Defined.
